(** * The 24 game: expression search, evaluation and game state

    A shallow embedding of [twenty_four_game.py] (class [TwentyFourGame])
    together with the fragment of the Python runtime its solver relies on:
    [str] of an int, [str.format], [eval] on arithmetic expressions,
    binary64 floats, [fractions.Fraction], [re.findall], [itertools] and
    sets.  Exceptions are values of [res]; the object [self] is a record
    that the state-changing methods return updated. *)

From Stdlib Require Import ZArith QArith List String Ascii Bool Lia Permutation.
From Stdlib Require Import Uint63 PrimFloat SpecFloat FloatOps.
From Stdlib Require FloatAxioms.
From Stdlib Require Import DecimalString DecimalPos DecimalZ DecimalFacts.
From Stdlib Require Import Orders Mergesort Sorted.
Import ListNotations.

Set Implicit Arguments.
Local Open Scope string_scope.
Local Open Scope list_scope.
Local Open Scope Z_scope.

(** ** Exceptions *)

Module Py.

Inductive exn : Set :=
| ZeroDivisionError
| OverflowError
| TypeError
| NameError
| SyntaxError
| IndexError
| KeyError
| ValueError.

Inductive res (A : Type) : Type :=
| Ok (a : A)
| Raise (e : exn).

Arguments Ok {A} a.
Arguments Raise {A} e.

Definition bind {A B : Type} (m : res A) (k : A -> res B) : res B :=
  match m with
  | Ok a => k a
  | Raise e => Raise e
  end.

Notation "x <- m ;; k" := (bind m (fun x => k))
  (at level 61, m at next level, right associativity).

Definition is_ok {A : Type} (m : res A) : bool :=
  match m with
  | Ok _ => true
  | Raise _ => false
  end.

(** ** Characters and strings *)

(** The code point of a character (a byte here). *)
Definition ord (c : ascii) : Z := Z.of_N (N_of_ascii c).

(** The value of a decimal digit, code points 48 to 57. *)
Definition digit_val (c : ascii) : option Z :=
  if (48 <=? ord c) && (ord c <=? 57) then Some (ord c - 48) else None.

Definition is_digit (c : ascii) : bool :=
  match digit_val c with
  | Some _ => true
  | None => false
  end.

Definition is_upper (c : ascii) : bool := (65 <=? ord c) && (ord c <=? 90).

Definition is_lower (c : ascii) : bool := (97 <=? ord c) && (ord c <=? 122).

(** First character of an identifier: a letter or the underscore. *)
Definition is_name_start (c : ascii) : bool :=
  is_upper c || is_lower c || (c =? "_")%char.

(** [str(z)] for an int: decimal digits, a leading minus sign when
    negative, no leading zero. *)
Definition py_str (z : Z) : string := NilZero.string_of_int (Z.to_int z).

(** [s.startswith(sub)]. *)
Fixpoint starts_with (sub s : string) : bool :=
  match sub, s with
  | EmptyString, _ => true
  | String a sub', String b s' => (a =? b)%char && starts_with sub' s'
  | String _ _, EmptyString => false
  end.

(** [sub in s] for strings. *)
Fixpoint py_in (sub s : string) : bool :=
  starts_with sub s ||
  match s with
  | EmptyString => false
  | String _ s' => py_in sub s'
  end.

(** [s.replace(old, new)]: non-overlapping occurrences, left to right.
    [skip] counts the characters of a matched occurrence still to drop. *)
Fixpoint replace_from (skip : nat) (old new s : string) : string :=
  match s with
  | EmptyString => EmptyString
  | String c s' =>
      match skip with
      | S k => replace_from k old new s'
      | O =>
          if starts_with old s
          then (new ++ replace_from (String.length old - 1) old new s')%string
          else String c (replace_from O old new s')
      end
  end.

Fixpoint intersperse (new s : string) : string :=
  match s with
  | EmptyString => new
  | String c s' => (new ++ String c (intersperse new s'))%string
  end.

Definition py_replace (old new s : string) : string :=
  match old with
  | EmptyString => intersperse new s
  | _ => replace_from O old new s
  end.

Definition lower_char (c : ascii) : ascii :=
  if is_upper c then ascii_of_N (N_of_ascii c + 32) else c.

(** [s.lower()].  Strings are byte strings here (UTF-8); only the ASCII
    letters are mapped, bytes of other code points are left as they are. *)
Fixpoint py_lower (s : string) : string :=
  match s with
  | EmptyString => EmptyString
  | String c s' => String (lower_char c) (py_lower s')
  end.

(** [pattern.format] applied to [args], for templates whose replacement fields are
    explicit positional indices [{N}]; [args] are the arguments already
    rendered by [str].  Field syntax the solver's templates never use
    (automatic numbering, brace escapes, names, conversions) is rejected
    with [ValueError].  [field] is [None] outside a replacement field and
    [Some i] inside one, [i] the index read so far. *)
Fixpoint format_from (field : option (option nat)) (pattern : string)
    (args : list string) : res string :=
  match pattern with
  | EmptyString =>
      match field with
      | None => Ok EmptyString
      | Some _ => Raise ValueError
      end
  | String c rest =>
      match field with
      | None =>
          if (c =? "{")%char then format_from (Some None) rest args
          else if (c =? "}")%char then Raise ValueError
          else r <- format_from None rest args ;; Ok (String c r)
      | Some i =>
          if (c =? "}")%char then
            match i with
            | None => Raise ValueError
            | Some n =>
                match nth_error args n with
                | Some a => r <- format_from None rest args ;; Ok (a ++ r)%string
                | None => Raise IndexError
                end
            end
          else
            match digit_val c with
            | Some d =>
                let n := match i with Some n => n | None => O end in
                format_from (Some (Some (10 * n + Z.to_nat d)%nat)) rest args
            | None => Raise ValueError
            end
      end
  end.

Definition py_format (pattern : string) (args : list string) : res string :=
  format_from None pattern args.

(** ** Tokens of the arithmetic fragment of Python expressions

    Integer literals, names, the operators [+ - * /] and parentheses.  A
    character outside the fragment, an integer literal with a leading zero
    and a literal immediately followed by a letter lex to [TBad], which
    the parser rejects. *)

Inductive token : Set :=
| TNum (z : Z)
| TName (s : string)
| TPlus
| TMinus
| TStar
| TSlash
| TLParen
| TRParen
| TBad.

Inductive lex_state : Set :=
| LStart
| LNum (leading_zero : bool) (v : Z)
| LName (name : string).

Definition flush (st : lex_state) (ts : list token) : list token :=
  match st with
  | LStart => ts
  | LNum lz v => (if lz && negb (v =? 0) then TBad else TNum v) :: ts
  | LName n => TName n :: ts
  end.

Definition punct (c : ascii) : list token :=
  if (c =? "+")%char then [TPlus]
  else if (c =? "-")%char then [TMinus]
  else if (c =? "*")%char then [TStar]
  else if (c =? "/")%char then [TSlash]
  else if (c =? "(")%char then [TLParen]
  else if (c =? ")")%char then [TRParen]
  else if (c =? " ")%char then []
  else [TBad].

Fixpoint lex_from (st : lex_state) (s : string) : list token :=
  match s with
  | EmptyString => flush st []
  | String c s' =>
      match digit_val c with
      | Some d =>
          match st with
          | LStart => lex_from (LNum (d =? 0) d) s'
          | LNum lz v => lex_from (LNum lz (10 * v + d)) s'
          | LName n => lex_from (LName (n ++ String c "")%string) s'
          end
      | None =>
          if is_name_start c then
            match st with
            | LStart => lex_from (LName (String c "")) s'
            | LNum _ _ => TBad :: lex_from LStart s'
            | LName n => lex_from (LName (n ++ String c "")%string) s'
            end
          else flush st (punct c ++ lex_from LStart s')
      end
  end.

Definition lex (s : string) : list token := lex_from LStart s.

(** ** Abstract syntax and parsing

    The grammar is Python's for this fragment:
    [expr: term (('+'|'-') term)*], [term: factor (('*'|'/') factor)*],
    [factor: ('+'|'-') factor | primary],
    [primary: atom ('(' [expr] ')')*], [atom: NUMBER | NAME | '(' expr ')'].
    The parser is an operator-precedence parser over the token list, with a
    stack of pending operators and a stack of finished operands. *)

Inductive unop : Set := UPos | UNeg.
Inductive binop : Set := Add | Sub | Mul | Div.

Inductive expr : Set :=
| ENum (z : Z)
| EName (s : string)
| EUn (u : unop) (e : expr)
| EBin (o : binop) (l r : expr)
| ECall (f : expr) (arg : expr)
| ECallEmpty (f : expr).

Inductive pending : Set :=
| PUn (u : unop)
| PBin (o : binop)
| PGroup
| PCall.

Definition binop_prec (o : binop) : nat :=
  match o with
  | Add | Sub => 1
  | Mul | Div => 2
  end.

Definition unary_prec : nat := 3.

(** Apply the pending operators that bind at least as tightly as
    [min_prec], innermost first; stops at an open parenthesis. *)
Fixpoint reduce (min_prec : nat) (ops : list pending) (out : list expr)
    : option (list pending * list expr) :=
  match ops with
  | PUn u :: ops' =>
      if (min_prec <=? unary_prec)%nat then
        match out with
        | e :: out' => reduce min_prec ops' (EUn u e :: out')
        | _ => None
        end
      else Some (ops, out)
  | PBin o :: ops' =>
      if (min_prec <=? binop_prec o)%nat then
        match out with
        | r :: l :: out' => reduce min_prec ops' (EBin o l r :: out')
        | _ => None
        end
      else Some (ops, out)
  | _ => Some (ops, out)
  end.

Definition binop_of_token (t : token) : option binop :=
  match t with
  | TPlus => Some Add
  | TMinus => Some Sub
  | TStar => Some Mul
  | TSlash => Some Div
  | _ => None
  end.

Fixpoint parse_from (ts : list token) (want_operand : bool)
    (ops : list pending) (out : list expr) : res expr :=
  match ts with
  | [] =>
      if want_operand then Raise SyntaxError
      else
        match reduce 0 ops out with
        | Some ([], [e]) => Ok e
        | _ => Raise SyntaxError
        end
  | t :: ts' =>
      if want_operand then
        match t with
        | TNum z => parse_from ts' false ops (ENum z :: out)
        | TName s => parse_from ts' false ops (EName s :: out)
        | TPlus => parse_from ts' true (PUn UPos :: ops) out
        | TMinus => parse_from ts' true (PUn UNeg :: ops) out
        | TLParen => parse_from ts' true (PGroup :: ops) out
        | TRParen =>
            match ops, out with
            | PCall :: ops', f :: out' =>
                parse_from ts' false ops' (ECallEmpty f :: out')
            | _, _ => Raise SyntaxError
            end
        | _ => Raise SyntaxError
        end
      else
        match t with
        | TLParen => parse_from ts' true (PCall :: ops) out
        | TRParen =>
            match reduce 0 ops out with
            | Some (PGroup :: ops', out') => parse_from ts' false ops' out'
            | Some (PCall :: ops', a :: f :: out') =>
                parse_from ts' false ops' (ECall f a :: out')
            | _ => Raise SyntaxError
            end
        | _ =>
            match binop_of_token t with
            | Some o =>
                match reduce (binop_prec o) ops out with
                | Some (ops', out') => parse_from ts' true (PBin o :: ops') out'
                | None => Raise SyntaxError
                end
            | None => Raise SyntaxError
            end
        end
  end.

Definition parse (s : string) : res expr := parse_from (lex s) true [] [].


(** ** Numbers: ints, binary64 floats and [Fraction]s *)

Definition Z2SF (z : Z) : spec_float :=
  match z with
  | Z0 => S754_zero false
  | Zpos p => S754_finite false p 0
  | Zneg p => S754_finite true p 0
  end.

(** An int of at most 53 bits is a binary64 value exactly. *)
Definition fits_double (z : Z) : bool := Z.abs z <=? 2 ^ 53.

Definition small_float (z : Z) : float :=
  let f := of_uint63 (Uint63.of_Z (Z.abs z)) in
  if z <? 0 then PrimFloat.opp f else f.

(** [float(z)] for an int: the nearest binary64 value, ties to even;
    [OverflowError] when the int is too large. *)
Definition float_of_int (z : Z) : res float :=
  if fits_double z then Ok (small_float z)
  else
    let f := SF2Prim (binary_normalize prec emax z 0 false) in
    if is_infinity f then Raise OverflowError else Ok f.

(** [a / b] for ints: the correctly rounded quotient.  As in CPython's
    [long_true_divide], operands that are exact doubles are divided as
    doubles; otherwise the quotient of the integers is rounded once. *)
Definition int_true_div (a b : Z) : res float :=
  if b =? 0 then Raise ZeroDivisionError
  else if fits_double a && fits_double b
  then Ok (PrimFloat.div (small_float a) (small_float b))
  else
    let f := SF2Prim (SFdiv prec emax (Z2SF a) (Z2SF b)) in
    if is_infinity f then Raise OverflowError else Ok f.

(** A [Fraction] is a rational in lowest terms ([Qred]). *)
Definition float_of_frac (q : Q) : res float :=
  int_true_div (Qnum q) (Zpos (Qden q)).

(** [Fraction(f)] for a float: its exact value. *)
Definition frac_of_float (f : float) : res Q :=
  match Prim2SF f with
  | S754_zero _ => Ok (inject_Z 0)
  | S754_finite s m e =>
      Ok (Qred (Qmult (inject_Z (cond_Zopp s (Zpos m))) (Qpower (inject_Z 2) e)))
  | S754_infinity _ => Raise OverflowError
  | S754_nan => Raise ValueError
  end.

Inductive value : Set :=
| VInt (z : Z)
| VFloat (f : float)
| VFrac (q : Q)
| VFractionType.

Definition int_op (o : binop) (a b : Z) : res value :=
  match o with
  | Add => Ok (VInt (a + b))
  | Sub => Ok (VInt (a - b))
  | Mul => Ok (VInt (a * b))
  | Div => f <- int_true_div a b ;; Ok (VFloat f)
  end.

Definition float_op (o : binop) (f g : float) : res value :=
  match o with
  | Add => Ok (VFloat (PrimFloat.add f g))
  | Sub => Ok (VFloat (PrimFloat.sub f g))
  | Mul => Ok (VFloat (PrimFloat.mul f g))
  | Div =>
      if is_zero g then Raise ZeroDivisionError
      else Ok (VFloat (PrimFloat.div f g))
  end.

Definition frac_op (o : binop) (p q : Q) : res value :=
  match o with
  | Add => Ok (VFrac (Qred (Qplus p q)))
  | Sub => Ok (VFrac (Qred (Qminus p q)))
  | Mul => Ok (VFrac (Qred (Qmult p q)))
  | Div =>
      if Qnum q =? 0 then Raise ZeroDivisionError
      else Ok (VFrac (Qred (Qdiv p q)))
  end.

(** Binary arithmetic with Python's coercions: int with float gives
    float, int with Fraction gives Fraction, Fraction with float gives
    float. *)
Definition arith (o : binop) (x y : value) : res value :=
  match x, y with
  | VInt a, VInt b => int_op o a b
  | VInt a, VFloat g => f <- float_of_int a ;; float_op o f g
  | VFloat f, VInt b => g <- float_of_int b ;; float_op o f g
  | VFloat f, VFloat g => float_op o f g
  | VFrac p, VFrac q => frac_op o p q
  | VFrac p, VInt b => frac_op o p (inject_Z b)
  | VInt a, VFrac q => frac_op o (inject_Z a) q
  | VFrac p, VFloat g => f <- float_of_frac p ;; float_op o f g
  | VFloat f, VFrac q => g <- float_of_frac q ;; float_op o f g
  | _, _ => Raise TypeError
  end.

Definition unary (u : unop) (x : value) : res value :=
  match u, x with
  | _, VFractionType => Raise TypeError
  | UPos, _ => Ok x
  | UNeg, VInt a => Ok (VInt (- a))
  | UNeg, VFloat f => Ok (VFloat (PrimFloat.opp f))
  | UNeg, VFrac q => Ok (VFrac (Qred (Qopp q)))
  end.

(** Calling a value: only the [Fraction] type is callable. *)
Definition call (f : value) (arg : option value) : res value :=
  match f with
  | VFractionType =>
      match arg with
      | None => Ok (VFrac (inject_Z 0))
      | Some (VInt z) => Ok (VFrac (inject_Z z))
      | Some (VFrac q) => Ok (VFrac q)
      | Some (VFloat x) => q <- frac_of_float x ;; Ok (VFrac q)
      | Some VFractionType => Raise TypeError
      end
  | _ => Raise TypeError
  end.

(** [float(v)]. *)
Definition py_float (v : value) : res float :=
  match v with
  | VInt z => float_of_int z
  | VFloat f => Ok f
  | VFrac q => float_of_frac q
  | VFractionType => Raise TypeError
  end.

(** ** Evaluation *)

Definition env : Set := list (string * value).

Fixpoint lookup {V : Type} (k : string) (d : list (string * V)) : option V :=
  match d with
  | [] => None
  | (k', v) :: d' => if (k' =? k)%string then Some v else lookup k d'
  end.

Fixpoint eval_expr (globals : env) (e : expr) : res value :=
  match e with
  | ENum z => Ok (VInt z)
  | EName s =>
      match lookup s globals with
      | Some v => Ok v
      | None => Raise NameError
      end
  | EUn u e1 => x <- eval_expr globals e1 ;; unary u x
  | EBin o l r =>
      x <- eval_expr globals l ;;
      y <- eval_expr globals r ;;
      arith o x y
  | ECall f a =>
      fv <- eval_expr globals f ;;
      av <- eval_expr globals a ;;
      call fv (Some av)
  | ECallEmpty f => fv <- eval_expr globals f ;; call fv None
  end.

(** [eval(source, globals)]: the whole source is parsed before anything
    is evaluated; operands are evaluated left to right. *)
Definition py_eval (source : string) (globals : env) : res value :=
  e <- parse source ;; eval_expr globals e.

(** ** [re.findall(r'\d+|[+\-*/()]', s)] and [str.isdigit] *)

Definition is_op_char (c : ascii) : bool :=
  ((c =? "+") || (c =? "-") || (c =? "*") || (c =? "/")
   || (c =? "(") || (c =? ")"))%char.

Definition flush_run (run : string) (ts : list string) : list string :=
  match run with
  | EmptyString => ts
  | _ => run :: ts
  end.

Fixpoint findall_from (run s : string) : list string :=
  match s with
  | EmptyString => flush_run run []
  | String c s' =>
      if is_digit c then findall_from (run ++ String c "")%string s'
      else
        flush_run run
          ((if is_op_char c then [String c ""] else []) ++ findall_from "" s')
  end.

Definition findall_tokens (s : string) : list string := findall_from "" s.

Fixpoint all_digits (s : string) : bool :=
  match s with
  | EmptyString => true
  | String c s' => is_digit c && all_digits s'
  end.

Definition isdigit (s : string) : bool :=
  match s with
  | EmptyString => false
  | _ => all_digits s
  end.

(** ** [itertools.permutations] and [itertools.product] *)

(** Every way to take one element out of a list, by position. *)
Fixpoint picks {A : Type} (l : list A) : list (A * list A) :=
  match l with
  | [] => []
  | x :: r => (x, r) :: map (fun yr => (fst yr, x :: snd yr)) (picks r)
  end.

Fixpoint permutations_of_length {A : Type} (n : nat) (l : list A)
    : list (list A) :=
  match n with
  | O => [[]]
  | S n' =>
      flat_map
        (fun xr => map (cons (fst xr)) (permutations_of_length n' (snd xr)))
        (picks l)
  end.

(** [itertools.permutations(l)]: all orderings of the positions of [l],
    in lexicographic order of positions; equal values at different
    positions are not merged. *)
Definition permutations {A : Type} (l : list A) : list (list A) :=
  permutations_of_length (List.length l) l.

(** [itertools.product(l, repeat=3)]. *)
Definition product3 {A : Type} (l : list A) : list (list A) :=
  flat_map (fun a => flat_map (fun b => map (fun c => [a; b; c]) l) l) l.

(** ** Sets of strings

    A [set] is represented by the sequence of [add] calls that built it.
    [list(s)] iterates in an order fixed by the hashes of the elements and
    the history of the table, which the language does not specify: an
    implementation of the iteration order is any function listing each
    element that was added exactly once. *)

Class SetOrder : Type := {
  set_list : list string -> list string;
  set_list_NoDup : forall adds, NoDup (set_list adds);
  set_list_In : forall adds x, In x (set_list adds) <-> In x adds
}.

End Py.

(** ** The game object *)

Module Game.
Import Py.

(** The fields of [self] set by [__init__].  Times are floats; the initial
    integer [0] of [start_time] and [total_time] is the float [0.0]. *)
Record game : Type := {
  target : Z;
  current_numbers : list Z;
  start_time : float;
  games_played : Z;
  games_solved : Z;
  total_time : float;
  best_time : float;
  difficulty : string;
  available_operators : list (string * list string);
  operator_symbols : list (string * string)
}.

Definition init : game := {|
  target := 24;
  current_numbers := [];
  start_time := 0%float;
  games_played := 0;
  games_solved := 0;
  total_time := 0%float;
  best_time := infinity;
  difficulty := "normal";
  available_operators :=
    [ ("easy", ["+"; "-"]);
      ("normal", ["+"; "-"; "*"; "/"]);
      ("hard", ["+"; "-"; "*"; "/"]);
      ("expert", ["+"; "-"; "*"; "/"]) ];
  operator_symbols :=
    [ ("+", "+"); ("-", "‚àí"); ("*", "√ó"); ("/", "√∑") ]
|}.

(** *** [has_trivial_solution] *)

Definition py_mod (a b : Z) : res Z :=
  if b =? 0 then Raise ZeroDivisionError else Ok (a mod b).

Definition py_floordiv (a b : Z) : res Z :=
  if b =? 0 then Raise ZeroDivisionError else Ok (a / b).

Definition mem (x : Z) (l : list Z) : bool := existsb (Z.eqb x) l.

Definition sum (l : list Z) : Z := fold_left Z.add l 0.

(** The [for num in numbers] loop over the remaining elements [rest]:
    [Ok true] when it returns [True], [Ok false] when it falls through. *)
Fixpoint trivial_loop (numbers rest : list Z) : res bool :=
  match rest with
  | [] => Ok false
  | num :: rest' =>
      m <- py_mod 24 num ;;
      if m =? 0 then
        q <- py_floordiv 24 num ;;
        if mem q numbers then Ok true else trivial_loop numbers rest'
      else trivial_loop numbers rest'
  end.

Definition has_trivial_solution (numbers : list Z) : res bool :=
  found <- trivial_loop numbers numbers ;;
  if found then Ok true
  else if sum numbers =? 24 then Ok true
  else Ok false.

(** *** [evaluate_with_fractions] and [evaluate_expression] *)

(** [Fraction('inf')]: the constructor takes rational literals only and
    raises [ValueError] on this one. *)
Definition Fraction_inf : res value := Raise ValueError.

Definition frac_token (token : string) : string :=
  if isdigit token then ("Fraction(" ++ token ++ ")")%string else token.

Definition evaluate_with_fractions (expression : string) : res value :=
  let tokens := findall_tokens expression in
  let frac_expr :=
    fold_left (fun acc token => (acc ++ frac_token token)%string) tokens "" in
  let allowed_names := [("Fraction", VFractionType)] in
  match py_eval frac_expr allowed_names with
  | Raise ZeroDivisionError => Fraction_inf
  | result => result
  end.

(** [allowed_names] of [evaluate_expression] binds [__builtins__] and
    [__name__] only, neither of them a number: no name is bound to a value
    of the arithmetic fragment. *)
Definition allowed_names : env := [].

Definition evaluate_expression (expression : string) : res float :=
  match
    (result <- py_eval expression allowed_names ;;
     if py_in "/" expression
     then v <- evaluate_with_fractions expression ;; py_float v
     else py_float result)
  with
  | Ok x => Ok x
  | Raise ZeroDivisionError => Ok infinity
  | Raise _ => Raise ValueError
  end.

(** *** [find_all_solutions] *)

Definition patterns : list string :=
  [ "({0} {4} {1}) {5} ({2} {6} {3})";
    "(({0} {4} {1}) {5} {2}) {6} {3}";
    "({0} {4} ({1} {5} {2})) {6} {3}";
    "{0} {4} (({1} {5} {2}) {6} {3})";
    "{0} {4} ({1} {5} ({2} {6} {3}))";
    "{0} {4} {1} {5} {2} {6} {3}" ].

(** [1e-10], the binary64 value nearest to it. *)
Definition epsilon : float := 0x1.b7cdfd9d7bdbbp-34%float.

(** The conversion to display format: each operator replaced by its
    symbol between spaces, in the order of [operator_symbols]. *)
Definition display (self : game) (expression : string) : string :=
  fold_left
    (fun display_expr os =>
       py_replace (fst os) (" " ++ snd os ++ " ")%string display_expr)
    self.(operator_symbols) expression.

(** One candidate: a permutation, an operator triple and a pattern. *)
Definition combination : Type := (list Z * list string * string)%type.

Definition expression_of (c : combination) : res string :=
  let '(num_perm, ops, pattern) := c in
  py_format pattern (map py_str num_perm ++ ops).

(** The body of the [try]: [Ok (Some d)] when the combination is kept and
    [d] is added, [Ok None] when the comparison fails, [Raise] when the
    body raises. *)
Definition try_combination (self : game) (c : combination)
    : res (option string) :=
  expression <- expression_of c ;;
  result <- evaluate_expression expression ;;
  t <- float_of_int self.(target) ;;
  if PrimFloat.ltb (PrimFloat.abs (PrimFloat.sub result t)) epsilon
  then Ok (Some (display self expression))
  else Ok None.

(** The three nested loops, outermost first. *)
Definition combinations (numbers : list Z) (operators : list string)
    : list combination :=
  flat_map
    (fun num_perm =>
       flat_map
         (fun ops => map (fun pattern => (num_perm, ops, pattern)) patterns)
         (product3 operators))
    (permutations numbers).

(** One iteration; [solutions] is the sequence of [add] calls so far and
    the bare [except] skips a combination whose body raised. *)
Definition visit (self : game) (solutions : list string) (c : combination)
    : list string :=
  match try_combination self c with
  | Ok (Some display_expr) => solutions ++ [display_expr]
  | Ok None => solutions
  | Raise _ => solutions
  end.

Definition find_all_solutions `{SetOrder} (self : game) (numbers : list Z)
    : res (list string) :=
  match lookup self.(difficulty) self.(available_operators) with
  | None => Raise KeyError
  | Some operators =>
      Ok (set_list (fold_left (visit self) (combinations numbers operators) []))
  end.

Definition has_solution `{SetOrder} (self : game) (numbers : list Z)
    : res bool :=
  solutions <- find_all_solutions self numbers ;;
  Ok (0 <? Z.of_nat (List.length solutions)).

(** *** State-changing methods *)

Definition set_difficulty (self : game) (level : string) : game * bool :=
  match lookup (py_lower level) self.(available_operators) with
  | Some _ =>
      ({| target := self.(target);
          current_numbers := self.(current_numbers);
          start_time := self.(start_time);
          games_played := self.(games_played);
          games_solved := self.(games_solved);
          total_time := self.(total_time);
          best_time := self.(best_time);
          difficulty := py_lower level;
          available_operators := self.(available_operators);
          operator_symbols := self.(operator_symbols) |}, true)
  | None => (self, false)
  end.

(** [start_new_game]; [numbers] is what [generate_numbers] drew and [now]
    the clock. *)
Definition start_new_game (self : game) (numbers : list Z) (now : float)
    : game :=
  {| target := self.(target);
     current_numbers := numbers;
     start_time := now;
     games_played := self.(games_played) + 1;
     games_solved := self.(games_solved);
     total_time := self.(total_time);
     best_time := self.(best_time);
     difficulty := self.(difficulty);
     available_operators := self.(available_operators);
     operator_symbols := self.(operator_symbols) |}.

(** [solve_puzzle]; [is_valid] is the verdict of [validate_expression] on
    the player's text and [now] the clock. *)
Definition solve_puzzle (self : game) (is_valid : bool) (now : float)
    : game * bool :=
  if is_valid then
    let elapsed_time := PrimFloat.sub now self.(start_time) in
    ({| target := self.(target);
        current_numbers := self.(current_numbers);
        start_time := self.(start_time);
        games_played := self.(games_played);
        games_solved := self.(games_solved) + 1;
        total_time := PrimFloat.add self.(total_time) elapsed_time;
        best_time :=
          if PrimFloat.ltb elapsed_time self.(best_time)
          then elapsed_time else self.(best_time);
        difficulty := self.(difficulty);
        available_operators := self.(available_operators);
        operator_symbols := self.(operator_symbols) |}, true)
  else (self, false).

(** The method calls that change [self]. *)
Inductive method_call : Type :=
| SetDifficulty (level : string)
| StartNewGame (numbers : list Z) (now : float)
| SolvePuzzle (is_valid : bool) (now : float).

Definition run_call (self : game) (m : method_call) : game :=
  match m with
  | SetDifficulty level => fst (set_difficulty self level)
  | StartNewGame numbers now => start_new_game self numbers now
  | SolvePuzzle is_valid now => fst (solve_puzzle self is_valid now)
  end.

Definition run_calls (ms : list method_call) : game :=
  fold_left run_call ms init.

End Game.

(** ** Reference notions used to state the properties *)

Module Spec.
Import Py Game.

(** Condition (a) of triviality for one operand: it divides 24 exactly
    and the quotient is among the operands. *)
Definition quotient_present (numbers : list Z) (num : Z) : bool :=
  (24 mod num =? 0) && mem (24 / num) numbers.

(** The four difficulty levels. *)
Definition levels : list string := ["easy"; "normal"; "hard"; "expert"].

(** What [__init__] fixes for the life of the game object. *)
Definition state_inv (g : game) : Prop :=
  In (difficulty g) levels /\
  available_operators g = available_operators init /\
  operator_symbols g = operator_symbols init /\
  target g = 24.

(** The display strings of the kept combinations, in the order in which
    the loops meet them, repetitions included. *)
Definition discovered (self : game) (numbers : list Z)
    (operators : list string) : list string :=
  flat_map
    (fun c =>
       match try_combination self c with
       | Ok (Some display_expr) => [display_expr]
       | _ => []
       end)
    (combinations numbers operators).

(** First-discovered order: each display string at its first occurrence. *)
Fixpoint first_seen (seen adds : list string) : list string :=
  match adds with
  | [] => []
  | x :: adds' =>
      if in_dec string_dec x seen then first_seen seen adds'
      else x :: first_seen (x :: seen) adds'
  end.

Definition first_discovered (self : game) (numbers : list Z)
    (operators : list string) : list string :=
  first_seen [] (discovered self numbers operators).

(** A set that iterates from the most recently added element back to the
    oldest: one admissible iteration order. *)
Definition newest_first (adds : list string) : list string :=
  rev (nodup string_dec adds).

#[export] Instance newest_first_order : SetOrder := {|
  set_list := newest_first;
  set_list_NoDup := fun adds => NoDup_rev (NoDup_nodup string_dec adds);
  set_list_In := fun adds x =>
    iff_trans (iff_sym (in_rev (nodup string_dec adds) x))
              (nodup_In string_dec adds x)
|}.

(** The game after [set_difficulty('easy')]. *)
Definition easy_game : game := fst (set_difficulty init "easy").

End Spec.


(** ** Expression trees of the six patterns *)

Module Shapes.
Import Py Game.

Definition op_str (o : binop) : string :=
  match o with
  | Add => "+"
  | Sub => "-"
  | Mul => "*"
  | Div => "/"
  end.

Definition op_token (o : binop) : token :=
  match o with
  | Add => TPlus
  | Sub => TMinus
  | Mul => TStar
  | Div => TSlash
  end.

Definition is_div (o : binop) : bool :=
  match o with
  | Div => true
  | _ => false
  end.

(** [*] and [/] bind tighter than [+] and [-]. *)
Definition tight (o : binop) : bool :=
  match o with
  | Mul | Div => true
  | Add | Sub => false
  end.

(** The five nestings of four operands [a b c d] under three operators,
    numbered as the patterns of the solver. *)
Definition nest1 (o0 o1 o2 : binop) (a b c d : expr) : expr :=
  EBin o1 (EBin o0 a b) (EBin o2 c d).

Definition nest2 (o0 o1 o2 : binop) (a b c d : expr) : expr :=
  EBin o2 (EBin o1 (EBin o0 a b) c) d.

Definition nest3 (o0 o1 o2 : binop) (a b c d : expr) : expr :=
  EBin o2 (EBin o0 a (EBin o1 b c)) d.

Definition nest4 (o0 o1 o2 : binop) (a b c d : expr) : expr :=
  EBin o0 a (EBin o2 (EBin o1 b c) d).

Definition nest5 (o0 o1 o2 : binop) (a b c d : expr) : expr :=
  EBin o0 a (EBin o1 b (EBin o2 c d)).

(** The nesting that operator precedence gives to [a o0 b o1 c o2 d]. *)
Definition ungrouped (o0 o1 o2 : binop) (a b c d : expr) : expr :=
  if tight o0 then
    if tight o1 || negb (tight o2)
    then nest2 o0 o1 o2 a b c d
    else nest1 o0 o1 o2 a b c d
  else if tight o1 then
    if tight o2
    then nest4 o0 o1 o2 a b c d
    else nest3 o0 o1 o2 a b c d
  else
    if tight o2
    then nest1 o0 o1 o2 a b c d
    else nest2 o0 o1 o2 a b c d.

(** The tree of the pattern at position [i] of [patterns]. *)
Definition tree_of (i : nat) (o0 o1 o2 : binop) (a b c d : Z) : expr :=
  let shape :=
    match i with
    | 0%nat => nest1
    | 1%nat => nest2
    | 2%nat => nest3
    | 3%nat => nest4
    | 4%nat => nest5
    | _ => ungrouped
    end in
  shape o0 o1 o2 (ENum a) (ENum b) (ENum c) (ENum d).

(** The text that the pattern at position [i] formats to. *)
Definition render (i : nat) (s0 s1 s2 s3 s4 s5 s6 : string) : string :=
  match i with
  | 0%nat =>
      "(" ++ s0 ++ " " ++ s4 ++ " " ++ s1 ++ ") " ++ s5
          ++ " (" ++ s2 ++ " " ++ s6 ++ " " ++ s3 ++ ")"
  | 1%nat =>
      "((" ++ s0 ++ " " ++ s4 ++ " " ++ s1 ++ ") " ++ s5 ++ " " ++ s2
           ++ ") " ++ s6 ++ " " ++ s3
  | 2%nat =>
      "(" ++ s0 ++ " " ++ s4 ++ " (" ++ s1 ++ " " ++ s5 ++ " " ++ s2
          ++ ")) " ++ s6 ++ " " ++ s3
  | 3%nat =>
      s0 ++ " " ++ s4 ++ " ((" ++ s1 ++ " " ++ s5 ++ " " ++ s2 ++ ") "
         ++ s6 ++ " " ++ s3 ++ ")"
  | 4%nat =>
      s0 ++ " " ++ s4 ++ " (" ++ s1 ++ " " ++ s5 ++ " (" ++ s2 ++ " "
         ++ s6 ++ " " ++ s3 ++ "))"
  | _ =>
      s0 ++ " " ++ s4 ++ " " ++ s1 ++ " " ++ s5 ++ " " ++ s2 ++ " "
         ++ s6 ++ " " ++ s3
  end%string.

(** The expression of operands [a b c d] and operators [o0 o1 o2] under
    pattern [i]. *)
Definition expression (i : nat) (o0 o1 o2 : binop) (a b c d : Z) : string :=
  render i (py_str a) (py_str b) (py_str c) (py_str d)
         (op_str o0) (op_str o1) (op_str o2).

(** Every integer literal wrapped in a call of [Fraction]. *)
Fixpoint fractionize (e : expr) : expr :=
  match e with
  | ENum z => ECall (EName "Fraction") (ENum z)
  | EName s => EName s
  | EUn u e1 => EUn u (fractionize e1)
  | EBin o l r => EBin o (fractionize l) (fractionize r)
  | ECall f a => ECall (fractionize f) (fractionize a)
  | ECallEmpty f => ECallEmpty (fractionize f)
  end.

Definition fraction_names : env := [("Fraction", VFractionType)].

(** Evaluating the expression with every literal a [Fraction], as
    [evaluate_with_fractions] does, divides by zero at some step. *)
Definition divides_by_zero (expression : string) : Prop :=
  exists e,
    parse expression = Ok e /\
    eval_expr fraction_names (fractionize e) = Raise ZeroDivisionError.

(** [evaluate_with_fractions] and [evaluate_expression] on the tree of
    the expression; [with_div] tells whether the text contains [/]. *)
Definition evaluate_tree_with_fractions (e : expr) : res value :=
  match eval_expr fraction_names (fractionize e) with
  | Raise ZeroDivisionError => Fraction_inf
  | result => result
  end.

Definition evaluate_tree (with_div : bool) (e : expr) : res float :=
  match
    (result <- eval_expr allowed_names e ;;
     if with_div
     then v <- evaluate_tree_with_fractions e ;; py_float v
     else py_float result)
  with
  | Ok x => Ok x
  | Raise ZeroDivisionError => Ok infinity
  | Raise _ => Raise ValueError
  end.

(** Digit accumulation along a decimal numeral, as the lexer does it. *)
Fixpoint acc_uint (v : Z) (d : Decimal.uint) : Z :=
  match d with
  | Decimal.Nil => v
  | Decimal.D0 d' => acc_uint (10 * v + 0) d'
  | Decimal.D1 d' => acc_uint (10 * v + 1) d'
  | Decimal.D2 d' => acc_uint (10 * v + 2) d'
  | Decimal.D3 d' => acc_uint (10 * v + 3) d'
  | Decimal.D4 d' => acc_uint (10 * v + 4) d'
  | Decimal.D5 d' => acc_uint (10 * v + 5) d'
  | Decimal.D6 d' => acc_uint (10 * v + 6) d'
  | Decimal.D7 d' => acc_uint (10 * v + 7) d'
  | Decimal.D8 d' => acc_uint (10 * v + 8) d'
  | Decimal.D9 d' => acc_uint (10 * v + 9) d'
  end.

(** The text is empty or starts with a character that ends a number. *)
Definition sep_start (s : string) : bool :=
  match s with
  | EmptyString => true
  | String c _ => negb (is_digit c) && negb (is_name_start c)
  end.

(** The tokens of the expression under pattern [i]. *)
Definition pattern_tokens (i : nat) (o0 o1 o2 : binop) (a b c d : Z)
    : list token :=
  let '(A, B, C, D) := (TNum a, TNum b, TNum c, TNum d) in
  let '(p, q, r) := (op_token o0, op_token o1, op_token o2) in
  match i with
  | 0%nat => [TLParen; A; p; B; TRParen; q; TLParen; C; r; D; TRParen]
  | 1%nat => [TLParen; TLParen; A; p; B; TRParen; q; C; TRParen; r; D]
  | 2%nat => [TLParen; A; p; TLParen; B; q; C; TRParen; TRParen; r; D]
  | 3%nat => [A; p; TLParen; TLParen; B; q; C; TRParen; r; D; TRParen]
  | 4%nat => [A; p; TLParen; B; q; TLParen; C; r; D; TRParen; TRParen]
  | _ => [A; p; B; q; C; r; D]
  end.

(** The text of a token of a pattern. *)
Definition word (t : token) : string :=
  match t with
  | TNum z => py_str z
  | TName s => s
  | TPlus => "+"
  | TMinus => "-"
  | TStar => "*"
  | TSlash => "/"
  | TLParen => "("
  | TRParen => ")"
  | TBad => ""
  end.

(** A token of a pattern: a non-negative literal, an operator or a
    parenthesis. *)
Definition simple_token (t : token) : Prop :=
  match t with
  | TNum z => 0 <= z
  | TName _ | TBad => False
  | _ => True
  end.

(** The text that [evaluate_with_fractions] builds from its tokens. *)
Definition frac_text (words : list string) : string :=
  fold_right (fun w rest => (frac_token w ++ rest)%string) "" words.

(** The same tokens with every literal wrapped in a call of [Fraction]. *)
Definition wrap_fraction (t : token) : list token :=
  match t with
  | TNum z => [TName "Fraction"; TLParen; TNum z; TRParen]
  | _ => [t]
  end.

End Shapes.

(** ** Exact values of the expressions over the digits 1 to 9 *)

Module QOrder <: Orders.TotalLeBool.
Definition t : Type := Q.
Definition leb (p q : Q) : bool :=
  match Z.compare (Qnum p) (Qnum q) with
  | Lt => true
  | Gt => false
  | Eq => Pos.leb (Qden p) (Qden q)
  end.
Lemma leb_total : forall p q, leb p q = true \/ leb q p = true.
Proof.
  intros p q. unfold leb. rewrite (Z.compare_antisym (Qnum p) (Qnum q)).
  destruct (Z.compare (Qnum p) (Qnum q)); simpl; auto.
  rewrite !Pos.leb_le. lia.
Qed.
End QOrder.

Module QSort := Mergesort.Sort QOrder.

Module Exact.
Import Py Game Shapes.

(** [frac_op] without the [VFrac] wrapper. *)
Definition qop (o : binop) (p q : Q) : res Q :=
  match o with
  | Add => Ok (Qred (Qplus p q))
  | Sub => Ok (Qred (Qminus p q))
  | Mul => Ok (Qred (Qmult p q))
  | Div =>
      if Qnum q =? 0 then Raise ZeroDivisionError
      else Ok (Qred (Qdiv p q))
  end.

(** The value of an expression tree in exact rational arithmetic; a tree
    of a pattern has literals and binary operators only. *)
Fixpoint qeval (e : expr) : res Q :=
  match e with
  | ENum z => Ok (inject_Z z)
  | EBin o l r => x <- qeval l ;; y <- qeval r ;; qop o x y
  | _ => Raise TypeError
  end.

(** A tree of literals and binary operators, and one without division. *)
Fixpoint arithmetic (e : expr) : bool :=
  match e with
  | ENum _ => true
  | EBin _ l r => arithmetic l && arithmetic r
  | _ => false
  end.

Fixpoint division_free (e : expr) : bool :=
  match e with
  | ENum _ => true
  | EBin o l r => negb (is_div o) && division_free l && division_free r
  | _ => false
  end.

Definition q_eqb (p q : Q) : bool :=
  (Qnum p =? Qnum q) && Pos.eqb (Qden p) (Qden q).

(** Drop an element equal to its successor. *)
Fixpoint drop_repeats (l : list Q) : list Q :=
  match l with
  | [] => []
  | x :: r =>
      match r with
      | y :: _ => if q_eqb x y then drop_repeats r else x :: drop_repeats r
      | [] => [x]
      end
  end.

Definition distinct (l : list Q) : list Q := drop_repeats (QSort.sort l).

Definition digits : list Z := [1; 2; 3; 4; 5; 6; 7; 8; 9].

Definition all_ops : list binop := [Add; Sub; Mul; Div].

Definition oks (r : res Q) : list Q :=
  match r with
  | Ok q => [q]
  | Raise _ => []
  end.

(** The values of the expressions with one, two and three operands. *)
Definition values1 : list Q := map inject_Z digits.

Definition values2 : list Q :=
  distinct
    (flat_map
       (fun x =>
          flat_map (fun y => flat_map (fun o => oks (qop o x y)) all_ops)
                   values1)
       values1).

Definition values3 : list Q :=
  distinct
    (flat_map
       (fun v =>
          flat_map
            (fun z =>
               flat_map (fun o => oks (qop o v z) ++ oks (qop o z v)) all_ops)
            values1)
       values2).

(** The comparison of [find_all_solutions] against the target 24. *)
Definition near_target (result : float) : bool :=
  PrimFloat.ltb (PrimFloat.abs (PrimFloat.sub result 24%float)) epsilon.

Definition float_near_target (r : res float) : bool :=
  match r with
  | Ok result => near_target result
  | Raise _ => false
  end.

(** The comparison accepts the exact value [q], read as a [Fraction] or
    (when it is an integer) as an int, only when [q] is 24. *)
Definition exact_when_near (q : Q) : bool :=
  implb (float_near_target (float_of_frac q)) (q_eqb q (inject_Z 24))
  && implb (Pos.eqb (Qden q) 1 && float_near_target (float_of_int (Qnum q)))
           (Qnum q =? 24).

Definition exact_when_near_res (r : res Q) : bool :=
  match r with
  | Ok q => exact_when_near q
  | Raise _ => true
  end.

(** [f] holds of every triple drawn from three lists. *)
Definition forall3 {A B C : Type} (f : A -> B -> C -> bool)
    (la : list A) (lb : list B) (lc : list C) : bool :=
  forallb (fun a => forallb (fun b => forallb (fun c => f a b c) lc) lb) la.

(** All the values of four operands: two pairs, or one operand against
    three. *)
Definition pair_ok (v w : Q) (o : binop) : bool :=
  exact_when_near_res (qop o v w).

Definition triple_ok (u z : Q) (o : binop) : bool :=
  exact_when_near_res (qop o u z) && exact_when_near_res (qop o z u).

Definition check_pairs : bool := forall3 pair_ok values2 values2 all_ops.

Definition check_triples : bool := forall3 triple_ok values3 values1 all_ops.

(** The trees with one, two and three operands. *)
Definition leaves : list expr := map ENum digits.

Definition trees2 : list expr :=
  flat_map
    (fun x => flat_map (fun y => map (fun o => EBin o x y) all_ops) leaves)
    leaves.

Definition trees3 : list expr :=
  flat_map
    (fun t =>
       flat_map
         (fun z => flat_map (fun o => [EBin o t z; EBin o z t]) all_ops)
         leaves)
    trees2.

Definition zero_value (v : value) : bool :=
  match v with
  | VInt z => z =? 0
  | VFloat f => is_zero f
  | _ => false
  end.

Definition small_value (v : value) : bool :=
  match v with
  | VInt z => fits_double z
  | VFloat _ => true
  | _ => false
  end.

(** What the evaluation with floats keeps of the exact evaluation of a
    tree: it raises nothing but [ZeroDivisionError], it raises when the
    exact evaluation does, and it gives zero when the exact value is
    zero. *)
Definition float_follows_exact (e : expr) : bool :=
  match eval_expr allowed_names e with
  | Raise ZeroDivisionError => true
  | Raise _ => false
  | Ok v =>
      small_value v &&
      match qeval e with
      | Raise _ => false
      | Ok q => if Qnum q =? 0 then zero_value v else true
      end
  end.

Definition check_trees : bool :=
  forallb float_follows_exact (leaves ++ trees2 ++ trees3).

End Exact.
(** ** Drawing a puzzle and showing a solution *)

Module Play.
Import Py Game.

(** The [random] module as the game sees it: [randint k] is the result of
    the [k]-th call of [random.randint(1, 9)] and [choice] the position
    that [random.choice] picks. *)
Record random : Type := {
  randint : nat -> Z;
  choice : nat
}.

(** [[random.randint(1, 9) for _ in range(4)]], the [k]-th time the list
    is built. *)
Definition draw (rnd : random) (k : nat) : list Z :=
  map (fun j => randint rnd (4 * k + j)) [0; 1; 2; 3]%nat.

(** [random.choice(l)]; [IndexError] on an empty sequence. *)
Definition random_choice {A : Type} (rnd : random) (l : list A) : res A :=
  match nth_error l (choice rnd mod List.length l) with
  | Some x => Ok x
  | None => Raise IndexError
  end.

Definition known_puzzles : list (list Z) :=
  [ [1; 1; 8; 8];
    [1; 2; 3; 4];
    [2; 2; 6; 6];
    [1; 3; 4; 6];
    [2; 3; 4; 4];
    [3; 3; 8; 8];
    [1; 5; 5; 5];
    [2; 4; 6; 8] ].

(** The loop [while attempts < 50] with [remaining] iterations to go,
    the next list being draw number [k]; then the fallback. *)
Fixpoint attempts_loop `{SetOrder} (self : game) (rnd : random)
    (k remaining : nat) : res (list Z) :=
  match remaining with
  | O => random_choice rnd known_puzzles
  | S remaining' =>
      let numbers := draw rnd k in
      solvable <- has_solution self numbers ;;
      if solvable then Ok numbers
      else attempts_loop self rnd (S k) remaining'
  end.

(** The loop [while True] of expert mode, cut after [fuel] iterations:
    [None] when the loop is still running then. *)
Fixpoint expert_loop `{SetOrder} (fuel : nat) (self : game) (rnd : random)
    (k : nat) : option (res (list Z)) :=
  match fuel with
  | O => None
  | S fuel' =>
      let numbers := draw rnd k in
      match has_solution self numbers with
      | Raise e => Some (Raise e)
      | Ok false => expert_loop fuel' self rnd (S k)
      | Ok true =>
          match has_trivial_solution numbers with
          | Raise e => Some (Raise e)
          | Ok false => Some (Ok numbers)
          | Ok true => expert_loop fuel' self rnd (S k)
          end
      end
  end.

Definition generate_numbers `{SetOrder} (fuel : nat) (self : game)
    (rnd : random) : option (res (list Z)) :=
  if (difficulty self =? "expert")%string
  then expert_loop fuel self rnd 0
  else Some (attempts_loop self rnd 0 50).

Definition show_solution `{SetOrder} (self : game) : res string :=
  solutions <- find_all_solutions self (current_numbers self) ;;
  match solutions with
  | solution :: _ => Ok ("One solution: " ++ solution)%string
  | [] => Ok "No solution exists!"
  end.

(** [sep.join(l)]. *)
Fixpoint py_join (sep : string) (l : list string) : string :=
  match l with
  | [] => ""
  | x :: r =>
      match r with
      | [] => x
      | _ => (x ++ sep ++ py_join sep r)%string
      end
  end.

(** [sorted(l)] for strings: by code points, which is the order of the
    bytes in UTF-8. *)
Fixpoint insert_sorted (x : string) (l : list string) : list string :=
  match l with
  | [] => [x]
  | y :: r => if String.leb x y then x :: l else y :: insert_sorted x r
  end.

Definition py_sorted (l : list string) : list string :=
  fold_right insert_sorted [] l.

(** The characters of the class [[+\-√ó√∑]] of [get_hint], each as
    its bytes in UTF-8. *)
Definition hint_class : list string := ["+"; "-"; "√"; "ó"; "∑"].

(** [re.findall] of a character class on a text in UTF-8: the characters
    of the text that are in the class, left to right.  [skip] counts the
    bytes of a matched character still to pass; a character of the class
    starts at the first byte of a character of the text only. *)
Fixpoint findall_class (class : list string) (skip : nat) (s : string)
    : list string :=
  match s with
  | EmptyString => []
  | String _ s' =>
      match skip with
      | S k => findall_class class k s'
      | O =>
          match find (fun m => starts_with m s) class with
          | Some m => m :: findall_class class (String.length m - 1) s'
          | None => findall_class class O s'
          end
      end
  end.

Definition get_hint `{SetOrder} (self : game) : res string :=
  solutions <- find_all_solutions self (current_numbers self) ;;
  match solutions with
  | [] => Ok "No solution exists for these numbers!"
  | solution :: _ =>
      if (difficulty self =? "easy")%string then
        match lookup (difficulty self) (available_operators self) with
        | Some operators =>
            Ok ("Try using these operators: " ++ py_join ", " operators)%string
        | None => Raise KeyError
        end
      else if (difficulty self =? "normal")%string then
        if py_in "(" solution
        then Ok "Try using parentheses to group operations."
        else Ok "Try operations from left to right without parentheses."
      else
        let operators_used :=
          set_list (findall_class hint_class O solution) in
        Ok ("You'll need these operators: "
            ++ py_join ", " (py_sorted operators_used))%string
  end.

End Play.

(** ** Further notions used to state properties *)

Module Notions.
Import Py Game Shapes Exact.

(** The combination is kept by the solver. *)
Definition kept (self : game) (c : combination) : bool :=
  match try_combination self c with
  | Ok (Some _) => true
  | _ => false
  end.

(** The operator as the display format shows it. *)
Definition shown (o : binop) : string :=
  match o with
  | Add => " + "
  | Sub => " ‚àí "
  | Mul => " √ó "
  | Div => " √∑ "
  end.

(** The value read as a float is zero. *)
Definition float_zero (v : value) : bool :=
  match py_float v with
  | Ok f => is_zero f
  | Raise _ => false
  end.

(** What the exact evaluation keeps of the evaluation with floats of a
    tree: when the floats divide by zero so do the fractions, and when
    the float value is zero so is the exact one. *)
Definition exact_follows_float (e : expr) : bool :=
  match eval_expr allowed_names e, qeval e with
  | Raise ZeroDivisionError, Raise _ => true
  | Raise _, _ => false
  | Ok v, Ok q => implb (float_zero v) (Qnum q =? 0)
  | Ok _, Raise _ => false
  end.

(** Numerator and denominator are at most [B] in absolute value. *)
Definition within (B : Z) (q : Q) : Prop :=
  Z.abs (Qnum q) <= B /\ Zpos (Qden q) <= B.

(** A bound on the numerator and denominator of the exact value of a
    tree. *)
Fixpoint bound (e : expr) : Z :=
  match e with
  | ENum z => Z.max 1 (Z.abs z)
  | EBin _ l r => 2 * bound l * bound r
  | _ => 1
  end.

(** An exact solution of the puzzle among the expressions of the solver:
    pattern [i], the operands [a b c d] a rearrangement of the numbers,
    operators of the level, and the exact value 24. *)
Definition exact_solution (numbers : list Z) (operators : list string)
    (i : nat) (o0 o1 o2 : binop) (a b c d : Z) : Prop :=
  (i < 6)%nat /\
  Permutation [a; b; c; d] numbers /\
  In (op_str o0) operators /\
  In (op_str o1) operators /\
  In (op_str o2) operators /\
  qeval (tree_of i o0 o1 o2 a b c d) = Ok (inject_Z 24).

(** The numbers, in some order and with a sign on all but the first, sum
    to 24. *)
Definition signed_sum (numbers : list Z) : Prop :=
  exists a b c d s1 s2 s3,
    Permutation [a; b; c; d] numbers /\
    In s1 [1; -1] /\ In s2 [1; -1] /\ In s3 [1; -1] /\
    a + s1 * b + s2 * c + s3 * d = 24.

(** The characters of the class of [get_hint] that the display of an
    operator holds: none for the minus sign, two for the signs of
    multiplication and division. *)
Definition marks (o : binop) : list string :=
  match o with
  | Add => ["+"]
  | Sub => []
  | Mul => ["√"; "ó"]
  | Div => ["√"; "∑"]
  end.

(** The order of [sorted] on strings. *)
Definition leb_prop (x y : string) : Prop := String.leb x y = true.

(** How many of the calls start a game, and how many solve one. *)
Definition starts (m : method_call) : bool :=
  match m with
  | StartNewGame _ _ => true
  | _ => false
  end.

Definition solves (m : method_call) : bool :=
  match m with
  | SolvePuzzle true _ => true
  | _ => false
  end.

End Notions.
(** * Properties *)

Import Py Game Spec Shapes Exact.

(** ** [has_trivial_solution] *)

Lemma mem_In x l : mem x l = true <-> In x l.
Proof.
  unfold mem. rewrite existsb_exists. split.
  - intros [y [Hy Heq]]. apply Z.eqb_eq in Heq. now subst.
  - intros H. exists x. split; [assumption | apply Z.eqb_refl].
Qed.

Lemma trivial_loop_nonzero numbers rest :
  Forall (fun x => x <> 0) rest ->
  trivial_loop numbers rest = Ok (existsb (quotient_present numbers) rest).
Proof.
  induction 1 as [| num rest Hnum _ IH]; simpl; [reflexivity |].
  unfold py_mod, py_floordiv, quotient_present.
  apply Z.eqb_neq in Hnum. rewrite Hnum. simpl.
  destruct (24 mod num =? 0); simpl; [| exact IH].
  destruct (mem (24 / num) numbers); simpl; [reflexivity | exact IH].
Qed.

Lemma trivial_loop_zero numbers pre post :
  Forall (fun x => x <> 0) pre ->
  existsb (quotient_present numbers) pre = false ->
  trivial_loop numbers (pre ++ 0 :: post) = Raise ZeroDivisionError.
Proof.
  induction 1 as [| num pre Hnum _ IH]; simpl; [reflexivity |].
  intros Hq. apply orb_false_elim in Hq. destruct Hq as [Hq Hpre].
  unfold py_mod, py_floordiv. apply Z.eqb_neq in Hnum. rewrite Hnum. simpl.
  unfold quotient_present in Hq.
  destruct (24 mod num =? 0); simpl in *; [| now apply IH].
  rewrite Hq. now apply IH.
Qed.

Lemma trivial_loop_found numbers pre rest :
  Forall (fun x => x <> 0) pre ->
  existsb (quotient_present numbers) pre = true ->
  trivial_loop numbers (pre ++ rest) = Ok true.
Proof.
  induction 1 as [| num pre Hnum _ IH]; cbn [existsb app trivial_loop];
    [discriminate |].
  intros Hq. unfold py_mod, py_floordiv.
  apply Z.eqb_neq in Hnum. rewrite Hnum. cbn [bind].
  unfold quotient_present in Hq at 1.
  destruct (24 mod num =? 0); cbn [andb orb] in Hq; [| now apply IH].
  destruct (mem (24 / num) numbers); cbn [orb] in Hq;
    [reflexivity | now apply IH].
Qed.

Lemma first_zero (l : list Z) :
  Forall (fun x => x <> 0) l \/
  exists pre post, l = pre ++ 0 :: post /\ Forall (fun x => x <> 0) pre.
Proof.
  induction l as [| x l IH]; [left; constructor |].
  destruct (Z.eq_dec x 0) as [-> | Hx].
  - right. exists [], l. split; [reflexivity | constructor].
  - destruct IH as [Hl | (pre & post & -> & Hpre)].
    + left. now constructor.
    + right. exists (x :: pre), post. split; [reflexivity | now constructor].
Qed.

Lemma quotient_present_spec numbers num :
  quotient_present numbers num = true <->
  24 mod num = 0 /\ In (24 / num) numbers.
Proof.
  unfold quotient_present. rewrite andb_true_iff, Z.eqb_eq, mem_In. tauto.
Qed.

Lemma has_trivial_solution_nonzero numbers :
  Forall (fun x => x <> 0) numbers ->
  has_trivial_solution numbers =
  Ok (existsb (quotient_present numbers) numbers || (sum numbers =? 24)).
Proof.
  intros H. unfold has_trivial_solution.
  rewrite (trivial_loop_nonzero numbers H). simpl.
  destruct (existsb (quotient_present numbers) numbers); simpl; [reflexivity |].
  destruct (sum numbers =? 24); reflexivity.
Qed.

Lemma digits_nonzero numbers :
  (forall x, In x numbers -> 1 <= x <= 9) -> Forall (fun x => x <> 0) numbers.
Proof.
  intros H. apply Forall_forall. intros x Hx. specialize (H x Hx). lia.
Qed.

(** C3 (as the code has it): the classifier answers true on [3,3,8,8],
    because 3 divides 24 and the quotient 8 is an operand. *)
Lemma has_trivial_solution_3388 :
  has_trivial_solution [3; 3; 8; 8] <> Ok false.
Proof. vm_compute. discriminate. Qed.

(** C3, amended: the classifier answers true on [3,3,8,8] and on
    [1,2,3,18], and on every list of four nonzero integers whose sum
    is 24. *)
Theorem has_trivial_solution_examples :
  has_trivial_solution [3; 3; 8; 8] = Ok true /\
  has_trivial_solution [1; 2; 3; 18] = Ok true /\
  forall numbers,
    List.length numbers = 4%nat ->
    Forall (fun x => x <> 0) numbers ->
    sum numbers = 24 ->
    has_trivial_solution numbers = Ok true.
Proof.
  split; [reflexivity |]. split; [reflexivity |].
  intros numbers _ Hnz Hsum.
  rewrite (has_trivial_solution_nonzero Hnz).
  apply Z.eqb_eq in Hsum. rewrite Hsum. now rewrite orb_true_r.
Qed.

Lemma has_trivial_solution_examples_witness :
  has_trivial_solution [6; 6; 5; 7] = Ok true.
Proof.
  apply (proj2 (proj2 has_trivial_solution_examples) [6; 6; 5; 7]).
  - reflexivity.
  - repeat constructor; discriminate.
  - reflexivity.
Defined.

(** C4: on four operands between 1 and 9 the classifier returns a
    boolean, and it is true exactly when (a) some operand divides 24 and
    the quotient is an operand too, or (b) the operands sum to 24. *)
Theorem has_trivial_solution_iff numbers :
  List.length numbers = 4%nat ->
  (forall x, In x numbers -> 1 <= x <= 9) ->
  exists b,
    has_trivial_solution numbers = Ok b /\
    (b = true <->
     (exists num, In num numbers /\ 24 mod num = 0 /\ In (24 / num) numbers)
     \/ sum numbers = 24).
Proof.
  intros _ Hrange.
  rewrite (has_trivial_solution_nonzero (digits_nonzero numbers Hrange)).
  eexists. split; [reflexivity |].
  rewrite orb_true_iff, existsb_exists, Z.eqb_eq.
  split; (intros [[num [Hin Hq]] | Hsum]; [left | now right]);
    exists num; split; try assumption; now apply quotient_present_spec.
Qed.

Lemma has_trivial_solution_iff_witness :
  exists b,
    has_trivial_solution [4; 6; 1; 1] = Ok b /\
    (b = true <->
     (exists num, In num [4; 6; 1; 1] /\ 24 mod num = 0
                  /\ In (24 / num) [4; 6; 1; 1])
     \/ sum [4; 6; 1; 1] = 24).
Proof.
  apply (has_trivial_solution_iff [4; 6; 1; 1]).
  - reflexivity.
  - simpl. intros x [H | [H | [H | [H | []]]]]; subst; lia.
Defined.

(** C9 (as the code has it): with a zero among the operands the
    classifier can still return, when an earlier operand passes test (a). *)
Lemma has_trivial_solution_zero_returns :
  In 0 [3; 8; 0; 1] /\ has_trivial_solution [3; 8; 0; 1] = Ok true.
Proof. split; [simpl; tauto | reflexivity]. Qed.

(** C9, amended: the classifier raises [ZeroDivisionError] when its
    loop reaches a zero operand, that is when no operand before the first
    zero passes test (a); when an operand before the zero passes test (a)
    it returns true without reaching the zero, whatever follows; when
    every operand is nonzero it returns a boolean; and it raises nothing
    else, and only in the first case. *)
Theorem has_trivial_solution_zero numbers :
  (forall pre post,
     numbers = pre ++ 0 :: post ->
     Forall (fun x => x <> 0) pre ->
     existsb (quotient_present numbers) pre = false ->
     has_trivial_solution numbers = Raise ZeroDivisionError) /\
  (forall pre rest,
     numbers = pre ++ rest ->
     Forall (fun x => x <> 0) pre ->
     existsb (quotient_present numbers) pre = true ->
     has_trivial_solution numbers = Ok true) /\
  (Forall (fun x => x <> 0) numbers ->
   exists b, has_trivial_solution numbers = Ok b) /\
  (forall e,
     has_trivial_solution numbers = Raise e ->
     e = ZeroDivisionError /\
     exists pre post,
       numbers = pre ++ 0 :: post /\
       Forall (fun x => x <> 0) pre /\
       existsb (quotient_present numbers) pre = false).
Proof.
  assert (Hraise : forall pre post,
            numbers = pre ++ 0 :: post ->
            Forall (fun x => x <> 0) pre ->
            existsb (quotient_present numbers) pre = false ->
            has_trivial_solution numbers = Raise ZeroDivisionError).
  { intros pre post Heq Hpre Hq. unfold has_trivial_solution.
    rewrite Heq at 2. rewrite (trivial_loop_zero numbers post Hpre Hq).
    reflexivity. }
  assert (Hfound : forall pre rest,
            numbers = pre ++ rest ->
            Forall (fun x => x <> 0) pre ->
            existsb (quotient_present numbers) pre = true ->
            has_trivial_solution numbers = Ok true).
  { intros pre rest Heq Hpre Hq. unfold has_trivial_solution.
    rewrite Heq at 2. rewrite (@trivial_loop_found numbers pre rest Hpre Hq).
    reflexivity. }
  split; [exact Hraise |]. split; [exact Hfound |]. split.
  - intros H. rewrite (has_trivial_solution_nonzero H). eexists. reflexivity.
  - intros e He.
    destruct (first_zero numbers) as [Hnz | (pre & post & Heq & Hpre)].
    + rewrite (has_trivial_solution_nonzero Hnz) in He. discriminate He.
    + destruct (existsb (quotient_present numbers) pre) eqn:Hq.
      * rewrite (Hfound pre (0 :: post) Heq Hpre Hq) in He. discriminate He.
      * rewrite (Hraise pre post Heq Hpre Hq) in He.
        injection He as <-. split; [reflexivity |].
        now exists pre, post.
Qed.

Lemma has_trivial_solution_zero_witness :
  has_trivial_solution [5; 0; 3; 8] = Raise ZeroDivisionError /\
  has_trivial_solution [7; 4; 0; 6] = Ok true /\
  exists b, has_trivial_solution [5; 7; 3; 8] = Ok b.
Proof.
  split; [| split].
  - apply (proj1 (has_trivial_solution_zero [5; 0; 3; 8]) [5] [3; 8]).
    + reflexivity.
    + repeat constructor; discriminate.
    + reflexivity.
  - apply (proj1 (proj2 (has_trivial_solution_zero [7; 4; 0; 6]))
             [7; 4] [0; 6]).
    + reflexivity.
    + repeat constructor; discriminate.
    + reflexivity.
  - apply (proj1 (proj2 (proj2 (has_trivial_solution_zero [5; 7; 3; 8])))).
    repeat constructor; discriminate.
Defined.


(** ** [set_difficulty] and the difficulty field *)

Lemma lookup_levels s :
  (exists ops, lookup s (available_operators init) = Some ops) <-> In s levels.
Proof.
  unfold levels, init. cbn [available_operators lookup In].
  destruct (String.eqb_spec "easy" s) as [<- | H1]; [split; eauto |].
  destruct (String.eqb_spec "normal" s) as [<- | H2]; [split; eauto |].
  destruct (String.eqb_spec "hard" s) as [<- | H3]; [split; eauto |].
  destruct (String.eqb_spec "expert" s) as [<- | H4]; [split; eauto 6 |].
  split; [intros [ops Hops]; discriminate | tauto].
Qed.

Lemma lookup_levels_none s :
  ~ In s levels -> lookup s (available_operators init) = None.
Proof.
  intros H. destruct (lookup s (available_operators init)) eqn:E; [| reflexivity].
  exfalso. apply H. apply lookup_levels. eauto.
Qed.

Lemma state_inv_init : state_inv init.
Proof. unfold state_inv, levels. simpl. tauto. Qed.

Lemma state_inv_run_call g m : state_inv g -> state_inv (run_call g m).
Proof.
  intros (Hd & Ha & Hs & Ht). destruct m as [level | numbers now | is_valid now];
    simpl.
  - unfold set_difficulty. rewrite Ha.
    destruct (lookup (py_lower level) (available_operators init)) eqn:E;
      cbn [fst].
    + repeat split; try assumption. apply lookup_levels. eauto.
    + repeat split; assumption.
  - repeat split; assumption.
  - unfold solve_puzzle. destruct is_valid; simpl; repeat split; assumption.
Qed.

Lemma state_inv_fold ms :
  forall g, state_inv g -> state_inv (fold_left run_call ms g).
Proof.
  induction ms as [| m ms IH]; intros g Hg; simpl; [assumption |].
  apply IH. now apply state_inv_run_call.
Qed.

Lemma state_inv_run_calls ms : state_inv (run_calls ms).
Proof. apply state_inv_fold, state_inv_init. Qed.

Lemma state_inv_lookup g :
  state_inv g ->
  exists ops, lookup (difficulty g) (available_operators g) = Some ops.
Proof. intros (Hd & Ha & _). rewrite Ha. now apply lookup_levels. Qed.

(** C10: after [__init__] and any sequence of method calls the difficulty
    is one of the four levels and its operator lookup succeeds;
    [set_difficulty] stores the lowercased argument and returns true when
    that names a level, and otherwise returns false with the game
    unchanged. *)
Theorem difficulty_always_valid (ms : list method_call) (level : string) :
  let g := run_calls ms in
  In (difficulty g) levels /\
  (exists ops, lookup (difficulty g) (available_operators g) = Some ops) /\
  (In (py_lower level) levels ->
   let g' := fst (set_difficulty g level) in
   snd (set_difficulty g level) = true /\
   difficulty g' = py_lower level /\
   target g' = target g /\
   current_numbers g' = current_numbers g /\
   start_time g' = start_time g /\
   games_played g' = games_played g /\
   games_solved g' = games_solved g /\
   total_time g' = total_time g /\
   best_time g' = best_time g /\
   available_operators g' = available_operators g /\
   operator_symbols g' = operator_symbols g) /\
  (~ In (py_lower level) levels -> set_difficulty g level = (g, false)).
Proof.
  intros g. pose proof (state_inv_run_calls ms) as Hinv. fold g in Hinv.
  split; [apply Hinv |]. split; [now apply state_inv_lookup |].
  destruct Hinv as (_ & Ha & _). unfold set_difficulty. rewrite Ha. split.
  - intros Hin. apply lookup_levels in Hin. destruct Hin as [ops ->].
    cbn. repeat split.
  - intros Hnot. now rewrite (lookup_levels_none Hnot).
Qed.

Lemma difficulty_always_valid_witness :
  difficulty (fst (set_difficulty (run_calls [SetDifficulty "Hard"]) "EASY"))
  = "easy" /\
  set_difficulty (run_calls [SetDifficulty "Hard"]) "medium"
  = (run_calls [SetDifficulty "Hard"], false).
Proof.
  destruct (difficulty_always_valid [SetDifficulty "Hard"] "EASY")
    as (_ & _ & Hvalid & _).
  destruct (difficulty_always_valid [SetDifficulty "Hard"] "medium")
    as (_ & _ & _ & Hinvalid).
  split.
  - apply Hvalid. vm_compute. tauto.
  - apply Hinvalid. vm_compute.
    intros [H | [H | [H | [H | []]]]]; discriminate.
Defined.

(** ** The enumeration *)

Lemma length_flat_map_const {A B : Type} (f : A -> list B) (k : nat) l :
  (forall x, In x l -> List.length (f x) = k) ->
  List.length (flat_map f l) = (List.length l * k)%nat.
Proof.
  induction l as [| x l IH]; intros H; simpl; [reflexivity |].
  rewrite length_app, (H x (or_introl eq_refl)), IH; [reflexivity |].
  intros y Hy. apply H. now right.
Qed.

Lemma length_picks {A : Type} (l : list A) :
  List.length (picks l) = List.length l.
Proof.
  induction l as [| x l IH]; simpl; [reflexivity |].
  now rewrite length_map, IH.
Qed.

Lemma picks_rest_length {A : Type} (l : list A) x r :
  In (x, r) (picks l) -> S (List.length r) = List.length l.
Proof.
  revert x r. induction l as [| y l IH]; intros x r; simpl; [tauto |].
  intros [H | H].
  - now inversion H.
  - apply in_map_iff in H. destruct H as [[z r'] [Heq Hin]].
    inversion Heq; subst. simpl. f_equal. now apply (IH _ _ Hin).
Qed.

Lemma length_permutations_of_length {A : Type} n :
  forall l : list A,
    List.length l = n ->
    List.length (permutations_of_length n l) = fact n.
Proof.
  induction n as [| n IH]; intros l Hl; simpl; [reflexivity |].
  rewrite (@length_flat_map_const _ _ _ (fact n)).
  - rewrite length_picks, Hl. simpl. lia.
  - intros [x r] Hin. simpl. rewrite length_map. apply IH.
    apply picks_rest_length in Hin. lia.
Qed.

Lemma length_permutations {A : Type} (l : list A) :
  List.length (permutations l) = fact (List.length l).
Proof. now apply length_permutations_of_length. Qed.

Lemma length_product3 {A : Type} (l : list A) :
  List.length (product3 l)
  = (List.length l * List.length l * List.length l)%nat.
Proof.
  unfold product3.
  rewrite (@length_flat_map_const _ _ _ (List.length l * List.length l)%nat).
  - lia.
  - intros a _. rewrite (@length_flat_map_const _ _ _ (List.length l)).
    + reflexivity.
    + intros b _. apply length_map.
Qed.

Lemma length_combinations numbers operators :
  List.length (combinations numbers operators)
  = (fact (List.length numbers)
     * (List.length operators * List.length operators * List.length operators)
     * 6)%nat.
Proof.
  unfold combinations.
  rewrite (@length_flat_map_const _ _ _
             (List.length operators * List.length operators
              * List.length operators * 6)%nat).
  - rewrite length_permutations. lia.
  - intros num_perm _. rewrite (@length_flat_map_const _ _ _ 6%nat).
    + now rewrite length_product3.
    + intros ops _. now rewrite length_map.
Qed.

(** C7: for four operands the three loops meet 24 x |ops|^3 x 6
    combinations, that is 1152 in easy mode and 9216 in the other modes;
    the permutations are 24 also when operands repeat. *)
Theorem combinations_count (numbers : list Z) :
  List.length numbers = 4%nat ->
  List.length (permutations numbers) = 24%nat /\
  (forall operators,
     List.length (combinations numbers operators)
     = (24 * (List.length operators * List.length operators
              * List.length operators) * 6)%nat) /\
  (forall ms,
     exists operators,
       lookup (difficulty (run_calls ms)) (available_operators (run_calls ms))
       = Some operators /\
       Z.of_nat (List.length (combinations numbers operators))
       = if (difficulty (run_calls ms) =? "easy")%string
         then 1152 else 9216).
Proof.
  intros Hlen. split; [now rewrite length_permutations, Hlen |].
  split; [intros operators; now rewrite length_combinations, Hlen |].
  intros ms. destruct (state_inv_run_calls ms) as (Hd & Ha & _).
  rewrite Ha. unfold levels in Hd. simpl in Hd.
  destruct Hd as [Hd | [Hd | [Hd | [Hd | []]]]]; rewrite <- Hd;
    eexists; (split; [reflexivity |]);
    rewrite length_combinations, Hlen; reflexivity.
Qed.

Lemma combinations_count_witness :
  List.length (permutations [3; 3; 3; 3]) = 24%nat /\
  List.length (combinations [3; 3; 3; 3] ["+"; "-"]) = (24 * 8 * 6)%nat.
Proof.
  destruct (combinations_count [3; 3; 3; 3] eq_refl) as (Hperm & Hcount & _).
  split; [exact Hperm | exact (Hcount ["+"; "-"])].
Defined.

(** ** The solution set and its order *)

Lemma fold_visit_discovered self cs :
  forall acc,
    fold_left (visit self) cs acc
    = acc ++ flat_map
               (fun c =>
                  match try_combination self c with
                  | Ok (Some display_expr) => [display_expr]
                  | _ => []
                  end) cs.
Proof.
  induction cs as [| c cs IH]; intros acc; simpl.
  - now rewrite List.app_nil_r.
  - rewrite IH. unfold visit.
    destruct (try_combination self c) as [[d |] | e]; simpl;
      now rewrite <- ?List.app_assoc.
Qed.

Lemma find_all_solutions_discovered `{SetOrder} self numbers operators :
  lookup (difficulty self) (available_operators self) = Some operators ->
  find_all_solutions self numbers
  = Ok (set_list (discovered self numbers operators)).
Proof.
  intros Hops. unfold find_all_solutions. rewrite Hops.
  now rewrite fold_visit_discovered.
Qed.

Lemma first_seen_In adds :
  forall seen x,
    In x (first_seen seen adds) <-> In x adds /\ ~ In x seen.
Proof.
  induction adds as [| y adds IH]; intros seen x; simpl; [tauto |].
  destruct (in_dec string_dec y seen) as [Hy | Hy].
  - rewrite IH. split; [tauto |]. intros [[-> | Hx] Hn]; tauto.
  - simpl. rewrite IH. simpl. split.
    + intros [-> | [Hx Hn]]; tauto.
    + intros [[-> | Hx] Hn]; [now left |].
      destruct (string_dec y x) as [-> | Hne]; [now left | right; tauto].
Qed.

Lemma first_seen_NoDup adds : forall seen, NoDup (first_seen seen adds).
Proof.
  induction adds as [| y adds IH]; intros seen; simpl; [constructor |].
  destruct (in_dec string_dec y seen) as [Hy | Hy]; [apply IH |].
  constructor; [| apply IH].
  rewrite first_seen_In. simpl. tauto.
Qed.

(** C5 (as the code has it): the list returned is the iteration of a
    set, so it need not be in first-discovered order; here for easy mode
    on [9,9,3,3] under an iteration order that yields the newest element
    first. *)
Lemma find_all_solutions_order_not_first_discovered :
  @find_all_solutions newest_first_order easy_game [9; 9; 3; 3]
  <> Ok (first_discovered easy_game [9; 9; 3; 3] ["+"; "-"]).
Proof. vm_compute. discriminate. Qed.

(** C5, amended: whatever the iteration order of the set, the list
    returned has no repetition and is a rearrangement of the
    first-discovered list of the kept display strings; the result is a
    function of the inputs and of that order alone. *)
Theorem find_all_solutions_rearranges_first_discovered
    (order : SetOrder) (self : game) (numbers : list Z)
    (operators : list string) :
  lookup (difficulty self) (available_operators self) = Some operators ->
  exists solutions,
    find_all_solutions self numbers = Ok solutions /\
    NoDup solutions /\
    Permutation solutions (first_discovered self numbers operators).
Proof.
  intros Hops. rewrite (find_all_solutions_discovered _ _ Hops).
  eexists. split; [reflexivity |]. split; [apply set_list_NoDup |].
  apply NoDup_Permutation.
  - apply set_list_NoDup.
  - apply first_seen_NoDup.
  - intros x. rewrite set_list_In. unfold first_discovered.
    rewrite first_seen_In. simpl. tauto.
Qed.

Lemma find_all_solutions_rearranges_first_discovered_witness :
  exists solutions,
    @find_all_solutions newest_first_order easy_game [9; 9; 3; 3]
    = Ok solutions /\
    NoDup solutions /\
    Permutation solutions (first_discovered easy_game [9; 9; 3; 3] ["+"; "-"]).
Proof.
  apply (@find_all_solutions_rearranges_first_discovered
           newest_first_order easy_game [9; 9; 3; 3] ["+"; "-"]).
  reflexivity.
Defined.

(** ** From the text of an expression to its tree *)
Lemma append_nil_r s : (s ++ "")%string = s.
Proof. induction s as [| c s IH]; simpl; [reflexivity | now rewrite IH]. Qed.

Lemma append_assoc s t u : ((s ++ t) ++ u)%string = (s ++ (t ++ u))%string.
Proof. induction s as [| c s IH]; simpl; [reflexivity | now rewrite IH]. Qed.

(* --- numbers ---------------------------------------------------- *)
Lemma format_render_more i s0 s1 s2 s3 s4 s5 s6 more :
  (i < 6)%nat ->
  py_format (nth i patterns "") (s0 :: s1 :: s2 :: s3 :: s4 :: s5 :: s6 :: more)
  = Ok (render i s0 s1 s2 s3 s4 s5 s6).
Proof.
  intros Hi.
  do 6 (destruct i as [| i];
        [cbv -[String.append]; rewrite ?append_nil_r; reflexivity |]).
  lia.
Qed.

Lemma format_render i s0 s1 s2 s3 s4 s5 s6 :
  (i < 6)%nat ->
  py_format (nth i patterns "") [s0; s1; s2; s3; s4; s5; s6]
  = Ok (render i s0 s1 s2 s3 s4 s5 s6).
Proof. apply format_render_more. Qed.

Lemma lex_from_digits d : forall lz v s,
  lex_from (LNum lz v) (NilEmpty.string_of_uint d ++ s)%string
  = lex_from (LNum lz (acc_uint v d)) s.
Proof.
  induction d; intros lz v s; simpl; try apply IHd; reflexivity.
Qed.

Lemma acc_uint_pos d : forall acc,
  acc_uint (Zpos acc) d = Zpos (Pos.of_uint_acc d acc).
Proof.
  induction d; intros acc; cbn [acc_uint Pos.of_uint_acc]; try reflexivity;
    rewrite <- IHd; f_equal; lia.
Qed.

Lemma acc_uint_zero d : acc_uint 0 d = Z.of_N (Pos.of_uint d).
Proof.
  induction d; cbn [acc_uint Pos.of_uint Z.of_N Z.mul Z.add];
    try reflexivity; try assumption; now rewrite <- acc_uint_pos.
Qed.

Lemma nzhead_not_D0 d d' : Decimal.nzhead d <> Decimal.D0 d'.
Proof. induction d; simpl; try discriminate; assumption. Qed.

Lemma to_uint_not_D0 p d' : Pos.to_uint p <> Decimal.D0 d'.
Proof.
  intros H.
  pose proof (Unsigned.to_of (Pos.to_uint p)) as E.
  rewrite Unsigned.of_to in E. simpl in E. rewrite H in E.
  rewrite unorm_D0 in E. unfold Decimal.unorm in E.
  destruct (Decimal.nzhead d') eqn:En; try discriminate E.
  - injection E as E. subst d'.
    apply (Unsigned.to_uint_nonzero p). exact H.
  - now apply (@nzhead_not_D0 d' u).
Qed.

Lemma lex_from_number_end lz v s :
  lz && negb (v =? 0) = false ->
  sep_start s = true ->
  lex_from (LNum lz v) s = TNum v :: lex_from LStart s.
Proof.
  intros Hlz. destruct s as [| c s]; simpl; [now rewrite Hlz |].
  unfold is_digit. destruct (digit_val c); simpl; [discriminate |].
  destruct (is_name_start c); simpl; [discriminate | now rewrite Hlz].
Qed.

Lemma lex_from_py_str a s :
  0 <= a -> sep_start s = true ->
  lex_from LStart (py_str a ++ s)%string = TNum a :: lex_from LStart s.
Proof.
  intros Ha Hs. unfold py_str. destruct a as [| p | p]; [| | lia].
  - simpl. now apply lex_from_number_end.
  - simpl. unfold NilZero.string_of_uint.
    pose proof (@to_uint_not_D0 p) as Hnz.
    pose proof (Unsigned.of_to p) as Hval.
    pose proof (acc_uint_zero (Pos.to_uint p)) as Hacc.
    rewrite Hval in Hacc. simpl in Hacc.
    destruct (Pos.to_uint p) as [| d | d | d | d | d | d | d | d | d | d];
      try (exfalso; now apply (Hnz d));
      simpl in *; try discriminate Hacc;
      rewrite lex_from_digits, Hacc; now apply lex_from_number_end.
Qed.

Lemma all_digits_uint d : all_digits (NilEmpty.string_of_uint d) = true.
Proof. induction d; simpl; try reflexivity; assumption. Qed.

Lemma py_str_digits a : 0 <= a -> all_digits (py_str a) = true /\ py_str a <> "".
Proof.
  intros Ha. unfold py_str. destruct a as [| p | p]; [| | lia].
  - split; [reflexivity | discriminate].
  - simpl. unfold NilZero.string_of_uint.
    pose proof (Unsigned.to_uint_nonnil p) as Hnn.
    pose proof (all_digits_uint (Pos.to_uint p)) as Hall.
    destruct (Pos.to_uint p); try (now elim Hnn);
      (split; [exact Hall | discriminate]).
Qed.

Lemma findall_from_digits t : forall run s,
  all_digits t = true ->
  findall_from run (t ++ s)%string = findall_from (run ++ t)%string s.
Proof.
  induction t as [| c t IH]; intros run s H; simpl.
  - now rewrite append_nil_r.
  - simpl in H. apply andb_prop in H. destruct H as [Hc Ht].
    rewrite Hc, IH by assumption. now rewrite append_assoc.
Qed.

Lemma findall_from_run_end run s :
  run <> "" -> sep_start s = true ->
  findall_from run s = run :: findall_from "" s.
Proof.
  intros Hrun Hs. destruct s as [| c s]; simpl.
  - destruct run; [now elim Hrun | reflexivity].
  - simpl in Hs. apply andb_prop in Hs. destruct Hs as [Hc _].
    apply negb_true_iff in Hc. rewrite Hc.
    destruct run; [now elim Hrun | reflexivity].
Qed.

Lemma findall_from_py_str a s :
  0 <= a -> sep_start s = true ->
  findall_from "" (py_str a ++ s)%string = py_str a :: findall_from "" s.
Proof.
  intros Ha Hs. destruct (py_str_digits Ha) as [Hall Hne].
  rewrite findall_from_digits by assumption. simpl.
  now apply findall_from_run_end.
Qed.

Lemma frac_token_py_str a :
  0 <= a -> frac_token (py_str a) = ("Fraction(" ++ py_str a ++ ")")%string.
Proof.
  intros Ha. destruct (py_str_digits Ha) as [Hall Hne].
  unfold frac_token, isdigit. destruct (py_str a); [now elim Hne |].
  now rewrite Hall.
Qed.

Lemma digit_not_slash c : is_digit c = true -> (c =? "/")%char = false.
Proof.
  destruct c as [[] [] [] [] [] [] [] []]; try discriminate; reflexivity.
Qed.

Lemma py_in_slash_digits t s :
  all_digits t = true -> py_in "/" (t ++ s) = py_in "/" s.
Proof.
  induction t as [| c t IH]; intros H; [reflexivity |].
  simpl in H. apply andb_prop in H. destruct H as [Hc Ht].
  cbn [append py_in starts_with]. rewrite IH by assumption.
  rewrite Ascii.eqb_sym, (digit_not_slash c Hc). reflexivity.
Qed.

Lemma py_in_slash_py_str a s :
  0 <= a -> py_in "/" (py_str a ++ s) = py_in "/" s.
Proof. intros Ha. apply py_in_slash_digits. now apply py_str_digits. Qed.
Lemma lex_from_py_str_end a : 0 <= a -> lex_from LStart (py_str a) = [TNum a].
Proof.
  intros Ha. rewrite <- (append_nil_r (py_str a)).
  now rewrite lex_from_py_str.
Qed.

Lemma findall_from_py_str_end a :
  0 <= a -> findall_from "" (py_str a) = [py_str a].
Proof.
  intros Ha. rewrite <- (append_nil_r (py_str a)) at 1.
  now rewrite findall_from_py_str.
Qed.

Lemma py_in_slash_py_str_end a : 0 <= a -> py_in "/" (py_str a) = false.
Proof.
  intros Ha. rewrite <- (append_nil_r (py_str a)).
  now rewrite py_in_slash_py_str.
Qed.

Lemma lex_lparen s : lex_from LStart (String "(" s) = TLParen :: lex_from LStart s.
Proof. reflexivity. Qed.
Lemma lex_rparen s : lex_from LStart (String ")" s) = TRParen :: lex_from LStart s.
Proof. reflexivity. Qed.
Lemma lex_space s : lex_from LStart (String " " s) = lex_from LStart s.
Proof. reflexivity. Qed.
Lemma lex_op o s :
  lex_from LStart (op_str o ++ s)%string = op_token o :: lex_from LStart s.
Proof. destruct o; reflexivity. Qed.
Lemma lex_fraction s :
  lex_from LStart ("Fraction(" ++ s)%string
  = TName "Fraction" :: TLParen :: lex_from LStart s.
Proof. reflexivity. Qed.

Lemma findall_lparen s : findall_from "" (String "(" s) = "(" :: findall_from "" s.
Proof. reflexivity. Qed.
Lemma findall_rparen s : findall_from "" (String ")" s) = ")" :: findall_from "" s.
Proof. reflexivity. Qed.
Lemma findall_space s : findall_from "" (String " " s) = findall_from "" s.
Proof. reflexivity. Qed.
Lemma findall_op o s :
  findall_from "" (op_str o ++ s)%string = op_str o :: findall_from "" s.
Proof. destruct o; reflexivity. Qed.

Lemma py_in_lparen s : py_in "/" (String "(" s) = py_in "/" s.
Proof. reflexivity. Qed.
Lemma py_in_rparen s : py_in "/" (String ")" s) = py_in "/" s.
Proof. reflexivity. Qed.
Lemma py_in_space s : py_in "/" (String " " s) = py_in "/" s.
Proof. reflexivity. Qed.
Lemma py_in_op o s : py_in "/" (op_str o ++ s) = is_div o || py_in "/" s.
Proof. destruct o; reflexivity. Qed.

Ltac side := first [assumption | reflexivity].

Ltac lex_steps :=
  repeat first
    [ rewrite lex_lparen | rewrite lex_rparen | rewrite lex_space
    | rewrite lex_op
    | rewrite lex_from_py_str by side
    | rewrite lex_from_py_str_end by side ].

Ltac findall_steps :=
  repeat first
    [ rewrite findall_lparen | rewrite findall_rparen | rewrite findall_space
    | rewrite findall_op
    | rewrite findall_from_py_str by side
    | rewrite findall_from_py_str_end by side ].

Ltac py_in_steps :=
  repeat first
    [ rewrite py_in_lparen | rewrite py_in_rparen | rewrite py_in_space
    | rewrite py_in_op
    | rewrite py_in_slash_py_str by side
    | rewrite py_in_slash_py_str_end by side ].

Section Expression.
Variables (o0 o1 o2 : binop) (a b c d : Z).
Hypotheses (Ha : 0 <= a) (Hb : 0 <= b) (Hc : 0 <= c) (Hd : 0 <= d).

Lemma lex_expression i :
  (i < 6)%nat ->
  lex (expression i o0 o1 o2 a b c d) = pattern_tokens i o0 o1 o2 a b c d.
Proof.
  intros Hi. unfold lex, expression.
  do 6 (destruct i as [| i];
        [cbn [render append pattern_tokens]; lex_steps; reflexivity |]).
  lia.
Qed.

Lemma findall_expression i :
  (i < 6)%nat ->
  findall_tokens (expression i o0 o1 o2 a b c d)
  = map word (pattern_tokens i o0 o1 o2 a b c d).
Proof.
  intros Hi. unfold findall_tokens, expression.
  do 6 (destruct i as [| i];
        [cbn [render append pattern_tokens map word]; findall_steps;
         destruct o0, o1, o2; reflexivity |]).
  lia.
Qed.

Lemma py_in_expression i :
  (i < 6)%nat ->
  py_in "/" (expression i o0 o1 o2 a b c d)
  = is_div o0 || is_div o1 || is_div o2.
Proof.
  intros Hi. unfold expression.
  do 6 (destruct i as [| i];
        [cbn [render append]; py_in_steps;
         destruct (is_div o0), (is_div o1), (is_div o2); reflexivity |]).
  lia.
Qed.
End Expression.
Lemma parse_pattern_tokens i o0 o1 o2 a b c d :
  (i < 6)%nat ->
  parse_from (pattern_tokens i o0 o1 o2 a b c d) true [] []
  = Ok (tree_of i o0 o1 o2 a b c d).
Proof.
  intros Hi.
  do 6 (destruct i as [| i]; [destruct o0, o1, o2; reflexivity |]).
  lia.
Qed.

Lemma parse_wrapped_tokens i o0 o1 o2 a b c d :
  (i < 6)%nat ->
  parse_from (flat_map wrap_fraction (pattern_tokens i o0 o1 o2 a b c d))
             true [] []
  = Ok (fractionize (tree_of i o0 o1 o2 a b c d)).
Proof.
  intros Hi.
  do 6 (destruct i as [| i]; [destruct o0, o1, o2; reflexivity |]).
  lia.
Qed.

Lemma simple_pattern_tokens i o0 o1 o2 a b c d :
  0 <= a -> 0 <= b -> 0 <= c -> 0 <= d ->
  Forall simple_token (pattern_tokens i o0 o1 o2 a b c d).
Proof.
  intros Ha Hb Hc Hd.
  do 5 (destruct i as [| i];
        [destruct o0, o1, o2; repeat constructor; assumption |]).
  destruct o0, o1, o2; repeat constructor; assumption.
Qed.

Lemma lex_frac_text ts :
  Forall simple_token ts ->
  lex_from LStart (frac_text (map word ts)) = flat_map wrap_fraction ts.
Proof.
  induction 1 as [| t ts Ht _ IH]; [reflexivity |].
  cbn [map frac_text fold_right flat_map].
  fold (frac_text (map word ts)).
  destruct t; cbn [simple_token] in Ht; try contradiction;
    cbn [word wrap_fraction]; try (cbn; now rewrite IH).
  rewrite (frac_token_py_str Ht), !append_assoc, lex_fraction.
  rewrite lex_from_py_str by (assumption || reflexivity).
  cbn [append]. rewrite lex_rparen, IH. reflexivity.
Qed.

Lemma fold_left_frac_text words :
  forall init,
    fold_left (fun acc token => (acc ++ frac_token token)%string) words init
    = (init ++ frac_text words)%string.
Proof.
  induction words as [| w words IH]; intros init; cbn [fold_left frac_text fold_right].
  - now rewrite append_nil_r.
  - rewrite IH. now rewrite append_assoc.
Qed.

Section Evaluate.
Variables (i : nat) (o0 o1 o2 : binop) (a b c d : Z).
Hypotheses (Hi : (i < 6)%nat)
           (Ha : 0 <= a) (Hb : 0 <= b) (Hc : 0 <= c) (Hd : 0 <= d).

Lemma parse_expression :
  parse (expression i o0 o1 o2 a b c d) = Ok (tree_of i o0 o1 o2 a b c d).
Proof.
  unfold parse. fold (lex (expression i o0 o1 o2 a b c d)).
  rewrite lex_expression by assumption. now apply parse_pattern_tokens.
Qed.

Lemma evaluate_with_fractions_expression :
  evaluate_with_fractions (expression i o0 o1 o2 a b c d)
  = evaluate_tree_with_fractions (tree_of i o0 o1 o2 a b c d).
Proof.
  unfold evaluate_with_fractions, evaluate_tree_with_fractions, py_eval, parse, lex.
  rewrite findall_expression, fold_left_frac_text by assumption.
  cbn [append]. rewrite lex_frac_text by now apply simple_pattern_tokens.
  rewrite parse_wrapped_tokens by assumption. reflexivity.
Qed.

Lemma evaluate_expression_expression :
  evaluate_expression (expression i o0 o1 o2 a b c d)
  = evaluate_tree (is_div o0 || is_div o1 || is_div o2)
                  (tree_of i o0 o1 o2 a b c d).
Proof.
  unfold evaluate_expression, evaluate_tree, py_eval.
  rewrite parse_expression, py_in_expression by assumption.
  rewrite evaluate_with_fractions_expression. reflexivity.
Qed.
End Evaluate.

(** ** Exact values *)

Lemma bind_Ok {A B : Type} (m : res A) (k : A -> res B) b :
  bind m k = Ok b -> exists a, m = Ok a /\ k a = Ok b.
Proof. destruct m as [a | e]; simpl; [eauto | discriminate]. Qed.

Lemma q_eqb_eq p q : q_eqb p q = true -> p = q.
Proof.
  unfold q_eqb. intros H. apply andb_prop in H. destruct H as [Hn Hd].
  apply Z.eqb_eq in Hn. apply Pos.eqb_eq in Hd.
  destruct p, q; simpl in *. now subst.
Qed.

Lemma drop_repeats_In x l : In x l -> In x (drop_repeats l).
Proof.
  induction l as [| y l IH]; [tauto |].
  intros Hin. cbn [drop_repeats]. destruct l as [| z l].
  - exact Hin.
  - destruct (q_eqb y z) eqn:E.
    + apply IH. destruct Hin as [<- | Hin]; [| exact Hin].
      left. symmetry. now apply q_eqb_eq.
    + destruct Hin as [<- | Hin]; [now left | right; now apply IH].
Qed.

Lemma distinct_In x l : In x l -> In x (distinct l).
Proof.
  intros Hin. apply drop_repeats_In.
  apply (Permutation_in x (QSort.Permuted_sort l) Hin).
Qed.

Lemma all_ops_In o : In o all_ops.
Proof. destruct o; simpl; tauto. Qed.

Lemma oks_In q r : r = Ok q -> In q (oks r).
Proof. intros ->. now left. Qed.

Lemma values1_In x : In x digits -> In (inject_Z x) values1.
Proof. apply in_map. Qed.

Lemma values2_In x y o q :
  In x values1 -> In y values1 -> qop o x y = Ok q -> In q values2.
Proof.
  intros Hx Hy Hq. apply distinct_In.
  apply in_flat_map. exists x. split; [assumption |].
  apply in_flat_map. exists y. split; [assumption |].
  apply in_flat_map. exists o. split; [apply all_ops_In | now apply oks_In].
Qed.

Lemma values3_In v z o q :
  In v values2 -> In z values1 ->
  qop o v z = Ok q \/ qop o z v = Ok q -> In q values3.
Proof.
  intros Hv Hz Hq. apply distinct_In.
  apply in_flat_map. exists v. split; [assumption |].
  apply in_flat_map. exists z. split; [assumption |].
  apply in_flat_map. exists o. split; [apply all_ops_In |].
  apply in_or_app. destruct Hq as [Hq | Hq]; [left | right]; now apply oks_In.
Qed.

Lemma check_pairs_true : forall3 pair_ok values2 values2 all_ops = true.
Proof. vm_compute. reflexivity. Qed.

Lemma check_triples_true : forall3 triple_ok values3 values1 all_ops = true.
Proof. vm_compute. reflexivity. Qed.

Lemma forall3_true {A B C : Type} (f : A -> B -> C -> bool) la lb lc :
  forall3 f la lb lc = true ->
  forall a b c, In a la -> In b lb -> In c lc -> f a b c = true.
Proof.
  unfold forall3. intros H a b c Ha Hb Hc.
  rewrite forallb_forall in H. specialize (H a Ha).
  rewrite forallb_forall in H. specialize (H b Hb).
  rewrite forallb_forall in H. exact (H c Hc).
Qed.

Lemma pairs_exact v w o q :
  In v values2 -> In w values2 -> qop o v w = Ok q -> exact_when_near q = true.
Proof.
  intros Hv Hw Hq.
  pose proof (@forall3_true _ _ _ _ _ _ _ check_pairs_true
                v w o Hv Hw (all_ops_In o)) as H.
  unfold pair_ok in H. rewrite Hq in H. exact H.
Qed.

Lemma triples_exact u z o q :
  In u values3 -> In z values1 ->
  qop o u z = Ok q \/ qop o z u = Ok q -> exact_when_near q = true.
Proof.
  intros Hu Hz Hq.
  pose proof (@forall3_true _ _ _ _ _ _ _ check_triples_true
                u z o Hu Hz (all_ops_In o)) as H.
  unfold triple_ok in H. apply andb_prop in H. destruct H as [H1 H2].
  destruct Hq as [Hq | Hq].
  - rewrite Hq in H1. exact H1.
  - rewrite Hq in H2. exact H2.
Qed.

Section FourDigits.
Variables (o0 o1 o2 : binop) (a b c d : Z).
Hypotheses (Ha : In a digits) (Hb : In b digits)
           (Hc : In c digits) (Hd : In d digits).

Let A := ENum a.
Let B := ENum b.
Let C := ENum c.
Let D := ENum d.

Ltac invert_qeval H :=
  unfold nest1, nest2, nest3, nest4, nest5, A, B, C, D in H;
  cbn [qeval bind] in H;
  repeat match goal with
         | H' : bind _ _ = Ok _ |- _ =>
             let x := fresh "x" in
             let Hx := fresh "Hx" in
             apply bind_Ok in H'; destruct H' as [x [Hx H']];
             cbn [bind] in Hx, H'
         end.

Lemma In_values2 o x y q :
  In x digits -> In y digits ->
  qop o (inject_Z x) (inject_Z y) = Ok q -> In q values2.
Proof. intros Hx Hy. apply values2_In; now apply values1_In. Qed.

Lemma nest1_exact q :
  qeval (nest1 o0 o1 o2 A B C D) = Ok q -> exact_when_near q = true.
Proof.
  intros H. invert_qeval H.
  eapply pairs_exact; [| | exact H];
    (eapply In_values2; [| | eassumption]; assumption).
Qed.

Lemma nest2_exact q :
  qeval (nest2 o0 o1 o2 A B C D) = Ok q -> exact_when_near q = true.
Proof.
  intros H. invert_qeval H.
  eapply triples_exact; [| apply values1_In; exact Hd | left; exact H].
  eapply values3_In; [| apply values1_In; exact Hc | left; eassumption].
  (eapply In_values2; [| | eassumption]; assumption).
Qed.

Lemma nest3_exact q :
  qeval (nest3 o0 o1 o2 A B C D) = Ok q -> exact_when_near q = true.
Proof.
  intros H. invert_qeval H.
  eapply triples_exact; [| apply values1_In; exact Hd | left; exact H].
  eapply values3_In; [| apply values1_In; exact Ha | right; eassumption].
  (eapply In_values2; [| | eassumption]; assumption).
Qed.

Lemma nest4_exact q :
  qeval (nest4 o0 o1 o2 A B C D) = Ok q -> exact_when_near q = true.
Proof.
  intros H. invert_qeval H.
  eapply triples_exact; [| apply values1_In; exact Ha | right; exact H].
  eapply values3_In; [| apply values1_In; exact Hd | left; eassumption].
  (eapply In_values2; [| | eassumption]; assumption).
Qed.

Lemma nest5_exact q :
  qeval (nest5 o0 o1 o2 A B C D) = Ok q -> exact_when_near q = true.
Proof.
  intros H. invert_qeval H.
  eapply triples_exact; [| apply values1_In; exact Ha | right; exact H].
  eapply values3_In; [| apply values1_In; exact Hb | right; eassumption].
  (eapply In_values2; [| | eassumption]; assumption).
Qed.

Lemma tree_of_exact i q :
  qeval (tree_of i o0 o1 o2 a b c d) = Ok q -> exact_when_near q = true.
Proof.
  unfold tree_of. fold A B C D.
  destruct i as [| [| [| [| [| i]]]]];
    [apply nest1_exact | apply nest2_exact | apply nest3_exact
     | apply nest4_exact | apply nest5_exact |].
  unfold ungrouped.
  destruct (tight o0), (tight o1), (tight o2); cbn [orb negb];
    first [apply nest1_exact | apply nest2_exact | apply nest3_exact
          | apply nest4_exact].
Qed.
End FourDigits.

(** ** The evaluators on trees *)

Lemma frac_op_qop o p q :
  frac_op o p q = (r <- qop o p q ;; Ok (VFrac r)).
Proof.
  destruct o; cbn [frac_op qop bind]; try reflexivity.
  destruct (Qnum q =? 0); reflexivity.
Qed.

Lemma eval_fractionize e :
  arithmetic e = true ->
  eval_expr fraction_names (fractionize e) = (q <- qeval e ;; Ok (VFrac q)).
Proof.
  induction e as [z | s | u e IH | o l IHl r IHr | f IHf a IHa | f IHf];
    cbn [arithmetic]; intros H; try discriminate H.
  - reflexivity.
  - apply andb_prop in H. destruct H as [Hl Hr].
    cbn [fractionize eval_expr qeval]. rewrite (IHl Hl), (IHr Hr).
    destruct (qeval l) as [p | ex]; cbn [bind]; [| reflexivity].
    destruct (qeval r) as [q | ex]; cbn [bind]; [| reflexivity].
    cbn [arith]. apply frac_op_qop.
Qed.

Lemma Qred_inject_Z z : Qred (inject_Z z) = inject_Z z.
Proof.
  unfold Qred, inject_Z.
  pose proof (Z.ggcd_gcd z 1) as Hg.
  pose proof (Z.ggcd_correct_divisors z 1) as Hd.
  destruct (Z.ggcd z 1) as [g [aa bb]]. simpl in *.
  rewrite Z.gcd_1_r in Hg. subst g. destruct Hd as [Hz Hb].
  rewrite Z.mul_1_l in Hz, Hb. subst. reflexivity.
Qed.

Lemma qop_inject_Z o x y :
  is_div o = false ->
  exists z, int_op o x y = Ok (VInt z) /\
            qop o (inject_Z x) (inject_Z y) = Ok (inject_Z z).
Proof.
  intros Ho. destruct o; try discriminate Ho; cbn [int_op qop];
    eexists; (split; [reflexivity |]); f_equal.
  - rewrite <- inject_Z_plus. apply Qred_inject_Z.
  - change (x - y) with (x + - y). unfold Qminus.
    rewrite <- inject_Z_opp, <- inject_Z_plus. apply Qred_inject_Z.
  - rewrite <- inject_Z_mult. apply Qred_inject_Z.
Qed.

Lemma eval_division_free e :
  division_free e = true ->
  exists z, eval_expr allowed_names e = Ok (VInt z) /\
            qeval e = Ok (inject_Z z).
Proof.
  induction e as [z | s | u e IH | o l IHl r IHr | f IHf a IHa | f IHf];
    cbn [division_free]; intros H; try discriminate H.
  - exists z. split; reflexivity.
  - apply andb_prop in H. destruct H as [H Hr].
    apply andb_prop in H. destruct H as [Ho Hl].
    apply negb_true_iff in Ho.
    destruct (IHl Hl) as [x [Hx Hqx]]. destruct (IHr Hr) as [y [Hy Hqy]].
    destruct (@qop_inject_Z o x y Ho) as [z [Hz Hqz]].
    exists z. cbn [eval_expr qeval]. rewrite Hx, Hy, Hqx, Hqy. cbn [bind arith].
    split; assumption.
Qed.

Lemma arithmetic_tree_of i o0 o1 o2 a b c d :
  arithmetic (tree_of i o0 o1 o2 a b c d) = true.
Proof.
  destruct i as [| [| [| [| [| i]]]]]; try reflexivity.
  unfold tree_of, ungrouped.
  destruct (tight o0), (tight o1), (tight o2); reflexivity.
Qed.

Lemma division_free_tree_of i o0 o1 o2 a b c d :
  is_div o0 || is_div o1 || is_div o2 = false ->
  division_free (tree_of i o0 o1 o2 a b c d) = true.
Proof.
  intros H. apply orb_false_elim in H. destruct H as [H H2].
  apply orb_false_elim in H. destruct H as [H0 H1].
  destruct i as [| [| [| [| [| i]]]]];
    unfold tree_of, ungrouped, nest1, nest2, nest3, nest4, nest5;
    try (destruct (tight o0), (tight o1), (tight o2); cbn [orb negb]);
    cbn [division_free]; rewrite H0, H1, H2; reflexivity.
Qed.

Lemma float_of_int_target : float_of_int 24 = Ok 24%float.
Proof. reflexivity. Qed.

Lemma near_target_infinity : near_target infinity = false.
Proof. reflexivity. Qed.

(** A tree whose evaluation passes the comparison has the exact value
    24. *)
Lemma evaluate_tree_near_exact with_div e result :
  arithmetic e = true ->
  (with_div = false -> division_free e = true) ->
  (forall q, qeval e = Ok q -> exact_when_near q = true) ->
  evaluate_tree with_div e = Ok result ->
  near_target result = true ->
  evaluate_tree_with_fractions e = Ok (VFrac (inject_Z 24)).
Proof.
  intros Harith Hfree Hexact Heval Hnear.
  unfold evaluate_tree_with_fractions. rewrite (@eval_fractionize e Harith).
  unfold evaluate_tree in Heval.
  destruct with_div.
  - destruct (eval_expr allowed_names e) as [v0 | ex]; cbn [bind] in Heval.
    + unfold evaluate_tree_with_fractions in Heval.
      rewrite (@eval_fractionize e Harith) in Heval.
      destruct (qeval e) as [q | ex] eqn:Eq; cbn [bind] in *.
      * specialize (Hexact q eq_refl). unfold exact_when_near in Hexact.
        apply andb_prop in Hexact. destruct Hexact as [Hexact _].
        cbn [py_float] in Heval.
        destruct (float_of_frac q) as [f | ex] eqn:Ef.
        -- injection Heval as <-. cbn [float_near_target] in Hexact.
           rewrite Hnear in Hexact. cbn [implb] in Hexact.
           apply q_eqb_eq in Hexact. now subst q.
        -- destruct ex; try discriminate Heval.
           injection Heval as <-. now rewrite near_target_infinity in Hnear.
      * destruct ex; cbn [Fraction_inf bind] in Heval; discriminate Heval.
    + destruct ex; try discriminate Heval.
      injection Heval as <-. now rewrite near_target_infinity in Hnear.
  - destruct (@eval_division_free e (Hfree eq_refl)) as [z [Hz Hq]].
    rewrite Hz in Heval. cbn [bind py_float] in Heval. rewrite Hq. cbn [bind].
    specialize (Hexact _ Hq). unfold exact_when_near in Hexact.
    apply andb_prop in Hexact. destruct Hexact as [_ Hexact].
    cbn [inject_Z Qnum Qden] in Hexact. rewrite Pos.eqb_refl in Hexact.
    destruct (float_of_int z) as [f | ex] eqn:Ef.
    + injection Heval as <-. cbn [float_near_target andb] in Hexact.
      rewrite Hnear in Hexact. cbn [implb] in Hexact.
      apply Z.eqb_eq in Hexact. now subst z.
    + destruct ex; try discriminate Heval.
      injection Heval as <-. now rewrite near_target_infinity in Hnear.
Qed.

(** ** The combinations of the solver *)

Lemma picks_Permutation {A : Type} (l : list A) x r :
  In (x, r) (picks l) -> Permutation (x :: r) l.
Proof.
  revert x r. induction l as [| y l IH]; intros x r; simpl; [tauto |].
  intros [H | H].
  - inversion H; subst. reflexivity.
  - apply in_map_iff in H. destruct H as [[z r'] [Heq Hin]].
    inversion Heq; subst. simpl.
    rewrite perm_swap. constructor. now apply IH.
Qed.

Lemma permutations_of_length_Permutation {A : Type} n :
  forall (l p : list A),
    List.length l = n ->
    In p (permutations_of_length n l) -> Permutation p l.
Proof.
  induction n as [| n IH]; intros l p Hl; simpl.
  - intros [<- | []]. destruct l; [reflexivity | discriminate].
  - intros H. apply in_flat_map in H. destruct H as [[x r] [Hpick H]].
    apply in_map_iff in H. destruct H as [p' [<- Hp']].
    pose proof (@picks_Permutation _ _ _ _ Hpick) as Hperm.
    rewrite <- Hperm. constructor. apply IH; [| exact Hp'].
    apply Permutation_length in Hperm. simpl in Hperm. lia.
Qed.

Lemma permutations_Permutation {A : Type} (l p : list A) :
  In p (permutations l) -> Permutation p l.
Proof. now apply permutations_of_length_Permutation. Qed.

Lemma product3_In {A : Type} (l : list A) ops :
  In ops (product3 l) ->
  exists s0 s1 s2, ops = [s0; s1; s2] /\ In s0 l /\ In s1 l /\ In s2 l.
Proof.
  unfold product3. intros H.
  apply in_flat_map in H. destruct H as [s0 [H0 H]].
  apply in_flat_map in H. destruct H as [s1 [H1 H]].
  apply in_map_iff in H. destruct H as [s2 [<- H2]].
  exists s0, s1, s2. auto.
Qed.

Lemma combinations_In numbers operators c :
  In c (combinations numbers operators) ->
  exists num_perm ops pattern,
    c = (num_perm, ops, pattern) /\
    In num_perm (permutations numbers) /\
    In ops (product3 operators) /\
    In pattern patterns.
Proof.
  unfold combinations. intros H.
  apply in_flat_map in H. destruct H as [num_perm [Hperm H]].
  apply in_flat_map in H. destruct H as [ops [Hops H]].
  apply in_map_iff in H. destruct H as [pattern [<- Hpat]].
  exists num_perm, ops, pattern. auto.
Qed.

Lemma In_combinations numbers operators num_perm ops pattern :
  In num_perm (permutations numbers) ->
  In ops (product3 operators) ->
  In pattern patterns ->
  In (num_perm, ops, pattern) (combinations numbers operators).
Proof.
  intros Hperm Hops Hpat. unfold combinations.
  apply in_flat_map. exists num_perm. split; [assumption |].
  apply in_flat_map. exists ops. split; [assumption |].
  now apply in_map.
Qed.

Lemma patterns_In pattern :
  In pattern patterns -> exists i, (i < 6)%nat /\ pattern = nth i patterns "".
Proof.
  intros H. destruct (@In_nth _ _ _ "" H) as [i [Hi Heq]].
  exists i. split; [exact Hi | now symmetry].
Qed.

Lemma op_str_In s :
  In s ["+"; "-"; "*"; "/"] -> exists o, s = op_str o.
Proof.
  simpl. intros [<- | [<- | [<- | [<- | []]]]];
    [exists Add | exists Sub | exists Mul | exists Div]; reflexivity.
Qed.

Lemma state_inv_operators g operators s :
  state_inv g ->
  lookup (difficulty g) (available_operators g) = Some operators ->
  In s operators -> exists o, s = op_str o.
Proof.
  intros (Hd & Ha & _) Hops Hs. rewrite Ha in Hops. apply op_str_In.
  unfold levels in Hd. simpl in Hd.
  destruct Hd as [Hd | [Hd | [Hd | [Hd | []]]]]; rewrite <- Hd in Hops;
    injection Hops as <-; simpl in Hs |- *; tauto.
Qed.

Lemma digits_In x : 1 <= x <= 9 <-> In x digits.
Proof.
  unfold digits. simpl. split; [| intuition lia].
  intros H.
  assert (x = 1 \/ x = 2 \/ x = 3 \/ x = 4 \/ x = 5 \/ x = 6 \/ x = 7
          \/ x = 8 \/ x = 9) by lia.
  intuition auto.
Qed.

Lemma digits_nonneg x : In x digits -> 0 <= x.
Proof. intros H. apply digits_In in H. lia. Qed.

(** The shape of a combination over four operands: its expression is
    that of some pattern position, operators and operands. *)
Lemma combination_expression g numbers operators c :
  state_inv g ->
  lookup (difficulty g) (available_operators g) = Some operators ->
  List.length numbers = 4%nat ->
  In c (combinations numbers operators) ->
  exists i o0 o1 o2 x0 x1 x2 x3,
    (i < 6)%nat /\
    In x0 numbers /\ In x1 numbers /\ In x2 numbers /\ In x3 numbers /\
    c = ([x0; x1; x2; x3], [op_str o0; op_str o1; op_str o2],
         nth i patterns "").
Proof.
  intros Hinv Hops Hlen Hc.
  destruct (@combinations_In _ _ _ Hc)
    as (num_perm & ops & pattern & -> & Hperm & Hprod & Hpat).
  apply permutations_Permutation in Hperm.
  pose proof (Permutation_length Hperm) as Hl. rewrite Hlen in Hl.
  destruct num_perm as [| x0 [| x1 [| x2 [| x3 [| x4 rest]]]]];
    try discriminate Hl.
  destruct (@product3_In _ _ _ Hprod) as (s0 & s1 & s2 & -> & H0 & H1 & H2).
  destruct (@state_inv_operators _ _ _ Hinv Hops H0) as [o0 ->].
  destruct (@state_inv_operators _ _ _ Hinv Hops H1) as [o1 ->].
  destruct (@state_inv_operators _ _ _ Hinv Hops H2) as [o2 ->].
  destruct (@patterns_In _ Hpat) as (i & Hi & ->).
  exists i, o0, o1, o2, x0, x1, x2, x3.
  repeat split; try assumption;
    apply (Permutation_in _ Hperm); simpl; tauto.
Qed.

Lemma expression_of_combination i o0 o1 o2 a b c d :
  (i < 6)%nat ->
  expression_of ([a; b; c; d], [op_str o0; op_str o1; op_str o2],
                 nth i patterns "")
  = Ok (expression i o0 o1 o2 a b c d).
Proof. intros Hi. unfold expression_of. cbn [map app]. now apply format_render. Qed.

(** ** The comparison against the target *)

Lemma find_all_solutions_In `{SetOrder} self numbers operators solutions s :
  lookup (difficulty self) (available_operators self) = Some operators ->
  find_all_solutions self numbers = Ok solutions ->
  (In s solutions <->
   exists c, In c (combinations numbers operators) /\
             try_combination self c = Ok (Some s)).
Proof.
  intros Hops Hsol. rewrite (find_all_solutions_discovered _ _ Hops) in Hsol.
  injection Hsol as <-. rewrite set_list_In. unfold discovered.
  rewrite in_flat_map. split; intros [c [Hc Hs]]; exists c; (split; [assumption |]).
  - destruct (try_combination self c) as [[d |] | e]; simpl in Hs; try tauto.
    destruct Hs as [-> | []]. reflexivity.
  - rewrite Hs. now left.
Qed.

Lemma try_combination_kept self c display_expr :
  target self = 24 ->
  try_combination self c = Ok (Some display_expr) ->
  exists expression result,
    expression_of c = Ok expression /\
    evaluate_expression expression = Ok result /\
    near_target result = true.
Proof.
  intros Ht H. unfold try_combination in H. rewrite Ht in H.
  destruct (expression_of c) as [expression | e] eqn:Hexpr; [| discriminate H].
  cbn [bind] in H.
  destruct (evaluate_expression expression) as [result | e] eqn:Heval;
    [| discriminate H].
  cbn [bind] in H. rewrite float_of_int_target in H. cbn [bind] in H.
  exists expression, result. split; [reflexivity |]. split; [exact Heval |].
  unfold near_target.
  destruct (PrimFloat.ltb (PrimFloat.abs (PrimFloat.sub result 24)) epsilon);
    [reflexivity | discriminate H].
Qed.

(** C1 (as the code has it): the comparison is an epsilon test on
    floats, so with a large operand the solver keeps a combination whose
    exact value is not 24; here 24 + 1 * 1 / 100000000000. *)
Lemma kept_combination_not_exact :
  let numbers := [24; 1; 1; 100000000000] in
  let c := (numbers, ["+"; "*"; "/"], "{0} {4} (({1} {5} {2}) {6} {3})") in
  In c (combinations numbers ["+"; "-"; "*"; "/"]) /\
  expression_of c = Ok "24 + ((1 * 1) / 100000000000)" /\
  (exists display_expr, try_combination init c = Ok (Some display_expr)) /\
  evaluate_with_fractions "24 + ((1 * 1) / 100000000000)"
  = Ok (VFrac (2400000000001 # 100000000000)) /\
  ~ (2400000000001 # 100000000000 == inject_Z 24)%Q.
Proof.
  cbv zeta. split; [| split; [| split; [| split]]].
  - apply In_combinations.
    + cbv. left. reflexivity.
    + cbv. do 11 right. left. reflexivity.
    + cbv. do 3 right. left. reflexivity.
  - reflexivity.
  - eexists. vm_compute. reflexivity.
  - vm_compute. reflexivity.
  - unfold Qeq. simpl. discriminate.
Qed.

(** C1, amended: the comparison against the target is the float test
    [abs(result - 24) < 1e-10]; for four operands between 1 and 9 every
    combination that passes it has the exact rational value 24, and every
    string returned by the solver is the display of such a combination. *)
Theorem kept_combination_is_exact (ms : list method_call)
    (numbers : list Z) (operators : list string) :
  let self := run_calls ms in
  List.length numbers = 4%nat ->
  (forall x, In x numbers -> 1 <= x <= 9) ->
  lookup (difficulty self) (available_operators self) = Some operators ->
  (forall c display_expr,
     In c (combinations numbers operators) ->
     try_combination self c = Ok (Some display_expr) ->
     exists expression result,
       expression_of c = Ok expression /\
       evaluate_expression expression = Ok result /\
       near_target result = true /\
       evaluate_with_fractions expression = Ok (VFrac (inject_Z 24))) /\
  (forall (order : SetOrder) solutions s,
     find_all_solutions self numbers = Ok solutions ->
     In s solutions ->
     exists c, In c (combinations numbers operators) /\
               try_combination self c = Ok (Some s)).
Proof.
  intros self Hlen Hrange Hops.
  pose proof (state_inv_run_calls ms) as Hinv. fold self in Hinv.
  split.
  - intros c display_expr Hc Hkept.
    destruct (@combination_expression _ _ _ _ Hinv Hops Hlen Hc)
      as (i & o0 & o1 & o2 & x0 & x1 & x2 & x3
          & Hi & H0 & H1 & H2 & H3 & ->).
    apply Hrange, digits_In in H0, H1, H2, H3.
    destruct Hinv as (_ & _ & _ & Ht).
    destruct (@try_combination_kept _ _ _ Ht Hkept)
      as (expression & result & Hexpr & Heval & Hnear).
    rewrite (expression_of_combination o0 o1 o2 x0 x1 x2 x3 Hi) in Hexpr.
    injection Hexpr as <-.
    exists (expression i o0 o1 o2 x0 x1 x2 x3), result.
    split; [now apply expression_of_combination |].
    split; [exact Heval |]. split; [exact Hnear |].
    pose proof (@digits_nonneg _ H0). pose proof (@digits_nonneg _ H1).
    pose proof (@digits_nonneg _ H2). pose proof (@digits_nonneg _ H3).
    rewrite evaluate_with_fractions_expression by assumption.
    rewrite evaluate_expression_expression in Heval by assumption.
    eapply evaluate_tree_near_exact; [| | | exact Heval | exact Hnear].
    + apply arithmetic_tree_of.
    + apply division_free_tree_of.
    + intros q. now apply tree_of_exact.
  - intros order solutions s Hsol Hs.
    exact (proj1 (@find_all_solutions_In order _ _ _ _ s Hops Hsol) Hs).
Qed.

Lemma kept_combination_is_exact_witness :
  let numbers := [1; 3; 4; 6] in
  let operators := ["+"; "-"; "*"; "/"] in
  let c := ([6; 1; 3; 4], ["/"; "-"; "/"], "{0} {4} ({1} {5} ({2} {6} {3}))") in
  List.length numbers = 4%nat /\
  (forall x, In x numbers -> 1 <= x <= 9) /\
  In c (combinations numbers operators) /\
  (exists display_expr,
     try_combination (run_calls []) c = Ok (Some display_expr)) /\
  exists expression result,
    expression_of c = Ok expression /\
    evaluate_expression expression = Ok result /\
    near_target result = true /\
    evaluate_with_fractions expression = Ok (VFrac (inject_Z 24)).
Proof.
  cbv zeta.
  assert (Hrange : forall x, In x [1; 3; 4; 6] -> 1 <= x <= 9)
    by (simpl; intros x [H | [H | [H | [H | []]]]]; subst; lia).
  assert (Hc : In ([6; 1; 3; 4], ["/"; "-"; "/"],
                   "{0} {4} ({1} {5} ({2} {6} {3}))")
                  (combinations [1; 3; 4; 6] ["+"; "-"; "*"; "/"])).
  { apply In_combinations.
    - vm_compute. do 18 right. left. reflexivity.
    - vm_compute. do 55 right. left. reflexivity.
    - vm_compute. do 4 right. left. reflexivity. }
  destruct (try_combination (run_calls [])
              ([6; 1; 3; 4], ["/"; "-"; "/"],
               "{0} {4} ({1} {5} ({2} {6} {3}))")) as [[d |] | e] eqn:Hkept;
    [| vm_compute in Hkept; discriminate Hkept
     | vm_compute in Hkept; discriminate Hkept].
  split; [reflexivity |]. split; [exact Hrange |]. split; [exact Hc |].
  split; [exists d; reflexivity |].
  exact (proj1 (@kept_combination_is_exact [] [1; 3; 4; 6]
                  ["+"; "-"; "*"; "/"] eq_refl Hrange eq_refl) _ d Hc Hkept).
Defined.

(** ** The six patterns *)

(** C8 (as the code has it): the ungrouped pattern is evaluated under
    operator precedence, not left to right; 1 + 2 * 3 + 4 is 11, while
    the left-to-right nesting ((1 + 2) * 3) + 4 is 13. *)
Lemma ungrouped_not_left_to_right :
  expression_of ([1; 2; 3; 4], ["+"; "*"; "+"], nth 5 patterns "")
  = Ok "1 + 2 * 3 + 4" /\
  parse "1 + 2 * 3 + 4"
  = Ok (nest3 Add Mul Add (ENum 1) (ENum 2) (ENum 3) (ENum 4)) /\
  evaluate_expression "1 + 2 * 3 + 4" = Ok 11%float /\
  expression_of ([1; 2; 3; 4], ["+"; "*"; "+"], nth 1 patterns "")
  = Ok "((1 + 2) * 3) + 4" /\
  parse "((1 + 2) * 3) + 4"
  = Ok (nest2 Add Mul Add (ENum 1) (ENum 2) (ENum 3) (ENum 4)) /\
  evaluate_expression "((1 + 2) * 3) + 4" = Ok 13%float.
Proof. repeat split; vm_compute; reflexivity. Qed.

(** C8, amended: the solver has exactly six patterns; the first five
    parse to the five nestings of four operands, and the ungrouped sixth
    parses under operator precedence to one of the first four nestings
    (the left-to-right one when no [*] or [/] follows a [+] or [-]); no
    other nesting is evaluated. *)
Theorem patterns_nestings (o0 o1 o2 : binop) (a b c d : Z) :
  0 <= a -> 0 <= b -> 0 <= c -> 0 <= d ->
  let ops := [op_str o0; op_str o1; op_str o2] in
  let shape i := tree_of i o0 o1 o2 a b c d in
  let '(A, B, C, D) := (ENum a, ENum b, ENum c, ENum d) in
  List.length patterns = 6%nat /\
  (forall i, (i < 6)%nat ->
     exists expression,
       expression_of ([a; b; c; d], ops, nth i patterns "") = Ok expression /\
       parse expression = Ok (shape i)) /\
  shape 0%nat = EBin o1 (EBin o0 A B) (EBin o2 C D) /\
  shape 1%nat = EBin o2 (EBin o1 (EBin o0 A B) C) D /\
  shape 2%nat = EBin o2 (EBin o0 A (EBin o1 B C)) D /\
  shape 3%nat = EBin o0 A (EBin o2 (EBin o1 B C) D) /\
  shape 4%nat = EBin o0 A (EBin o1 B (EBin o2 C D)) /\
  In (shape 5%nat) [shape 0%nat; shape 1%nat; shape 2%nat; shape 3%nat] /\
  (tight o0 = true \/ tight o1 = false ->
   tight o1 = true \/ tight o2 = false ->
   shape 5%nat = shape 1%nat).
Proof.
  intros Ha Hb Hc Hd. cbv zeta.
  split; [reflexivity |]. split.
  - intros i Hi. exists (expression i o0 o1 o2 a b c d).
    split; [now apply expression_of_combination | now apply parse_expression].
  - repeat (split; [reflexivity |]). unfold tree_of, ungrouped. split.
    + destruct (tight o0), (tight o1), (tight o2); simpl; tauto.
    + intros [H0 | H1] [H1' | H2];
        destruct (tight o0), (tight o1), (tight o2);
        try discriminate; reflexivity.
Qed.

Lemma patterns_nestings_witness :
  exists expression,
    expression_of ([8; 3; 8; 3], ["/"; "-"; "/"], nth 3 patterns "")
    = Ok expression /\
    parse expression = Ok (tree_of 3 Div Sub Div 8 3 8 3).
Proof.
  apply (proj1 (proj2 (@patterns_nestings Div Sub Div 8 3 8 3
                         ltac:(lia) ltac:(lia) ltac:(lia) ltac:(lia)))).
  lia.
Defined.

(** ** Operand lists of the wrong length *)

Lemma format_short args pattern :
  (List.length args < 7)%nat ->
  In pattern patterns ->
  py_format pattern args = Raise IndexError.
Proof.
  intros Hlen Hpat.
  do 7 (destruct args as [| ? args];
        [simpl in Hpat;
         destruct Hpat as [<- | [<- | [<- | [<- | [<- | [<- | []]]]]]];
         reflexivity |]).
  simpl in Hlen. lia.
Qed.

Lemma parse_adjacent_numbers i x0 x4 s1 s2 s3 s5 s6 :
  (i < 6)%nat -> 0 <= x0 -> 0 <= x4 ->
  parse (render i (py_str x0) s1 s2 s3 (py_str x4) s5 s6) = Raise SyntaxError.
Proof.
  intros Hi H0 H4. unfold parse, lex.
  do 6 (destruct i as [| i];
        [cbn [render append]; lex_steps; reflexivity |]).
  lia.
Qed.

Lemma evaluate_expression_syntax_error expression :
  parse expression = Raise SyntaxError ->
  evaluate_expression expression = Raise ValueError.
Proof. intros H. unfold evaluate_expression, py_eval. now rewrite H. Qed.

Lemma try_combination_long self x0 x1 x2 x3 x4 rest ops pattern :
  0 <= x0 -> 0 <= x4 ->
  List.length ops = 3%nat ->
  In pattern patterns ->
  try_combination self (x0 :: x1 :: x2 :: x3 :: x4 :: rest, ops, pattern)
  = Raise ValueError.
Proof.
  intros H0 H4 Hops Hpat.
  destruct (@patterns_In _ Hpat) as (i & Hi & ->).
  destruct ops as [| s0 [| s1 [| s2 [| ? ?]]]]; try discriminate Hops.
  unfold try_combination, expression_of.
  assert (exists a5 a6 more,
             map py_str (x0 :: x1 :: x2 :: x3 :: x4 :: rest) ++ [s0; s1; s2]
             = py_str x0 :: py_str x1 :: py_str x2 :: py_str x3
               :: py_str x4 :: a5 :: a6 :: more) as (a5 & a6 & more & ->).
  { destruct rest as [| y [| z rest]]; cbn [map app]; eauto. }
  rewrite format_render_more by assumption. cbn [bind].
  rewrite evaluate_expression_syntax_error; [reflexivity |].
  now apply parse_adjacent_numbers.
Qed.

Lemma try_combination_short self num_perm ops pattern :
  (List.length num_perm < 4)%nat ->
  List.length ops = 3%nat ->
  In pattern patterns ->
  try_combination self (num_perm, ops, pattern) = Raise IndexError.
Proof.
  intros Hlen Hops Hpat. unfold try_combination, expression_of.
  rewrite format_short; [reflexivity | | assumption].
  rewrite length_app, length_map, Hops. lia.
Qed.

Lemma flat_map_nil {A B : Type} (f : A -> list B) l :
  (forall x, In x l -> f x = []) -> flat_map f l = [].
Proof.
  induction l as [| x l IH]; intros H; simpl; [reflexivity |].
  rewrite (H x (or_introl eq_refl)), IH; [reflexivity |].
  intros y Hy. apply H. now right.
Qed.

Lemma set_list_nil `{SetOrder} : set_list [] = [].
Proof.
  destruct (set_list []) as [| x l] eqn:E; [reflexivity |].
  exfalso. apply (proj1 (set_list_In [] x)). rewrite E. now left.
Qed.

Lemma discovered_wrong_length self numbers operators :
  List.length numbers <> 4%nat ->
  (forall x, In x numbers -> 0 <= x) ->
  discovered self numbers operators = [].
Proof.
  intros Hlen Hpos. unfold discovered. apply flat_map_nil. intros c Hc.
  destruct (@combinations_In _ _ _ Hc)
    as (num_perm & ops & pattern & -> & Hperm & Hprod & Hpat).
  apply permutations_Permutation in Hperm.
  pose proof (Permutation_length Hperm) as Hl.
  destruct (@product3_In _ _ _ Hprod) as (s0 & s1 & s2 & -> & _).
  destruct (Nat.lt_ge_cases (List.length num_perm) 4) as [Hshort | Hlong].
  - now rewrite try_combination_short.
  - destruct num_perm as [| x0 [| x1 [| x2 [| x3 [| x4 rest]]]]];
      try (simpl in Hlong; lia).
    + simpl in Hl. congruence.
    + rewrite try_combination_long; try reflexivity; try assumption;
        apply Hpos, (Permutation_in _ Hperm); simpl; tauto.
Qed.

(** C6 (as the code has it): an operand list of the wrong length raises
    nothing; the bare [except] swallows the [IndexError] of every
    combination and the solver returns the empty list. *)
Lemma find_all_solutions_three_operands :
  @find_all_solutions newest_first_order init [1; 2; 3] = Ok [].
Proof. vm_compute. reflexivity. Qed.

(** C6, amended: for a list of non-negative operands whose length is
    not four the solver signals no error and returns the empty list, and
    so it does on any operand list when the operator list of the current
    difficulty is empty; the only error it raises is the [KeyError] of a
    difficulty missing from the operator table. *)
Theorem find_all_solutions_wrong_input (order : SetOrder) (self : game)
    (numbers : list Z) :
  (forall operators,
     lookup (difficulty self) (available_operators self) = Some operators ->
     List.length numbers <> 4%nat ->
     (forall x, In x numbers -> 0 <= x) ->
     find_all_solutions self numbers = Ok []) /\
  (lookup (difficulty self) (available_operators self) = Some [] ->
   find_all_solutions self numbers = Ok []) /\
  (lookup (difficulty self) (available_operators self) = None ->
   find_all_solutions self numbers = Raise KeyError).
Proof.
  split; [| split].
  - intros operators Hops Hlen Hpos.
    rewrite (find_all_solutions_discovered _ _ Hops).
    rewrite discovered_wrong_length by assumption. now rewrite set_list_nil.
  - intros Hops. rewrite (find_all_solutions_discovered _ _ Hops).
    unfold discovered, combinations. cbn [product3 flat_map].
    rewrite (@flat_map_nil _ _ _ (permutations numbers)) by reflexivity.
    cbn [flat_map]. now rewrite set_list_nil.
  - intros Hops. unfold find_all_solutions. now rewrite Hops.
Qed.

Lemma find_all_solutions_wrong_input_witness :
  @find_all_solutions newest_first_order init [7; 7; 7; 1; 2] = Ok [].
Proof.
  apply (proj1 (@find_all_solutions_wrong_input
                  newest_first_order init [7; 7; 7; 1; 2])
               ["+"; "-"; "*"; "/"]).
  - reflexivity.
  - discriminate.
  - simpl. intros x [H | [H | [H | [H | [H | []]]]]]; subst; lia.
Defined.

(** ** Division by zero *)

Lemma check_trees_true :
  forallb float_follows_exact (leaves ++ trees2 ++ trees3) = true.
Proof. vm_compute. reflexivity. Qed.

Lemma float_follows_exact_In e :
  In e (leaves ++ trees2 ++ trees3) -> float_follows_exact e = true.
Proof.
  intros H. pose proof check_trees_true as Hall.
  rewrite forallb_forall in Hall. exact (Hall e H).
Qed.

Lemma leaves_In x : In x digits -> In (ENum x) (leaves ++ trees2 ++ trees3).
Proof. intros H. apply in_or_app. left. now apply in_map. Qed.

Lemma trees2_In o x y :
  In x digits -> In y digits -> In (EBin o (ENum x) (ENum y)) trees2.
Proof.
  intros Hx Hy. unfold trees2.
  apply in_flat_map. exists (ENum x). split; [now apply in_map |].
  apply in_flat_map. exists (ENum y). split; [now apply in_map |].
  apply (in_map (fun o' => EBin o' (ENum x) (ENum y))). apply all_ops_In.
Qed.

Lemma trees3_In o t z e :
  In t trees2 -> In z digits ->
  e = EBin o t (ENum z) \/ e = EBin o (ENum z) t -> In e trees3.
Proof.
  intros Ht Hz He. unfold trees3.
  apply in_flat_map. exists t. split; [assumption |].
  apply in_flat_map. exists (ENum z). split; [now apply in_map |].
  apply in_flat_map. exists o. split; [apply all_ops_In |].
  simpl. destruct He as [-> | ->]; tauto.
Qed.

Lemma qop_raises o p q ex :
  qop o p q = Raise ex -> o = Div /\ Qnum q = 0.
Proof.
  destruct o; cbn [qop]; try discriminate.
  destruct (Qnum q =? 0) eqn:E; [| discriminate].
  intros _. split; [reflexivity | now apply Z.eqb_eq].
Qed.

Lemma arith_div_zero x y :
  small_value x = true -> small_value y = true -> zero_value y = true ->
  arith Div x y = Raise ZeroDivisionError.
Proof.
  destruct x as [a | f | p |], y as [b | g | q |]; cbn [small_value zero_value];
    intros Hx Hy Hz; try discriminate; cbn [arith int_op float_op].
  - unfold int_true_div. now rewrite Hz.
  - unfold float_of_int. rewrite Hx. cbn [bind float_op]. now rewrite Hz.
  - apply Z.eqb_eq in Hz. subst b. reflexivity.
  - now rewrite Hz.
Qed.

(** When both operands follow their exact evaluation, a division by
    zero in the exact evaluation of [l o r] is a [ZeroDivisionError] in
    its evaluation with floats. *)
Lemma float_raises_with_exact o l r ex :
  float_follows_exact l = true ->
  float_follows_exact r = true ->
  qeval (EBin o l r) = Raise ex ->
  eval_expr allowed_names (EBin o l r) = Raise ZeroDivisionError.
Proof.
  unfold float_follows_exact. cbn [qeval eval_expr]. intros Hl Hr Hq.
  destruct (eval_expr allowed_names l) as [x | exl];
    [| destruct exl; try discriminate Hl; reflexivity].
  destruct (eval_expr allowed_names r) as [y | exr];
    [| destruct exr; try discriminate Hr; reflexivity].
  cbn [bind].
  apply andb_prop in Hl. destruct Hl as [Hsx Hl].
  apply andb_prop in Hr. destruct Hr as [Hsy Hr].
  destruct (qeval l) as [p | ?]; [| discriminate Hl].
  destruct (qeval r) as [q | ?]; [| discriminate Hr].
  cbn [bind] in Hq. apply qop_raises in Hq. destruct Hq as [-> Hzero].
  apply Z.eqb_eq in Hzero. rewrite Hzero in Hr.
  now apply arith_div_zero.
Qed.

Section ZeroDivision.
Variables (o0 o1 o2 : binop) (a b c d : Z).
Hypotheses (Ha : In a digits) (Hb : In b digits)
           (Hc : In c digits) (Hd : In d digits).

Ltac follows :=
  apply float_follows_exact_In;
  first
    [ now apply leaves_In
    | apply in_or_app; right; apply in_or_app; left; now apply trees2_In
    | apply in_or_app; right; apply in_or_app; right;
      eapply trees3_In;
      [ apply trees2_In | | first [left; reflexivity | right; reflexivity] ];
      assumption ].

Lemma tree_of_zero_division i ex :
  qeval (tree_of i o0 o1 o2 a b c d) = Raise ex ->
  eval_expr allowed_names (tree_of i o0 o1 o2 a b c d)
  = Raise ZeroDivisionError.
Proof.
  unfold tree_of.
  destruct i as [| [| [| [| [| i]]]]];
    [| | | | | unfold ungrouped;
               destruct (tight o0), (tight o1), (tight o2);
               cbn [orb negb]];
    unfold nest1, nest2, nest3, nest4, nest5;
    intros H; (eapply float_raises_with_exact; [| | exact H]); follows.
Qed.
End ZeroDivision.

Lemma evaluate_tree_zero_division with_div e :
  eval_expr allowed_names e = Raise ZeroDivisionError ->
  evaluate_tree with_div e = Ok infinity.
Proof. intros H. unfold evaluate_tree. now rewrite H. Qed.

Lemma visit_unchanged self solutions c :
  try_combination self c = Ok None -> visit self solutions c = solutions.
Proof. intros H. unfold visit. now rewrite H. Qed.

(** C2: for four operands between 1 and 9, a combination whose exact
    evaluation divides by zero evaluates to the float infinity without
    raising; it fails the comparison, so visiting it adds nothing, and
    the search goes on: the solver returns its list, which holds the
    display of every combination that passes the comparison. *)
Theorem zero_division_excluded (ms : list method_call) (numbers : list Z)
    (operators : list string) (c : combination) (expression : string) :
  let self := run_calls ms in
  List.length numbers = 4%nat ->
  (forall x, In x numbers -> 1 <= x <= 9) ->
  lookup (difficulty self) (available_operators self) = Some operators ->
  In c (combinations numbers operators) ->
  expression_of c = Ok expression ->
  divides_by_zero expression ->
  evaluate_expression expression = Ok infinity /\
  try_combination self c = Ok None /\
  (forall solutions, visit self solutions c = solutions) /\
  (forall order : SetOrder,
     exists solutions,
       find_all_solutions self numbers = Ok solutions /\
       forall c' s,
         In c' (combinations numbers operators) ->
         try_combination self c' = Ok (Some s) -> In s solutions).
Proof.
  intros self Hlen Hrange Hops Hc Hexpr [e [Hparse Hzero]].
  pose proof (state_inv_run_calls ms) as Hinv. fold self in Hinv.
  destruct (@combination_expression _ _ _ _ Hinv Hops Hlen Hc)
    as (i & o0 & o1 & o2 & x0 & x1 & x2 & x3
        & Hi & H0 & H1 & H2 & H3 & ->).
  apply Hrange, digits_In in H0, H1, H2, H3.
  pose proof (@digits_nonneg _ H0). pose proof (@digits_nonneg _ H1).
  pose proof (@digits_nonneg _ H2). pose proof (@digits_nonneg _ H3).
  rewrite (expression_of_combination o0 o1 o2 x0 x1 x2 x3 Hi) in Hexpr.
  injection Hexpr as <-.
  rewrite parse_expression in Hparse by assumption. injection Hparse as <-.
  rewrite (@eval_fractionize _ (arithmetic_tree_of i o0 o1 o2 x0 x1 x2 x3))
    in Hzero.
  destruct (qeval (tree_of i o0 o1 o2 x0 x1 x2 x3)) as [q | ex] eqn:Hq;
    [discriminate Hzero |].
  pose proof (@tree_of_zero_division o0 o1 o2 x0 x1 x2 x3 H0 H1 H2 H3 i ex Hq)
    as Hfloat.
  assert (evaluate_expression (Shapes.expression i o0 o1 o2 x0 x1 x2 x3)
          = Ok infinity) as Heval.
  { rewrite evaluate_expression_expression by assumption.
    now apply evaluate_tree_zero_division. }
  assert (try_combination self
            ([x0; x1; x2; x3], [op_str o0; op_str o1; op_str o2],
             nth i patterns "") = Ok None) as Htry.
  { unfold try_combination.
    rewrite (expression_of_combination o0 o1 o2 x0 x1 x2 x3 Hi).
    cbn [bind]. rewrite Heval. cbn [bind].
    destruct Hinv as (_ & _ & _ & ->). reflexivity. }
  split; [exact Heval |]. split; [exact Htry |].
  split; [intros solutions; now apply visit_unchanged |].
  intros order. rewrite (find_all_solutions_discovered _ _ Hops).
  eexists. split; [reflexivity |].
  intros c' s Hc' Hs. rewrite set_list_In. unfold discovered.
  apply in_flat_map. exists c'. split; [assumption |]. rewrite Hs. now left.
Qed.

Lemma zero_division_excluded_witness :
  evaluate_expression "8 / (3 - (9 / 3))" = Ok infinity /\
  try_combination (run_calls [])
    ([8; 3; 9; 3], ["/"; "-"; "/"], nth 4 patterns "") = Ok None.
Proof.
  assert (In ([8; 3; 9; 3], ["/"; "-"; "/"], nth 4 patterns "")
             (combinations [8; 3; 9; 3] ["+"; "-"; "*"; "/"])) as Hin.
  { apply In_combinations.
    - cbv. left. reflexivity.
    - cbv. do 55 right. left. reflexivity.
    - cbv. do 4 right. left. reflexivity. }
  destruct (@zero_division_excluded [] [8; 3; 9; 3] ["+"; "-"; "*"; "/"]
              ([8; 3; 9; 3], ["/"; "-"; "/"], nth 4 patterns "")
              "8 / (3 - (9 / 3))" eq_refl
              ltac:(simpl; intros x [H | [H | [H | [H | []]]]]; subst; lia)
              eq_refl Hin eq_refl)
    as (Heval & Htry & _).
  - exists (tree_of 4 Div Sub Div 8 3 9 3). split; vm_compute; reflexivity.
  - split; assumption.
Defined.

(** ** Solvability, operand order and difficulty *)

Import Play Notions.

Lemma In_picks {A : Type} (x : A) l1 l2 :
  In (x, l1 ++ l2) (picks (l1 ++ x :: l2)).
Proof.
  induction l1 as [| y l1 IH]; simpl.
  - now left.
  - right. apply (in_map (fun yr => (fst yr, y :: snd yr)) _ _ IH).
Qed.

Lemma Permutation_permutations_of_length {A : Type} n :
  forall (l p : list A),
    List.length l = n -> Permutation p l ->
    In p (permutations_of_length n l).
Proof.
  induction n as [| n IH]; intros l p Hlen Hp.
  - destruct l; [| discriminate Hlen].
    apply Permutation_sym, Permutation_nil in Hp. subst p. now left.
  - destruct p as [| x p].
    + apply Permutation_nil in Hp. subst l. discriminate Hlen.
    + assert (Hx : In x l) by (apply (Permutation_in _ Hp); now left).
      destruct (in_split _ _ Hx) as (l1 & l2 & ->).
      apply Permutation_cons_app_inv in Hp.
      cbn [permutations_of_length]. apply in_flat_map.
      exists (x, l1 ++ l2). split; [apply In_picks |].
      cbn [fst snd]. apply in_map. apply IH; [| exact Hp].
      rewrite length_app in Hlen |- *. simpl in Hlen. lia.
Qed.

Lemma permutations_iff {A : Type} (l p : list A) :
  In p (permutations l) <-> Permutation p l.
Proof.
  split; [apply permutations_Permutation |].
  now apply Permutation_permutations_of_length.
Qed.

Lemma permutations_of_Permutation {A : Type} (l l' p : list A) :
  Permutation l l' -> In p (permutations l) -> In p (permutations l').
Proof.
  intros Hl Hp. apply permutations_iff. apply permutations_iff in Hp.
  now transitivity l.
Qed.

Lemma In_product3 {A : Type} (l : list A) s0 s1 s2 :
  In s0 l -> In s1 l -> In s2 l -> In [s0; s1; s2] (product3 l).
Proof.
  intros H0 H1 H2. unfold product3.
  apply in_flat_map. exists s0. split; [exact H0 |].
  apply in_flat_map. exists s1. split; [exact H1 |].
  apply (in_map (fun c => [s0; s1; c]) _ _ H2).
Qed.

Lemma combinations_incl numbers numbers' operators operators' c :
  Permutation numbers numbers' ->
  incl operators operators' ->
  In c (combinations numbers operators) ->
  In c (combinations numbers' operators').
Proof.
  intros Hn Ho Hc.
  destruct (combinations_In _ _ _ Hc) as (p & ops & pattern & -> & Hp & Hops & Hpat).
  apply In_combinations; [| | exact Hpat].
  - exact (@permutations_of_Permutation _ _ _ _ Hn Hp).
  - destruct (product3_In _ _ Hops) as (s0 & s1 & s2 & -> & H0 & H1 & H2).
    apply In_product3; now apply Ho.
Qed.

Lemma kept_discovered self numbers operators :
  (exists c, In c (combinations numbers operators) /\ kept self c = true)
  <-> discovered self numbers operators <> [].
Proof.
  unfold discovered, kept. split.
  - intros (c & Hc & Hk) Hnil.
    assert (Hin : forall s, ~ In s (flat_map
              (fun c => match try_combination self c with
                        | Ok (Some display_expr) => [display_expr]
                        | _ => []
                        end) (combinations numbers operators)))
      by (intros s; rewrite Hnil; intros []).
    destruct (try_combination self c) as [[s |] | e] eqn:Htry;
      try discriminate Hk.
    apply (Hin s). apply in_flat_map. exists c. split; [exact Hc |].
    rewrite Htry. now left.
  - intros Hne.
    destruct (flat_map _ (combinations numbers operators)) as [| s r] eqn:Hd;
      [now elim Hne |].
    assert (Hs : In s (s :: r)) by now left.
    rewrite <- Hd in Hs. apply in_flat_map in Hs.
    destruct Hs as (c & Hc & Hs). exists c. split; [exact Hc |].
    now destruct (try_combination self c) as [[s' |] | e].
Qed.

Lemma set_list_empty `{SetOrder} adds : set_list adds = [] <-> adds = [].
Proof.
  split; intros Hnil.
  - destruct adds as [| x adds]; [reflexivity |].
    assert (Hx : In x (set_list (x :: adds)))
      by (apply set_list_In; now left).
    rewrite Hnil in Hx. destruct Hx.
  - subst adds. apply set_list_nil.
Qed.

Lemma try_combination_state g c :
  state_inv g -> try_combination g c = try_combination init c.
Proof.
  intros (_ & _ & Hsym & Ht). unfold try_combination, display.
  now rewrite Hsym, Ht.
Qed.

(** [has_solution] raises nothing on a game object and answers whether
    some combination of the search is kept, whatever the iteration order
    of the set of solutions. *)
Theorem has_solution_iff_kept (order : SetOrder) (ms : list method_call)
    (numbers : list Z) :
  let self := run_calls ms in
  exists operators b,
    lookup (difficulty self) (available_operators self) = Some operators /\
    has_solution self numbers = Ok b /\
    (b = true <->
     exists c, In c (combinations numbers operators) /\ kept self c = true).
Proof.
  intros self.
  destruct (state_inv_lookup (state_inv_run_calls ms)) as [operators Hops].
  fold self in Hops. exists operators.
  unfold has_solution.
  rewrite (find_all_solutions_discovered _ _ Hops). cbn [bind].
  eexists. split; [exact Hops |]. split; [reflexivity |].
  rewrite kept_discovered, <- (set_list_empty (discovered self numbers operators)).
  destruct (set_list (discovered self numbers operators)) as [| s r];
    split; intros Hb.
  - discriminate Hb.
  - now elim Hb.
  - discriminate.
  - apply Z.ltb_lt. cbn [List.length]. lia.
Qed.

Lemma discovered_incl self numbers numbers' operators operators' s :
  Permutation numbers numbers' ->
  incl operators operators' ->
  In s (discovered self numbers operators) ->
  In s (discovered self numbers' operators').
Proof.
  intros Hn Ho. unfold discovered. rewrite !in_flat_map.
  intros (c & Hc & Hs). exists c. split; [| exact Hs].
  exact (@combinations_incl _ _ _ _ _ Hn Ho Hc).
Qed.

(** The solver finds the same solutions for the operands in any order:
    the two results are rearrangements of each other. *)
Theorem find_all_solutions_operand_order (order : SetOrder) (self : game)
    (numbers numbers' : list Z) :
  Permutation numbers numbers' ->
  match find_all_solutions self numbers, find_all_solutions self numbers' with
  | Ok solutions, Ok solutions' => Permutation solutions solutions'
  | Raise e, Raise e' => e = e'
  | _, _ => False
  end.
Proof.
  intros Hn. unfold find_all_solutions.
  destruct (lookup (difficulty self) (available_operators self))
    as [operators |]; [| reflexivity].
  rewrite !fold_visit_discovered. cbn [app].
  apply NoDup_Permutation; try apply set_list_NoDup.
  intros s. rewrite !set_list_In.
  split; apply discovered_incl; try apply incl_refl;
    [exact Hn | exact (Permutation_sym Hn)].
Qed.

Lemma find_all_solutions_operand_order_witness :
  match @find_all_solutions newest_first_order init [1; 2; 3; 4],
        @find_all_solutions newest_first_order init [4; 3; 2; 1] with
  | Ok solutions, Ok solutions' => Permutation solutions solutions'
  | Raise e, Raise e' => e = e'
  | _, _ => False
  end.
Proof.
  apply find_all_solutions_operand_order.
  exact (Permutation_rev [1; 2; 3; 4]).
Defined.

Lemma incl_easy operators operators' g g' :
  state_inv g -> state_inv g' ->
  lookup (difficulty g) (available_operators g) = Some operators ->
  lookup (difficulty g') (available_operators g') = Some operators' ->
  (difficulty g = "easy" \/ difficulty g' <> "easy" ->
   incl operators operators') /\
  ((difficulty g = "easy" <-> difficulty g' = "easy") ->
   operators = operators').
Proof.
  intros (Hd & Ha & _) (Hd' & Ha' & _). rewrite Ha, Ha'.
  unfold levels in Hd, Hd'. cbn [In] in Hd, Hd'.
  destruct Hd as [<- | [<- | [<- | [<- | []]]]];
    destruct Hd' as [<- | [<- | [<- | [<- | []]]]];
    cbn; intros [= <-] [= <-]; split;
    try (intros _; first [apply incl_refl | reflexivity]);
    try (intros [H | H]; [discriminate H | now elim H]);
    try (intros [H1 H2]; first [discriminate (H1 eq_refl) | discriminate (H2 eq_refl)]).
  - intros _ s. cbn [In]. tauto.
  - intros _ s. cbn [In]. tauto.
  - intros _ s. cbn [In]. tauto.
Qed.

(** The solutions depend on the difficulty through its operator list
    only: whatever the solver finds in easy mode it finds at every level,
    and at two levels that are both easy or both not easy it returns the
    same list. *)
Theorem find_all_solutions_by_difficulty (order : SetOrder)
    (ms ms' : list method_call) (numbers : list Z) :
  let self := run_calls ms in
  let self' := run_calls ms' in
  exists solutions solutions',
    find_all_solutions self numbers = Ok solutions /\
    find_all_solutions self' numbers = Ok solutions' /\
    (difficulty self = "easy" \/ difficulty self' <> "easy" ->
     incl solutions solutions') /\
    ((difficulty self = "easy" <-> difficulty self' = "easy") ->
     solutions = solutions').
Proof.
  intros self self'.
  pose proof (state_inv_run_calls ms) as Hinv. fold self in Hinv.
  pose proof (state_inv_run_calls ms') as Hinv'. fold self' in Hinv'.
  destruct (state_inv_lookup Hinv) as [operators Hops].
  destruct (state_inv_lookup Hinv') as [operators' Hops'].
  rewrite (find_all_solutions_discovered _ _ Hops).
  rewrite (find_all_solutions_discovered _ _ Hops').
  do 2 eexists. split; [reflexivity |]. split; [reflexivity |].
  destruct (incl_easy Hinv Hinv' Hops Hops') as [Hincl Heq].
  assert (Hsame : forall ops,
            discovered self numbers ops = discovered self' numbers ops).
  { intros ops. unfold discovered. apply flat_map_ext. intros c.
    now rewrite (try_combination_state c Hinv),
                (try_combination_state c Hinv'). }
  split.
  - intros Hd s. rewrite !set_list_In, <- Hsame.
    apply discovered_incl; [apply Permutation_refl | now apply Hincl].
  - intros Hd. rewrite <- (Heq Hd). now rewrite Hsame.
Qed.

(** ** The value of an expression of the solver *)

Lemma Qred_within B q : within B q -> within B (Qred q).
Proof.
  destruct q as [n d]. unfold within, Qred. cbn [Qnum Qden].
  pose proof (Z.ggcd_gcd n (Zpos d)) as Hg.
  pose proof (Z.ggcd_correct_divisors n (Zpos d)) as Hdiv.
  pose proof (Z.gcd_nonneg n (Zpos d)) as Hnn.
  destruct (Z.ggcd n (Zpos d)) as [g [a b]]. cbn [fst snd] in *.
  destruct Hdiv as [Hn Hd]. cbn [Qnum Qden].
  intros [H1 H2].
  assert (0 < g) by (destruct (Z.eq_dec g 0) as [-> |]; [discriminate Hd | lia]).
  assert (0 < b) by nia.
  rewrite Z2Pos.id by assumption.
  split.
  - rewrite Hn, Z.abs_mul in H1. nia.
  - nia.
Qed.

Lemma Ok_inj {A : Type} (a b : A) : Ok a = Ok b -> a = b.
Proof. now intros [= ->]. Qed.

Lemma qop_within o p q r B1 B2 :
  within B1 p -> within B2 q -> qop o p q = Ok r -> within (2 * B1 * B2) r.
Proof.
  intros [Hp1 Hp2] [Hq1 Hq2] H.
  destruct p as [n1 d1], q as [n2 d2]. cbn [Qnum Qden] in *.
  assert (0 < B1) by lia. assert (0 < B2) by lia.
  destruct o; cbn [qop] in H.
  - apply Ok_inj in H. subst r. apply Qred_within. unfold within, Qplus.
    cbn [Qnum Qden]. rewrite Pos2Z.inj_mul. split; nia.
  - apply Ok_inj in H. subst r. apply Qred_within. unfold within, Qminus, Qplus, Qopp.
    cbn [Qnum Qden]. rewrite Pos2Z.inj_mul. split; nia.
  - apply Ok_inj in H. subst r. apply Qred_within. unfold within, Qmult.
    cbn [Qnum Qden]. rewrite Pos2Z.inj_mul. split; nia.
  - cbn [Qnum] in H. destruct (n2 =? 0) eqn:Hz; [discriminate H |].
    apply Ok_inj in H. subst r. apply Qred_within. unfold within, Qdiv, Qmult, Qinv.
    cbn [Qnum Qden].
    destruct n2 as [| n2 | n2]; [discriminate Hz | |];
      cbn [Qnum Qden]; rewrite Pos2Z.inj_mul; split; nia.
Qed.


Lemma qeval_within e : forall q, qeval e = Ok q -> within (bound e) q.
Proof.
  induction e as [z | s | u e IH | o l IHl r IHr | f IHf a IHa | f IHf];
    intros q H; cbn [qeval] in H; try discriminate H.
  - injection H as <-. unfold within. cbn. lia.
  - apply bind_Ok in H. destruct H as (x & Hx & H).
    apply bind_Ok in H. destruct H as (y & Hy & H).
    cbn [bound]. exact (@qop_within _ _ _ _ _ _ (IHl _ Hx) (IHr _ Hy) H).
Qed.

Lemma bound_tree_of i o0 o1 o2 a b c d :
  In a digits -> In b digits -> In c digits -> In d digits ->
  bound (tree_of i o0 o1 o2 a b c d) <= 2 ^ 53.
Proof.
  intros Ha Hb Hc Hd. apply digits_In in Ha, Hb, Hc, Hd.
  assert (H : bound (tree_of i o0 o1 o2 a b c d)
              = 8 * (Z.abs a * Z.abs b * (Z.abs c * Z.abs d))).
  { unfold tree_of.
    destruct i as [| [| [| [| [| i]]]]]; [| | | | |
      unfold ungrouped; destruct (tight o0), (tight o1), (tight o2); cbn [orb negb]];
    unfold nest1, nest2, nest3, nest4, nest5; cbn [bound];
    rewrite !Z.max_r by lia; ring. }
  rewrite H.
  assert (Z.abs a * Z.abs b <= 81) by nia.
  assert (Z.abs c * Z.abs d <= 81) by nia.
  assert (0 <= Z.abs a * Z.abs b) by nia.
  assert (0 <= Z.abs c * Z.abs d) by nia.
  change (2 ^ 53) with 9007199254740992. nia.
Qed.

Lemma check_exact_trees_true :
  forallb exact_follows_float (leaves ++ trees2 ++ trees3) = true.
Proof. vm_compute. reflexivity. Qed.

Lemma exact_follows_float_In e :
  In e (leaves ++ trees2 ++ trees3) -> exact_follows_float e = true.
Proof. apply (proj1 (forallb_forall _ _) check_exact_trees_true). Qed.

Lemma float_of_int_small z : fits_double z = true -> float_of_int z = Ok (small_float z).
Proof. unfold float_of_int. now intros ->. Qed.

Lemma arith_small o x y :
  small_value x = true -> small_value y = true ->
  (o = Div -> float_zero y = false) ->
  exists v, arith o x y = Ok v.
Proof.
  intros Hx Hy Hz.
  destruct x as [a | f | p |], y as [b | g | q |]; try discriminate Hx;
    try discriminate Hy; cbn [small_value] in *;
    unfold float_zero in Hz; cbn [py_float] in Hz;
    rewrite ?(float_of_int_small _ Hy) in Hz;
    cbn [arith]; rewrite ?(float_of_int_small _ Hx), ?(float_of_int_small _ Hy);
    cbn [bind];
    destruct o; cbn [int_op float_op]; try (eexists; reflexivity);
    specialize (Hz eq_refl).
  - unfold int_true_div. rewrite Hx, Hy. cbn [andb].
    destruct (Z.eqb_spec b 0) as [-> | _]; [discriminate Hz |].
    cbn [bind]. eexists; reflexivity.
  - rewrite Hz. eexists; reflexivity.
  - rewrite Hz. eexists; reflexivity.
  - rewrite Hz. eexists; reflexivity.
Qed.

(** When both operands follow each other's evaluations, an exact value
    of [l o r] comes with a value of its evaluation with floats. *)
Lemma float_value_with_exact o l r q :
  float_follows_exact l = true -> exact_follows_float l = true ->
  float_follows_exact r = true -> exact_follows_float r = true ->
  qeval (EBin o l r) = Ok q ->
  exists v, eval_expr allowed_names (EBin o l r) = Ok v.
Proof.
  unfold float_follows_exact, exact_follows_float. cbn [qeval eval_expr].
  intros Hl Hl' Hr Hr' Hq.
  apply bind_Ok in Hq. destruct Hq as (x & Hx & Hq).
  apply bind_Ok in Hq. destruct Hq as (y & Hy & Hq).
  rewrite Hx in Hl, Hl'. rewrite Hy in Hr, Hr'.
  destruct (eval_expr allowed_names l) as [vl | exl];
    [| destruct exl; discriminate Hl'].
  destruct (eval_expr allowed_names r) as [vr | exr];
    [| destruct exr; discriminate Hr'].
  cbn [bind].
  apply andb_prop in Hl. destruct Hl as [Hsl _].
  apply andb_prop in Hr. destruct Hr as [Hsr _].
  apply arith_small; [exact Hsl | exact Hsr |].
  intros ->. cbn [qop] in Hq.
  destruct (float_zero vr); [| reflexivity].
  cbn [implb] in Hr'. rewrite Hr' in Hq. discriminate Hq.
Qed.

Section FloatValue.
Variables (o0 o1 o2 : binop) (a b c d : Z).
Hypotheses (Ha : In a digits) (Hb : In b digits)
           (Hc : In c digits) (Hd : In d digits).

Ltac small_tree :=
  first
    [ now apply leaves_In
    | apply in_or_app; right; apply in_or_app; left; now apply trees2_In
    | apply in_or_app; right; apply in_or_app; right;
      eapply trees3_In;
      [ apply trees2_In | | first [left; reflexivity | right; reflexivity] ];
      assumption ].

Lemma tree_of_float_value i q :
  qeval (tree_of i o0 o1 o2 a b c d) = Ok q ->
  exists v, eval_expr allowed_names (tree_of i o0 o1 o2 a b c d) = Ok v.
Proof.
  unfold tree_of.
  destruct i as [| [| [| [| [| i]]]]];
    [| | | | | unfold ungrouped;
               destruct (tight o0), (tight o1), (tight o2);
               cbn [orb negb]];
    unfold nest1, nest2, nest3, nest4, nest5;
    intros H;
    (eapply float_value_with_exact; [| | | | exact H]);
    first [apply float_follows_exact_In | apply exact_follows_float_In];
    small_tree.
Qed.
End FloatValue.

Lemma evaluate_tree_value with_div e q :
  arithmetic e = true ->
  (with_div = false -> division_free e = true) ->
  (exists v, eval_expr allowed_names e = Ok v) ->
  qeval e = Ok q ->
  bound e <= 2 ^ 53 ->
  exists result,
    evaluate_tree with_div e = Ok result /\
    (if with_div then float_of_frac q else float_of_int (Qnum q)) = Ok result.
Proof.
  intros Harith Hfree [v Hv] Hq Hbound.
  destruct (qeval_within _ Hq) as [Hnum Hden].
  assert (Hfn : fits_double (Qnum q) = true)
    by (unfold fits_double; apply Z.leb_le; lia).
  assert (Hfd : fits_double (Zpos (Qden q)) = true)
    by (unfold fits_double; apply Z.leb_le; lia).
  unfold evaluate_tree. rewrite Hv. cbn [bind].
  destruct with_div.
  - unfold evaluate_tree_with_fractions.
    rewrite (eval_fractionize _ Harith), Hq. cbn [bind py_float].
    unfold float_of_frac, int_true_div. rewrite Hfn, Hfd. cbn [andb].
    eexists. split; reflexivity.
  - destruct (eval_division_free _ (Hfree eq_refl)) as (z & Hz & Hqz).
    rewrite Hv in Hz. injection Hz as ->.
    rewrite Hq in Hqz. injection Hqz as ->. cbn [Qnum inject_Z] in *.
    cbn [py_float]. rewrite (float_of_int_small _ Hfn).
    eexists. split; reflexivity.
Qed.

Lemma qeval_raises e ex :
  arithmetic e = true -> qeval e = Raise ex -> ex = ZeroDivisionError.
Proof.
  induction e as [z | s | u e IH | o l IHl r IHr | f IHf a IHa | f IHf];
    cbn [arithmetic qeval]; intros Ha H; try discriminate.
  apply andb_prop in Ha. destruct Ha as [Hl Hr].
  destruct (qeval l) as [x |]; [| cbn [bind] in H; now apply IHl].
  destruct (qeval r) as [y |]; [| cbn [bind] in H; now apply IHr].
  cbn [bind] in H. destruct o; cbn [qop] in H; try discriminate H.
  destruct (Qnum y =? 0); congruence.
Qed.

(** On an expression of the solver with non-negative operands,
    [evaluate_with_fractions] returns the exact value as a [Fraction];
    when the exact evaluation divides by zero it raises [ValueError],
    from the handler that builds [Fraction('inf')], and never returns an
    infinity. *)
Theorem evaluate_with_fractions_value (i : nat) (o0 o1 o2 : binop)
    (a b c d : Z) :
  (i < 6)%nat -> 0 <= a -> 0 <= b -> 0 <= c -> 0 <= d ->
  exists expr,
    expression_of ([a; b; c; d], [op_str o0; op_str o1; op_str o2],
                   nth i patterns "") = Ok expr /\
    match qeval (tree_of i o0 o1 o2 a b c d) with
    | Ok q => evaluate_with_fractions expr = Ok (VFrac q)
    | Raise _ => evaluate_with_fractions expr = Raise ValueError
    end.
Proof.
  intros Hi Ha Hb Hc Hd. exists (expression i o0 o1 o2 a b c d).
  split; [now apply expression_of_combination |].
  rewrite evaluate_with_fractions_expression by assumption.
  unfold evaluate_tree_with_fractions.
  rewrite (eval_fractionize _ (arithmetic_tree_of i o0 o1 o2 a b c d)).
  destruct (qeval (tree_of i o0 o1 o2 a b c d)) as [q | ex] eqn:Hq;
    cbn [bind]; [reflexivity |].
  now rewrite (qeval_raises _ (arithmetic_tree_of i o0 o1 o2 a b c d) Hq).
Qed.

Lemma evaluate_with_fractions_value_witness :
  exists expr,
    expression_of ([8; 3; 9; 3], ["/"; "-"; "/"], nth 4 patterns "")
    = Ok expr /\
    evaluate_with_fractions expr = Raise ValueError.
Proof.
  exact (@evaluate_with_fractions_value 4 Div Sub Div 8 3 9 3
           ltac:(lia) ltac:(lia) ltac:(lia) ltac:(lia) ltac:(lia)).
Defined.

(** On an expression of the solver over the digits 1 to 9,
    [evaluate_expression] raises nothing: it returns the float infinity
    when the exact evaluation divides by zero, and otherwise the float of
    the exact value, read as a [Fraction] when the text contains [/] and
    as an int when it does not. *)
Theorem evaluate_expression_value (i : nat) (o0 o1 o2 : binop)
    (a b c d : Z) :
  (i < 6)%nat ->
  1 <= a <= 9 -> 1 <= b <= 9 -> 1 <= c <= 9 -> 1 <= d <= 9 ->
  exists expr,
    expression_of ([a; b; c; d], [op_str o0; op_str o1; op_str o2],
                   nth i patterns "") = Ok expr /\
    match qeval (tree_of i o0 o1 o2 a b c d) with
    | Raise _ => evaluate_expression expr = Ok infinity
    | Ok q =>
        exists result,
          evaluate_expression expr = Ok result /\
          (if is_div o0 || is_div o1 || is_div o2
           then float_of_frac q else float_of_int (Qnum q)) = Ok result
    end.
Proof.
  intros Hi Ha Hb Hc Hd. exists (expression i o0 o1 o2 a b c d).
  split; [now apply expression_of_combination |].
  apply digits_In in Ha, Hb, Hc, Hd.
  pose proof (digits_nonneg Ha). pose proof (digits_nonneg Hb).
  pose proof (digits_nonneg Hc). pose proof (digits_nonneg Hd).
  rewrite evaluate_expression_expression by assumption.
  destruct (qeval (tree_of i o0 o1 o2 a b c d)) as [q | ex] eqn:Hq.
  - apply evaluate_tree_value.
    + apply arithmetic_tree_of.
    + apply division_free_tree_of.
    + now apply (tree_of_float_value o0 o1 o2 Ha Hb Hc Hd i Hq).
    + exact Hq.
    + now apply bound_tree_of.
  - apply evaluate_tree_zero_division.
    now apply (tree_of_zero_division o0 o1 o2 Ha Hb Hc Hd i Hq).
Qed.

Lemma evaluate_expression_value_witness :
  exists expr,
    expression_of ([6; 1; 3; 4], ["/"; "-"; "/"], nth 4 patterns "")
    = Ok expr /\
    exists result,
      evaluate_expression expr = Ok result /\
      float_of_frac (inject_Z 24) = Ok result.
Proof.
  exact (@evaluate_expression_value 4 Div Sub Div 6 1 3 4
           ltac:(lia) ltac:(lia) ltac:(lia) ltac:(lia) ltac:(lia)).
Defined.

(** ** Soundness and completeness of the search over the digits *)

Lemma near_target_24 : near_target 24%float = true.
Proof. reflexivity. Qed.

Lemma float_of_frac_24 : float_of_frac (inject_Z 24) = Ok 24%float.
Proof. reflexivity. Qed.

Lemma try_combination_near g i o0 o1 o2 a b c d result :
  state_inv g -> (i < 6)%nat ->
  evaluate_expression (expression i o0 o1 o2 a b c d) = Ok result ->
  try_combination g ([a; b; c; d], [op_str o0; op_str o1; op_str o2],
                     nth i patterns "")
  = Ok (if near_target result
        then Some (display g (expression i o0 o1 o2 a b c d)) else None).
Proof.
  intros (_ & _ & _ & Ht) Hi Heval. unfold try_combination.
  rewrite (expression_of_combination o0 o1 o2 a b c d Hi). cbn [bind].
  rewrite Heval, Ht, float_of_int_target. cbn [bind]. unfold near_target.
  now destruct (PrimFloat.ltb _ epsilon).
Qed.

Lemma exact_kept g i o0 o1 o2 a b c d :
  state_inv g -> (i < 6)%nat ->
  In a digits -> In b digits -> In c digits -> In d digits ->
  qeval (tree_of i o0 o1 o2 a b c d) = Ok (inject_Z 24) ->
  try_combination g ([a; b; c; d], [op_str o0; op_str o1; op_str o2],
                     nth i patterns "")
  = Ok (Some (display g (expression i o0 o1 o2 a b c d))).
Proof.
  intros Hinv Hi Ha Hb Hc Hd Hq.
  pose proof (digits_nonneg Ha). pose proof (digits_nonneg Hb).
  pose proof (digits_nonneg Hc). pose proof (digits_nonneg Hd).
  assert (Heval : evaluate_expression (expression i o0 o1 o2 a b c d)
                  = Ok 24%float).
  { rewrite evaluate_expression_expression by assumption.
    destruct (@evaluate_tree_value (is_div o0 || is_div o1 || is_div o2)
                (tree_of i o0 o1 o2 a b c d) (inject_Z 24))
      as (result & Hr & Hf).
    - apply arithmetic_tree_of.
    - apply division_free_tree_of.
    - now apply (tree_of_float_value o0 o1 o2 Ha Hb Hc Hd i Hq).
    - exact Hq.
    - now apply bound_tree_of.
    - rewrite Hr. destruct (is_div o0 || is_div o1 || is_div o2).
      + rewrite float_of_frac_24 in Hf. exact (eq_sym Hf).
      + cbn [Qnum inject_Z] in Hf. rewrite float_of_int_target in Hf.
        exact (eq_sym Hf). }
  rewrite (try_combination_near _ _ _ _ _ _ _ Hinv Hi Heval).
  now rewrite near_target_24.
Qed.

Lemma kept_exact g i o0 o1 o2 a b c d s :
  state_inv g -> (i < 6)%nat ->
  In a digits -> In b digits -> In c digits -> In d digits ->
  try_combination g ([a; b; c; d], [op_str o0; op_str o1; op_str o2],
                     nth i patterns "") = Ok (Some s) ->
  qeval (tree_of i o0 o1 o2 a b c d) = Ok (inject_Z 24) /\
  s = display g (expression i o0 o1 o2 a b c d).
Proof.
  intros Hinv Hi Ha Hb Hc Hd Hkept.
  pose proof (digits_nonneg Ha). pose proof (digits_nonneg Hb).
  pose proof (digits_nonneg Hc). pose proof (digits_nonneg Hd).
  pose proof Hinv as (_ & _ & _ & Ht).
  destruct (@try_combination_kept _ _ _ Ht Hkept)
    as (expr & result & Hexpr & Heval & Hnear).
  rewrite (expression_of_combination o0 o1 o2 a b c d Hi) in Hexpr.
  injection Hexpr as <-.
  rewrite (try_combination_near _ _ _ _ _ _ _ Hinv Hi Heval), Hnear in Hkept.
  injection Hkept as <-. split; [| reflexivity].
  rewrite evaluate_expression_expression in Heval by assumption.
  assert (Hfrac : evaluate_tree_with_fractions (tree_of i o0 o1 o2 a b c d)
                  = Ok (VFrac (inject_Z 24))).
  { eapply evaluate_tree_near_exact; [| | | exact Heval | exact Hnear].
    - apply arithmetic_tree_of.
    - apply division_free_tree_of.
    - intros q. now apply tree_of_exact. }
  unfold evaluate_tree_with_fractions in Hfrac.
  rewrite (eval_fractionize _ (arithmetic_tree_of i o0 o1 o2 a b c d)) in Hfrac.
  destruct (qeval (tree_of i o0 o1 o2 a b c d)) as [q | ex];
    cbn [bind] in Hfrac.
  - now injection Hfrac as ->.
  - destruct ex; discriminate Hfrac.
Qed.

Lemma combination_operands g numbers operators c :
  state_inv g ->
  lookup (difficulty g) (available_operators g) = Some operators ->
  In c (combinations numbers operators) ->
  (exists i o0 o1 o2 a b c' d,
     (i < 6)%nat /\ Permutation [a; b; c'; d] numbers /\
     In (op_str o0) operators /\ In (op_str o1) operators /\
     In (op_str o2) operators /\
     c = ([a; b; c'; d], [op_str o0; op_str o1; op_str o2],
          nth i patterns ""))
  \/ List.length numbers <> 4%nat.
Proof.
  intros Hinv Hops Hc.
  destruct (Nat.eq_dec (List.length numbers) 4) as [Hlen | Hlen];
    [left | now right].
  destruct (@combinations_In _ _ _ Hc)
    as (p & ops & pattern & -> & Hp & Hprod & Hpat).
  apply permutations_Permutation in Hp.
  pose proof (Permutation_length Hp) as Hlp. rewrite Hlen in Hlp.
  destruct p as [| a [| b [| c' [| d [| ? ?]]]]]; try discriminate Hlp.
  destruct (@product3_In _ _ _ Hprod) as (s0 & s1 & s2 & -> & H0 & H1 & H2).
  destruct (@state_inv_operators _ _ _ Hinv Hops H0) as [o0 ->].
  destruct (@state_inv_operators _ _ _ Hinv Hops H1) as [o1 ->].
  destruct (@state_inv_operators _ _ _ Hinv Hops H2) as [o2 ->].
  destruct (@patterns_In _ Hpat) as (i & Hi & ->).
  exists i, o0, o1, o2, a, b, c', d. repeat split; assumption.
Qed.

Lemma exact_solution_combination numbers operators i o0 o1 o2 a b c d :
  exact_solution numbers operators i o0 o1 o2 a b c d ->
  In ([a; b; c; d], [op_str o0; op_str o1; op_str o2], nth i patterns "")
     (combinations numbers operators).
Proof.
  intros (Hi & Hp & H0 & H1 & H2 & _). apply In_combinations.
  - now apply permutations_iff.
  - now apply In_product3.
  - apply nth_In. exact Hi.
Qed.

Lemma kept_iff_exact g numbers operators s :
  state_inv g ->
  lookup (difficulty g) (available_operators g) = Some operators ->
  (forall x, In x numbers -> 1 <= x <= 9) ->
  (exists c, In c (combinations numbers operators) /\
             try_combination g c = Ok (Some s))
  <->
  (exists i o0 o1 o2 a b c d,
     exact_solution numbers operators i o0 o1 o2 a b c d /\
     s = display g (expression i o0 o1 o2 a b c d)).
Proof.
  intros Hinv Hops Hrange.
  assert (Hdigits : forall a b c d x,
            Permutation [a; b; c; d] numbers -> In x [a; b; c; d] ->
            In x digits).
  { intros a b c d x Hp Hx. apply digits_In, Hrange.
    exact (Permutation_in _ Hp Hx). }
  split.
  - intros (c & Hc & Hkept).
    destruct (@combination_operands _ _ _ _ Hinv Hops Hc)
      as [(i & o0 & o1 & o2 & a & b & c' & d
           & Hi & Hp & H0 & H1 & H2 & ->) | Hlen].
    + exists i, o0, o1, o2, a, b, c', d.
      destruct (@kept_exact g i o0 o1 o2 a b c' d s Hinv Hi) as [Hq Hs];
        try exact Hkept;
        try (apply (Hdigits a b c' d _ Hp); cbn [In]; tauto).
      split; [| exact Hs]. repeat split; assumption.
    + exfalso.
      assert (Hd : In s (discovered g numbers operators)).
      { unfold discovered. apply in_flat_map. exists c.
        split; [exact Hc |]. rewrite Hkept. now left. }
      rewrite discovered_wrong_length in Hd; [exact Hd | exact Hlen |].
      intros x Hx. specialize (Hrange x Hx). lia.
  - intros (i & o0 & o1 & o2 & a & b & c & d & Hsol & ->).
    eexists. split; [exact (exact_solution_combination Hsol) |].
    destruct Hsol as (Hi & Hp & _ & _ & _ & Hq).
    apply exact_kept; try assumption;
      apply (Hdigits a b c d _ Hp); cbn [In]; tauto.
Qed.

(** The search is sound and complete over the digits 1 to 9: the
    strings returned are exactly the displays of the expressions of the
    six patterns, over the rearrangements of the numbers and the
    operators of the level, whose exact value is 24. *)
Theorem find_all_solutions_exact (order : SetOrder)
    (ms : list method_call) (numbers : list Z) (s : string) :
  let self := run_calls ms in
  (forall x, In x numbers -> 1 <= x <= 9) ->
  exists operators solutions,
    lookup (difficulty self) (available_operators self) = Some operators /\
    find_all_solutions self numbers = Ok solutions /\
    (In s solutions <->
     exists i o0 o1 o2 a b c d,
       exact_solution numbers operators i o0 o1 o2 a b c d /\
       s = display self (expression i o0 o1 o2 a b c d)).
Proof.
  intros self Hrange.
  pose proof (state_inv_run_calls ms) as Hinv. fold self in Hinv.
  destruct (state_inv_lookup Hinv) as [operators Hops].
  exists operators. eexists. split; [exact Hops |].
  split; [exact (find_all_solutions_discovered _ _ Hops) |].
  rewrite <- (@kept_iff_exact _ _ _ s Hinv Hops Hrange).
  apply (@find_all_solutions_In _ _ _ _ _ s Hops).
  exact (find_all_solutions_discovered _ _ Hops).
Qed.

Lemma find_all_solutions_exact_witness :
  exists operators solutions,
    lookup (difficulty init) (available_operators init) = Some operators /\
    @find_all_solutions newest_first_order init [1; 3; 4; 6] = Ok solutions /\
    (In (display init "6 / (1 - (3 / 4))") solutions <->
     exists i o0 o1 o2 a b c d,
       exact_solution [1; 3; 4; 6] operators i o0 o1 o2 a b c d /\
       display init "6 / (1 - (3 / 4))"
       = display init (expression i o0 o1 o2 a b c d)).
Proof.
  apply (@find_all_solutions_exact newest_first_order [] [1; 3; 4; 6]).
  simpl. intros x [H | [H | [H | [H | []]]]]; subst; lia.
Defined.

(** Over the digits 1 to 9 [has_solution] answers whether the puzzle
    has an exact solution among the expressions of the solver. *)
Theorem has_solution_iff_exact (order : SetOrder) (ms : list method_call)
    (numbers : list Z) :
  let self := run_calls ms in
  (forall x, In x numbers -> 1 <= x <= 9) ->
  exists operators answer,
    lookup (difficulty self) (available_operators self) = Some operators /\
    has_solution self numbers = Ok answer /\
    (answer = true <->
     exists i o0 o1 o2 a b c d,
       exact_solution numbers operators i o0 o1 o2 a b c d).
Proof.
  intros self Hrange.
  pose proof (state_inv_run_calls ms) as Hinv. fold self in Hinv.
  destruct (state_inv_lookup Hinv) as [operators Hops].
  exists operators.
  unfold has_solution.
  rewrite (find_all_solutions_discovered _ _ Hops). cbn [bind].
  eexists. split; [exact Hops |]. split; [reflexivity |].
  transitivity (exists s, In s (discovered self numbers operators)).
  - destruct (set_list (discovered self numbers operators)) as [| s r] eqn:Hl.
    + split; [discriminate |]. intros [s Hs].
      apply (proj2 (set_list_In _ _)) in Hs. rewrite Hl in Hs. destruct Hs.
    + split; [| intros _; apply Z.ltb_lt; cbn [List.length]; lia].
      intros _. exists s. apply (proj1 (set_list_In _ _)). rewrite Hl. now left.
  - split.
    + intros [s Hs].
      assert (Hk : exists c, In c (combinations numbers operators) /\
                             try_combination self c = Ok (Some s)).
      { unfold discovered in Hs. apply in_flat_map in Hs.
        destruct Hs as (c & Hc & Hs). exists c. split; [exact Hc |].
        destruct (try_combination self c) as [[s' |] | e];
          cbn [In] in Hs; try tauto.
        destruct Hs as [-> | []]. reflexivity. }
      apply (@kept_iff_exact _ _ _ s Hinv Hops Hrange) in Hk.
      destruct Hk as (i & o0 & o1 & o2 & a & b & c & d & Hsol & _).
      now exists i, o0, o1, o2, a, b, c, d.
    + intros (i & o0 & o1 & o2 & a & b & c & d & Hsol).
      assert (Hk : exists c', In c' (combinations numbers operators) /\
                   try_combination self c'
                   = Ok (Some (display self (expression i o0 o1 o2 a b c d)))).
      { apply (@kept_iff_exact _ _ _ _ Hinv Hops Hrange).
        now exists i, o0, o1, o2, a, b, c, d. }
      destruct Hk as (c' & Hc & Hk). eexists.
      unfold discovered. apply in_flat_map. exists c'.
      split; [exact Hc |]. rewrite Hk. now left.
Qed.

Lemma has_solution_iff_exact_witness :
  exists operators answer,
    lookup (difficulty init) (available_operators init) = Some operators /\
    @has_solution newest_first_order init [3; 3; 8; 8] = Ok answer /\
    (answer = true <->
     exists i o0 o1 o2 a b c d,
       exact_solution [3; 3; 8; 8] operators i o0 o1 o2 a b c d).
Proof.
  apply (@has_solution_iff_exact newest_first_order [] [3; 3; 8; 8]).
  simpl. intros x [H | [H | [H | [H | []]]]]; subst; lia.
Defined.

(** ** Sums *)

Lemma has_solution_kept `{SetOrder} g numbers operators c s :
  lookup (difficulty g) (available_operators g) = Some operators ->
  In c (combinations numbers operators) ->
  try_combination g c = Ok (Some s) ->
  has_solution g numbers = Ok true.
Proof.
  intros Hops Hc Hkept. unfold has_solution.
  rewrite (find_all_solutions_discovered _ _ Hops). cbn [bind].
  assert (Hs : In s (set_list (discovered g numbers operators))).
  { apply set_list_In. unfold discovered. apply in_flat_map.
    exists c. split; [exact Hc |]. rewrite Hkept. now left. }
  destruct (set_list (discovered g numbers operators)); [destruct Hs |].
  reflexivity.
Qed.

Lemma has_solution_none `{SetOrder} g numbers operators :
  lookup (difficulty g) (available_operators g) = Some operators ->
  (forall c s, In c (combinations numbers operators) ->
               try_combination g c <> Ok (Some s)) ->
  has_solution g numbers = Ok false.
Proof.
  intros Hops Hnone. unfold has_solution.
  rewrite (find_all_solutions_discovered _ _ Hops). cbn [bind].
  replace (discovered g numbers operators) with (@nil string);
    [now rewrite set_list_nil |].
  symmetry. unfold discovered. apply flat_map_nil. intros c Hc.
  destruct (try_combination g c) as [[s |] | e] eqn:Hk; try reflexivity.
  now elim (Hnone c s Hc).
Qed.

Lemma plus_minus_operators g operators :
  state_inv g ->
  lookup (difficulty g) (available_operators g) = Some operators ->
  In "+" operators /\ In "-" operators /\
  (difficulty g = "easy" -> operators = ["+"; "-"]).
Proof.
  intros (Hd & Ha & _). rewrite Ha.
  unfold levels in Hd. cbn [In] in Hd.
  destruct Hd as [<- | [<- | [<- | [<- | []]]]];
    cbn; intros [= <-]; cbn [In]; repeat split; try tauto; discriminate.
Qed.

Lemma sum_cons x l : sum (x :: l) = x + sum l.
Proof.
  unfold sum. cbn [fold_left].
  rewrite <- (Z.add_0_r x) at 1. generalize 0 at 1 3. revert x.
  induction l as [| y l IH]; intros x acc; cbn [fold_left]; [lia |].
  rewrite <- IH. f_equal. lia.
Qed.

Lemma sum_Permutation l l' : Permutation l l' -> sum l = sum l'.
Proof.
  induction 1 as [| x l l' _ IH | x y l | l l' l'' _ IH1 _ IH2].
  - reflexivity.
  - now rewrite !sum_cons, IH.
  - rewrite !sum_cons. lia.
  - now rewrite IH1.
Qed.

Lemma evaluate_tree_int e z :
  eval_expr allowed_names e = Ok (VInt z) ->
  evaluate_tree false e = match float_of_int z with
                          | Ok x => Ok x
                          | Raise ZeroDivisionError => Ok infinity
                          | Raise _ => Raise ValueError
                          end.
Proof. intros H. unfold evaluate_tree. now rewrite H. Qed.

(** When the four numbers are non-negative and sum to 24, the second
    test of [has_trivial_solution], the solver finds the unparenthesised
    sum at every difficulty, so [has_solution] answers true. *)
Theorem sum_24_has_solution (order : SetOrder) (ms : list method_call)
    (a b c d : Z) :
  let self := run_calls ms in
  0 <= a -> 0 <= b -> 0 <= c -> 0 <= d ->
  sum [a; b; c; d] = 24 ->
  has_solution self [a; b; c; d] = Ok true /\
  exists solutions,
    find_all_solutions self [a; b; c; d] = Ok solutions /\
    In (display self (expression 5 Add Add Add a b c d)) solutions.
Proof.
  intros self Ha Hb Hc Hd Hsum.
  pose proof (state_inv_run_calls ms) as Hinv. fold self in Hinv.
  destruct (state_inv_lookup Hinv) as [operators Hops].
  destruct (plus_minus_operators Hinv Hops) as (Hplus & _ & _).
  assert (Hi : (5 < 6)%nat) by lia.
  assert (Hin : In ([a; b; c; d], [op_str Add; op_str Add; op_str Add],
                    nth 5 patterns "")
                   (combinations [a; b; c; d] operators)).
  { apply In_combinations.
    - apply permutations_iff. apply Permutation_refl.
    - now apply In_product3.
    - now apply nth_In. }
  assert (Heval : evaluate_expression (expression 5 Add Add Add a b c d)
                  = Ok 24%float).
  { rewrite evaluate_expression_expression by assumption.
    cbn [is_div orb].
    rewrite (@evaluate_tree_int (tree_of 5 Add Add Add a b c d)
               (a + b + c + d) eq_refl).
    rewrite !sum_cons in Hsum. change (sum []) with 0 in Hsum.
    replace (a + b + c + d) with 24 by lia. reflexivity. }
  pose proof (@try_combination_near _ _ _ _ _ _ _ _ _ _ Hinv Hi Heval) as Hk.
  rewrite near_target_24 in Hk.
  split; [exact (@has_solution_kept _ _ _ _ _ _ Hops Hin Hk) |].
  eexists. split; [exact (find_all_solutions_discovered _ _ Hops) |].
  apply set_list_In. unfold discovered. apply in_flat_map.
  eexists. split; [exact Hin |]. rewrite Hk. now left.
Qed.

Lemma sum_24_has_solution_witness :
  @has_solution newest_first_order init [9; 0; 7; 8] = Ok true /\
  exists solutions,
    @find_all_solutions newest_first_order init [9; 0; 7; 8] = Ok solutions /\
    In (display init (expression 5 Add Add Add 9 0 7 8)) solutions.
Proof.
  apply (@sum_24_has_solution newest_first_order [] 9 0 7 8); try lia.
  reflexivity.
Defined.

Lemma has_solution_answer `{SetOrder} g numbers operators :
  lookup (difficulty g) (available_operators g) = Some operators ->
  exists answer,
    has_solution g numbers = Ok answer /\
    (answer = true <->
     exists c s, In c (combinations numbers operators) /\
                 try_combination g c = Ok (Some s)).
Proof.
  intros Hops.
  destruct (discovered g numbers operators) as [| s r] eqn:Hd.
  - exists false. split.
    + apply (@has_solution_none _ _ _ _ Hops). intros c s Hc Hk.
      assert (Hs : In s (discovered g numbers operators)).
      { unfold discovered. apply in_flat_map. exists c.
        split; [exact Hc |]. rewrite Hk. now left. }
      rewrite Hd in Hs. destruct Hs.
    + split; [discriminate |]. intros (c & s & Hc & Hk).
      assert (Hs : In s (discovered g numbers operators)).
      { unfold discovered. apply in_flat_map. exists c.
        split; [exact Hc |]. rewrite Hk. now left. }
      rewrite Hd in Hs. destruct Hs.
  - assert (Hs : In s (discovered g numbers operators))
      by (rewrite Hd; now left).
    unfold discovered in Hs. apply in_flat_map in Hs.
    destruct Hs as (c & Hc & Hs).
    assert (Hk : try_combination g c = Ok (Some s)).
    { destruct (try_combination g c) as [[s' |] | e];
        cbn [In] in Hs; try tauto.
      destruct Hs as [-> | []]. reflexivity. }
    exists true. split; [exact (@has_solution_kept _ _ _ _ _ _ Hops Hc Hk) |].
    split; [| reflexivity]. intros _. now exists c, s.
Qed.

Lemma plus_or_minus o : In (op_str o) ["+"; "-"] -> o = Add \/ o = Sub.
Proof.
  destruct o; cbn [In op_str]; intros [H | [H | []]];
    first [discriminate H | now left | now right].
Qed.

Lemma inject_Z_inj x y : inject_Z x = inject_Z y -> x = y.
Proof. now intros [= ->]. Qed.

Ltac choose_signs :=
  first
    [ exists 1, 1, 1; cbn [In]; repeat split; first [tauto | lia]
    | exists 1, 1, (-1); cbn [In]; repeat split; first [tauto | lia]
    | exists 1, (-1), 1; cbn [In]; repeat split; first [tauto | lia]
    | exists 1, (-1), (-1); cbn [In]; repeat split; first [tauto | lia]
    | exists (-1), 1, 1; cbn [In]; repeat split; first [tauto | lia]
    | exists (-1), 1, (-1); cbn [In]; repeat split; first [tauto | lia]
    | exists (-1), (-1), 1; cbn [In]; repeat split; first [tauto | lia]
    | exists (-1), (-1), (-1); cbn [In]; repeat split; first [tauto | lia] ].

Lemma exact_solution_signed numbers i o0 o1 o2 a b c d :
  exact_solution numbers ["+"; "-"] i o0 o1 o2 a b c d -> signed_sum numbers.
Proof.
  intros (Hi & Hp & H0 & H1 & H2 & Hq).
  apply plus_or_minus in H0, H1, H2.
  exists a, b, c, d.
  assert (Hfree : division_free (tree_of i o0 o1 o2 a b c d) = true).
  { apply division_free_tree_of.
    destruct H0 as [-> | ->], H1 as [-> | ->], H2 as [-> | ->]; reflexivity. }
  destruct (eval_division_free _ Hfree) as (z & Hz & Hqz).
  rewrite Hq in Hqz. apply Ok_inj, inject_Z_inj in Hqz. subst z.
  destruct i as [| [| [| [| [| i]]]]];
    destruct H0 as [-> | ->], H1 as [-> | ->], H2 as [-> | ->];
    cbn in Hz; apply Ok_inj in Hz; injection Hz as Hz;
    choose_signs.
Qed.

Lemma signed_exact_solution numbers operators :
  In "+" operators -> In "-" operators ->
  signed_sum numbers ->
  exists o0 o1 o2 a b c d,
    exact_solution numbers operators 1 o0 o1 o2 a b c d.
Proof.
  intros Hplus Hminus (a & b & c & d & s1 & s2 & s3
                       & Hp & H1 & H2 & H3 & Hsum).
  pose (op := fun s : Z => if s =? 1 then Add else Sub).
  assert (Hop : forall s, In (op_str (op s)) operators)
    by (intros s; unfold op; now destruct (s =? 1)).
  exists (op s1), (op s2), (op s3), a, b, c, d.
  split; [lia |]. split; [exact Hp |]. repeat (split; [apply Hop |]).
  assert (Hfree : division_free (tree_of 1 (op s1) (op s2) (op s3) a b c d)
                  = true).
  { apply division_free_tree_of. unfold op.
    now destruct (s1 =? 1), (s2 =? 1), (s3 =? 1). }
  destruct (eval_division_free _ Hfree) as (z & Hz & Hqz).
  rewrite Hqz. do 2 f_equal.
  cbn [In] in H1, H2, H3.
  destruct H1 as [<- | [<- | []]], H2 as [<- | [<- | []]],
           H3 as [<- | [<- | []]];
    cbn in Hz; apply Ok_inj in Hz; injection Hz as Hz; lia.
Qed.

Lemma signed_sum_total numbers :
  (forall x, In x numbers -> 1 <= x <= 9) ->
  signed_sum numbers ->
  24 <= sum numbers /\ Z.even (sum numbers) = true.
Proof.
  intros Hrange (a' & b' & c0 & d' & s1 & s2 & s3
                 & Hp & H1 & H2 & H3 & Hsum).
  rewrite <- (@sum_Permutation _ _ Hp), !sum_cons. change (sum []) with 0.
  assert (Hin : forall x, In x [a'; b'; c0; d'] -> 1 <= x <= 9)
    by (intros x Hx; apply Hrange; exact (Permutation_in _ Hp Hx)).
  pose proof (Hin a' ltac:(cbn [In]; tauto)).
  pose proof (Hin b' ltac:(cbn [In]; tauto)).
  pose proof (Hin c0 ltac:(cbn [In]; tauto)).
  pose proof (Hin d' ltac:(cbn [In]; tauto)).
  cbn [In] in H1, H2, H3.
  destruct H1 as [<- | [<- | []]], H2 as [<- | [<- | []]],
           H3 as [<- | [<- | []]];
    (split; [lia |]); apply Z.even_spec;
    [ exists 12 | exists (12 + d') | exists (12 + c0)
    | exists (12 + c0 + d') | exists (12 + b') | exists (12 + b' + d')
    | exists (12 + b' + c0) | exists (12 + b' + c0 + d') ]; lia.
Qed.

Lemma easy_kept_signed g numbers c s :
  state_inv g ->
  lookup (difficulty g) (available_operators g) = Some ["+"; "-"] ->
  (forall x, In x numbers -> 1 <= x <= 9) ->
  In c (combinations numbers ["+"; "-"]) ->
  try_combination g c = Ok (Some s) ->
  signed_sum numbers.
Proof.
  intros Hinv Hops Hrange Hc Hk.
  destruct (proj1 (@kept_iff_exact _ _ _ s Hinv Hops Hrange))
    as (i & o0 & o1 & o2 & a & b & c' & d & Hsol & _);
    [now exists c |].
  exact (@exact_solution_signed _ _ _ _ _ _ _ _ _ Hsol).
Qed.

(** With [+] and [-] only, a puzzle over the digits 1 to 9 is solved by
    giving signs to the numbers: whenever some order and signs sum to 24
    [has_solution] answers true, at every difficulty; in easy mode it
    answers true only then, so only when the numbers sum to at least 24
    and their sum is even. *)
Theorem has_solution_easy (order : SetOrder) (ms : list method_call)
    (numbers : list Z) :
  let self := run_calls ms in
  (forall x, In x numbers -> 1 <= x <= 9) ->
  exists answer,
    has_solution self numbers = Ok answer /\
    (signed_sum numbers -> answer = true) /\
    (difficulty self = "easy" -> answer = true ->
     signed_sum numbers /\ 24 <= sum numbers /\ Z.even (sum numbers) = true).
Proof.
  intros self Hrange.
  pose proof (state_inv_run_calls ms) as Hinv. fold self in Hinv.
  destruct (state_inv_lookup Hinv) as [operators Hops].
  destruct (plus_minus_operators Hinv Hops) as (Hplus & Hminus & Heasy).
  destruct (@has_solution_answer _ _ numbers _ Hops) as (answer & Hanswer & Hiff).
  exists answer. split; [exact Hanswer |]. split.
  - intros Hsigned. apply Hiff.
    destruct (@signed_exact_solution _ _ Hplus Hminus Hsigned)
      as (o0 & o1 & o2 & a & b & c & d & Hsol).
    destruct (proj2 (@kept_iff_exact _ _ _
                       (display self (expression 1 o0 o1 o2 a b c d))
                       Hinv Hops Hrange)) as (c' & Hc & Hk).
    + now exists 1%nat, o0, o1, o2, a, b, c, d.
    + now exists c', (display self (expression 1 o0 o1 o2 a b c d)).
  - intros Hd Htrue. apply Hiff in Htrue.
    destruct Htrue as (c' & s & Hc & Hk).
    rewrite (Heasy Hd) in Hops, Hc.
    pose proof (@easy_kept_signed _ _ _ _ Hinv Hops Hrange Hc Hk) as Hsigned.
    split; [exact Hsigned |]. now apply signed_sum_total.
Qed.

Lemma has_solution_easy_witness :
  exists answer,
    @has_solution newest_first_order easy_game [9; 9; 3; 3] = Ok answer /\
    (signed_sum [9; 9; 3; 3] -> answer = true) /\
    (difficulty easy_game = "easy" -> answer = true ->
     signed_sum [9; 9; 3; 3] /\ 24 <= sum [9; 9; 3; 3]
     /\ Z.even (sum [9; 9; 3; 3]) = true).
Proof.
  apply (@has_solution_easy newest_first_order [SetDifficulty "easy"]
           [9; 9; 3; 3]).
  simpl. intros x [H | [H | [H | [H | []]]]]; subst; lia.
Defined.

(** ** The display format *)

Lemma replace_char_append c new s t :
  py_replace (String c "") new (s ++ t)
  = (py_replace (String c "") new s ++ py_replace (String c "") new t)%string.
Proof.
  unfold py_replace. induction s as [| x s IH]; [reflexivity |].
  cbn [append replace_from starts_with String.length Nat.sub].
  rewrite IH. destruct (c =? x)%char; cbn [andb].
  - now rewrite append_assoc.
  - reflexivity.
Qed.

Lemma replace_char_digits c new s :
  is_digit c = false -> all_digits s = true ->
  py_replace (String c "") new s = s.
Proof.
  intros Hc. unfold py_replace. induction s as [| x s IH]; [reflexivity |].
  cbn [all_digits replace_from starts_with]. intros Hs.
  apply andb_prop in Hs. destruct Hs as [Hx Hs]. rewrite (IH Hs).
  destruct (Ascii.eqb_spec c x) as [-> | _]; [congruence | reflexivity].
Qed.

Lemma display_state g s : state_inv g -> display g s = display init s.
Proof. intros (_ & _ & Hsym & _). unfold display. now rewrite Hsym. Qed.

Lemma display_append s t :
  display init (s ++ t) = (display init s ++ display init t)%string.
Proof.
  unfold display. cbn [operator_symbols init fold_left fst snd].
  now rewrite !replace_char_append.
Qed.

Lemma display_py_str a : 0 <= a -> display init (py_str a) = py_str a.
Proof.
  intros Ha. destruct (py_str_digits Ha) as [Hd _].
  unfold display. cbn [operator_symbols init fold_left fst snd].
  rewrite !(@replace_char_digits _ _ (py_str a))
    by first [reflexivity | exact Hd].
  reflexivity.
Qed.

Lemma display_op o : display init (op_str o) = shown o.
Proof. destruct o; reflexivity. Qed.

(** The display format of an expression of the solver with non-negative
    operands: the same text with every operator replaced by its symbol
    between two more spaces; numbers, parentheses and the spaces of the
    pattern are kept. *)
Theorem display_expression (ms : list method_call) (i : nat)
    (o0 o1 o2 : binop) (a b c d : Z) :
  0 <= a -> 0 <= b -> 0 <= c -> 0 <= d ->
  display (run_calls ms) (expression i o0 o1 o2 a b c d)
  = render i (py_str a) (py_str b) (py_str c) (py_str d)
           (shown o0) (shown o1) (shown o2).
Proof.
  intros Ha Hb Hc Hd.
  rewrite (display_state _ (state_inv_run_calls ms)).
  unfold expression, render.
  destruct i as [| [| [| [| [| i]]]]];
    rewrite !display_append, !display_py_str, !display_op by assumption;
    reflexivity.
Qed.

Lemma display_expression_witness :
  display (run_calls []) (expression 1 Add Mul Sub 1 2 3 4)
  = "((1  +  2)  √ó  3)  ‚àí  4".
Proof.
  exact (@display_expression [] 1 Add Mul Sub 1 2 3 4
           ltac:(lia) ltac:(lia) ltac:(lia) ltac:(lia)).
Defined.

(** ** Drawing the numbers *)

Lemma draw_digits rnd k :
  (forall j, 1 <= randint rnd j <= 9) ->
  List.length (draw rnd k) = 4%nat /\
  forall x, In x (draw rnd k) -> 1 <= x <= 9.
Proof.
  intros Hr. split; [reflexivity |].
  unfold draw. cbn [map In].
  intros x [<- | [<- | [<- | [<- | []]]]]; apply Hr.
Qed.

Lemma known_puzzles_digits numbers :
  In numbers known_puzzles ->
  List.length numbers = 4%nat /\
  (forall x, In x numbers -> 1 <= x <= 9) /\
  sum numbers < 24.
Proof.
  unfold known_puzzles. cbn [In].
  intros [<- | [<- | [<- | [<- | [<- | [<- | [<- | [<- | []]]]]]]]];
    (split; [reflexivity |]); (split; [| reflexivity]);
    cbn [In]; intros x Hx; lia.
Qed.

Lemma random_choice_known rnd :
  exists numbers,
    random_choice rnd known_puzzles = Ok numbers /\ In numbers known_puzzles.
Proof.
  unfold random_choice.
  destruct (nth_error known_puzzles (choice rnd mod List.length known_puzzles))
    as [numbers |] eqn:Hn.
  - exists numbers. split; [reflexivity |]. exact (nth_error_In _ _ Hn).
  - apply nth_error_None in Hn.
    pose proof (Nat.mod_upper_bound (choice rnd) (List.length known_puzzles)
                  ltac:(discriminate)). lia.
Qed.

Lemma not_easy_operators g operators :
  state_inv g ->
  lookup (difficulty g) (available_operators g) = Some operators ->
  difficulty g <> "easy" -> operators = ["+"; "-"; "*"; "/"].
Proof.
  intros (Hd & Ha & _). rewrite Ha.
  unfold levels in Hd. cbn [In] in Hd.
  destruct Hd as [<- | [<- | [<- | [<- | []]]]];
    cbn; intros [= <-] Hne; first [reflexivity | now elim Hne].
Qed.

Ltac rearranged :=
  apply permutations_iff; vm_compute;
  repeat first [left; reflexivity | right].

Lemma known_puzzles_solutions numbers :
  In numbers known_puzzles ->
  exists i o0 o1 o2 a b c d,
    exact_solution numbers ["+"; "-"; "*"; "/"] i o0 o1 o2 a b c d.
Proof.
  unfold known_puzzles. cbn [In].
  intros [<- | [<- | [<- | [<- | [<- | [<- | [<- | [<- | []]]]]]]]].
  - exists 1%nat, Add, Mul, Add, 1, 1, 8, 8.
    repeat split; try lia; try (cbn; tauto). rearranged.
  - exists 1%nat, Add, Add, Mul, 1, 2, 3, 4.
    repeat split; try lia; try (cbn; tauto). rearranged.
  - exists 0%nat, Mul, Add, Mul, 2, 6, 2, 6.
    repeat split; try lia; try (cbn; tauto). rearranged.
  - exists 4%nat, Div, Sub, Div, 6, 1, 3, 4.
    repeat split; try lia; try (cbn; tauto). rearranged.
  - exists 0%nat, Sub, Mul, Mul, 4, 2, 3, 4.
    repeat split; try lia; try (cbn; tauto). rearranged.
  - exists 4%nat, Div, Sub, Div, 8, 3, 8, 3.
    repeat split; try lia; try (cbn; tauto). rearranged.
  - exists 4%nat, Mul, Sub, Div, 5, 5, 1, 5.
    repeat split; try lia; try (cbn; tauto). rearranged.
  - exists 0%nat, Mul, Div, Sub, 6, 8, 4, 2.
    repeat split; try lia; try (cbn; tauto). rearranged.
Qed.

Lemma exact_solution_has_solution `{SetOrder} g numbers operators
    i o0 o1 o2 a b c d :
  state_inv g ->
  lookup (difficulty g) (available_operators g) = Some operators ->
  (forall x, In x numbers -> 1 <= x <= 9) ->
  exact_solution numbers operators i o0 o1 o2 a b c d ->
  has_solution g numbers = Ok true.
Proof.
  intros Hinv Hops Hrange Hsol.
  destruct (proj2 (@kept_iff_exact _ _ _
                     (display g (expression i o0 o1 o2 a b c d))
                     Hinv Hops Hrange)) as (c' & Hc & Hk).
  - now exists i, o0, o1, o2, a, b, c, d.
  - exact (@has_solution_kept _ _ _ _ _ _ Hops Hc Hk).
Qed.

Lemma known_puzzles_solvable `{SetOrder} g numbers :
  state_inv g -> difficulty g <> "easy" ->
  In numbers known_puzzles -> has_solution g numbers = Ok true.
Proof.
  intros Hinv Hne Hin.
  destruct (state_inv_lookup Hinv) as [operators Hops].
  pose proof (@not_easy_operators _ _ Hinv Hops Hne) as ->.
  destruct (@known_puzzles_solutions _ Hin)
    as (i & o0 & o1 & o2 & a & b & c & d & Hsol).
  destruct (@known_puzzles_digits _ Hin) as (_ & Hrange & _).
  exact (@exact_solution_has_solution _ _ _ _ _ _ _ _ _ _ _ _
           Hinv Hops Hrange Hsol).
Qed.

Lemma easy_unsolvable `{SetOrder} g numbers :
  state_inv g -> difficulty g = "easy" ->
  (forall x, In x numbers -> 1 <= x <= 9) ->
  sum numbers < 24 ->
  has_solution g numbers = Ok false.
Proof.
  intros Hinv He Hrange Hsum.
  destruct (state_inv_lookup Hinv) as [operators Hops].
  destruct (plus_minus_operators Hinv Hops) as (_ & _ & Heasy).
  rewrite (Heasy He) in Hops.
  apply (@has_solution_none _ _ _ _ Hops). intros c s Hc Hk.
  pose proof (@easy_kept_signed _ _ _ _ Hinv Hops Hrange Hc Hk) as Hsigned.
  destruct (@signed_sum_total _ Hrange Hsigned) as [Hge _]. lia.
Qed.

(** The loop of the other difficulties, from draw [k] on: it returns the
    first draw with a solution among the next [remaining] ones, or one of
    the known puzzles when none has. *)
Lemma attempts_loop_returns `{SetOrder} g rnd remaining :
  state_inv g ->
  forall k,
  exists numbers,
    attempts_loop g rnd k remaining = Ok numbers /\
    ((exists j, (k <= j < k + remaining)%nat /\
                numbers = draw rnd j /\
                has_solution g numbers = Ok true /\
                forall j', (k <= j' < j)%nat ->
                           has_solution g (draw rnd j') = Ok false)
     \/
     ((forall j, (k <= j < k + remaining)%nat ->
                 has_solution g (draw rnd j) = Ok false) /\
      In numbers known_puzzles)).
Proof.
  intros Hinv.
  destruct (state_inv_lookup Hinv) as [operators Hops].
  induction remaining as [| remaining IH]; intros k; cbn [attempts_loop].
  - destruct (random_choice_known rnd) as (numbers & Hn & Hin).
    exists numbers. split; [exact Hn |]. right.
    split; [intros j Hj; lia | exact Hin].
  - destruct (@has_solution_answer _ _ (draw rnd k) _ Hops)
      as (answer & Hanswer & _).
    rewrite Hanswer. cbn [bind]. destruct answer.
    + exists (draw rnd k). split; [reflexivity |]. left.
      exists k. split; [lia |]. split; [reflexivity |].
      split; [exact Hanswer |]. intros j' Hj'. lia.
    + destruct (IH (S k)) as (numbers & Hn & Hcase).
      exists numbers. split; [exact Hn |].
      destruct Hcase as [(j & Hj & Hd & Hs & Hbefore) | [Hall Hin]].
      * left. exists j. split; [lia |]. split; [exact Hd |].
        split; [exact Hs |]. intros j' Hj'.
        destruct (Nat.eq_dec j' k) as [-> | Hne]; [exact Hanswer |].
        apply Hbefore. lia.
      * right. split; [| exact Hin]. intros j Hj.
        destruct (Nat.eq_dec j k) as [-> | Hne]; [exact Hanswer |].
        apply Hall. lia.
Qed.

(** Outside expert mode [generate_numbers] returns at once, with four
    digits between 1 and 9: the first of the fifty draws that has a
    solution, or else one of the known puzzles.  At difficulty normal or
    hard the numbers it returns always have a solution. *)
Theorem generate_numbers_returns (order : SetOrder)
    (ms : list method_call) (rnd : random) (fuel : nat) :
  let self := run_calls ms in
  difficulty self <> "expert" ->
  (forall k, 1 <= randint rnd k <= 9) ->
  exists numbers,
    generate_numbers fuel self rnd = Some (Ok numbers) /\
    List.length numbers = 4%nat /\
    (forall x, In x numbers -> 1 <= x <= 9) /\
    ((exists k, (k < 50)%nat /\
                numbers = draw rnd k /\
                has_solution self numbers = Ok true /\
                forall j, (j < k)%nat ->
                          has_solution self (draw rnd j) = Ok false)
     \/
     ((forall k, (k < 50)%nat ->
                 has_solution self (draw rnd k) = Ok false) /\
      In numbers known_puzzles)) /\
    (difficulty self <> "easy" -> has_solution self numbers = Ok true).
Proof.
  intros self Hne Hr.
  pose proof (state_inv_run_calls ms) as Hinv. fold self in Hinv.
  unfold generate_numbers.
  destruct (String.eqb_spec (difficulty self) "expert") as [He | _];
    [now elim Hne |].
  destruct (@attempts_loop_returns _ _ rnd 50 Hinv 0%nat)
    as (numbers & Hn & Hcase).
  exists numbers. split; [now rewrite Hn |].
  destruct Hcase as [(j & Hj & Hd & Hs & Hbefore) | [Hall Hin]].
  - destruct (@draw_digits _ j Hr) as [Hlen Hrange]. rewrite <- Hd in Hlen, Hrange.
    split; [exact Hlen |]. split; [exact Hrange |]. split; [| intros _; exact Hs].
    left. exists j. split; [lia |]. split; [exact Hd |]. split; [exact Hs |].
    intros j' Hj'. apply Hbefore. lia.
  - destruct (@known_puzzles_digits _ Hin) as (Hlen & Hrange & _).
    split; [exact Hlen |]. split; [exact Hrange |]. split.
    + right. split; [| exact Hin]. intros k Hk. apply Hall. lia.
    + intros Hnot. now apply known_puzzles_solvable.
Qed.

Lemma generate_numbers_returns_witness :
  let rnd := {| randint := fun _ => 6; choice := 0 |} in
  exists numbers,
    @generate_numbers newest_first_order 0 init rnd = Some (Ok numbers) /\
    List.length numbers = 4%nat /\
    (forall x, In x numbers -> 1 <= x <= 9) /\
    ((exists k, (k < 50)%nat /\
                numbers = draw rnd k /\
                @has_solution newest_first_order init numbers = Ok true /\
                forall j, (j < k)%nat ->
                          @has_solution newest_first_order init (draw rnd j)
                          = Ok false)
     \/
     ((forall k, (k < 50)%nat ->
                 @has_solution newest_first_order init (draw rnd k)
                 = Ok false) /\
      In numbers known_puzzles)) /\
    (difficulty init <> "easy" ->
     @has_solution newest_first_order init numbers = Ok true).
Proof.
  apply (@generate_numbers_returns newest_first_order []
           {| randint := fun _ => 6; choice := 0 |} 0).
  - discriminate.
  - intros k. cbn [randint]. lia.
Defined.

(** In easy mode the fallback of [generate_numbers] is a puzzle without
    a solution: when none of the fifty draws has one, it returns one of
    the known puzzles, and none of them can be solved with [+] and [-]. *)
Theorem generate_numbers_easy_fallback (order : SetOrder)
    (ms : list method_call) (rnd : random) (fuel : nat) :
  let self := run_calls ms in
  difficulty self = "easy" ->
  (forall k, (k < 50)%nat -> has_solution self (draw rnd k) = Ok false) ->
  exists numbers,
    generate_numbers fuel self rnd = Some (Ok numbers) /\
    In numbers known_puzzles /\
    has_solution self numbers = Ok false.
Proof.
  intros self He Hnone.
  pose proof (state_inv_run_calls ms) as Hinv. fold self in Hinv.
  unfold generate_numbers. rewrite He. cbn [String.eqb Ascii.eqb Bool.eqb].
  destruct (@attempts_loop_returns _ _ rnd 50 Hinv 0%nat)
    as (numbers & Hn & Hcase).
  exists numbers. split; [now rewrite Hn |].
  destruct Hcase as [(j & Hj & -> & Hs & _) | [_ Hin]].
  - rewrite Hnone in Hs by lia. discriminate Hs.
  - split; [exact Hin |].
    destruct (@known_puzzles_digits _ Hin) as (_ & Hrange & Hsum).
    now apply easy_unsolvable.
Qed.

Lemma generate_numbers_easy_fallback_witness :
  let rnd := {| randint := fun _ => 1; choice := 5 |} in
  exists numbers,
    @generate_numbers newest_first_order 0 easy_game rnd = Some (Ok numbers) /\
    In numbers known_puzzles /\
    @has_solution newest_first_order easy_game numbers = Ok false.
Proof.
  apply (@generate_numbers_easy_fallback newest_first_order
           [SetDifficulty "easy"] {| randint := fun _ => 1; choice := 5 |} 0).
  - reflexivity.
  - intros k _. apply easy_unsolvable.
    + exact (state_inv_run_calls [SetDifficulty "easy"]).
    + reflexivity.
    + cbn. intros x Hx. lia.
    + reflexivity.
Defined.

(** The loop of expert mode, from draw [k] on: whatever it returns
    within its fuel is a draw that has a solution and is not trivial, the
    first such one; and it returns as soon as the fuel reaches such a
    draw. *)
Lemma expert_loop_returns `{SetOrder} g rnd fuel :
  state_inv g ->
  (forall j, 1 <= randint rnd j <= 9) ->
  forall k,
    (forall outcome,
       expert_loop fuel g rnd k = Some outcome ->
       exists j, (k <= j < k + fuel)%nat /\
                 outcome = Ok (draw rnd j) /\
                 has_solution g (draw rnd j) = Ok true /\
                 has_trivial_solution (draw rnd j) = Ok false /\
                 forall j', (k <= j' < j)%nat ->
                   has_solution g (draw rnd j') = Ok false \/
                   has_trivial_solution (draw rnd j') = Ok true) /\
    (forall j, (k <= j < k + fuel)%nat ->
               has_solution g (draw rnd j) = Ok true ->
               has_trivial_solution (draw rnd j) = Ok false ->
               exists numbers, expert_loop fuel g rnd k = Some (Ok numbers)).
Proof.
  intros Hinv Hr.
  destruct (state_inv_lookup Hinv) as [operators Hops].
  induction fuel as [| fuel IH]; intros k; cbn [expert_loop].
  - split; [discriminate | intros j Hj; lia].
  - destruct (@has_solution_answer _ _ (draw rnd k) _ Hops)
      as (answer & Hanswer & _).
    destruct (@draw_digits _ k Hr) as [_ Hrange].
    pose proof (@has_trivial_solution_nonzero _ (@digits_nonzero _ Hrange))
      as Htrivial.
    rewrite Hanswer. destruct (IH (S k)) as [IHsome IHgood].
    assert (Hnext :
      (forall outcome,
         expert_loop fuel g rnd (S k) = Some outcome ->
         has_solution g (draw rnd k) = Ok false \/
         has_trivial_solution (draw rnd k) = Ok true ->
         exists j, (k <= j < k + S fuel)%nat /\
                   outcome = Ok (draw rnd j) /\
                   has_solution g (draw rnd j) = Ok true /\
                   has_trivial_solution (draw rnd j) = Ok false /\
                   forall j', (k <= j' < j)%nat ->
                     has_solution g (draw rnd j') = Ok false \/
                     has_trivial_solution (draw rnd j') = Ok true) /\
      (forall j, (k <= j < k + S fuel)%nat ->
                 j <> k ->
                 has_solution g (draw rnd j) = Ok true ->
                 has_trivial_solution (draw rnd j) = Ok false ->
                 exists numbers,
                   expert_loop fuel g rnd (S k) = Some (Ok numbers))).
    { split.
      - intros outcome Ho Hk.
        destruct (IHsome outcome Ho) as (j & Hj & Hout & Hs & Ht & Hbefore).
        exists j. split; [lia |]. split; [exact Hout |].
        split; [exact Hs |]. split; [exact Ht |]. intros j' Hj'.
        destruct (Nat.eq_dec j' k) as [-> | Hne]; [exact Hk |].
        apply Hbefore. lia.
      - intros j Hj Hne. apply IHgood. lia. }
    destruct Hnext as [Hsome Hgood].
    destruct answer.
    + rewrite Htrivial.
      destruct (existsb (quotient_present (draw rnd k)) (draw rnd k)
                || (sum (draw rnd k) =? 24)) eqn:Ht.
      * split.
        -- intros outcome Ho. apply (Hsome outcome Ho). right.
           exact Htrivial.
        -- intros j Hj Hs Hnt. apply (Hgood j Hj); try assumption.
           intros ->. rewrite Htrivial in Hnt. discriminate Hnt.
      * split.
        -- intros outcome [= <-]. exists k. split; [lia |].
           split; [reflexivity |]. split; [exact Hanswer |].
           split; [exact Htrivial |]. intros j' Hj'. lia.
        -- intros _ _ _ _. eexists. reflexivity.
    + split.
      * intros outcome Ho. apply (Hsome outcome Ho). now left.
      * intros j Hj Hs Hnt. apply (Hgood j Hj); try assumption.
        intros ->. rewrite Hanswer in Hs. discriminate Hs.
Qed.

(** In expert mode [generate_numbers] raises nothing; what it returns
    is the first draw that has a solution and no trivial one, and it
    returns as soon as there is such a draw. *)
Theorem generate_numbers_expert (order : SetOrder)
    (ms : list method_call) (rnd : random) (fuel : nat) :
  let self := run_calls ms in
  difficulty self = "expert" ->
  (forall k, 1 <= randint rnd k <= 9) ->
  (forall outcome,
     generate_numbers fuel self rnd = Some outcome ->
     exists k, (k < fuel)%nat /\
               outcome = Ok (draw rnd k) /\
               has_solution self (draw rnd k) = Ok true /\
               has_trivial_solution (draw rnd k) = Ok false /\
               forall j, (j < k)%nat ->
                 has_solution self (draw rnd j) = Ok false \/
                 has_trivial_solution (draw rnd j) = Ok true) /\
  (forall k, (k < fuel)%nat ->
             has_solution self (draw rnd k) = Ok true ->
             has_trivial_solution (draw rnd k) = Ok false ->
             exists numbers,
               generate_numbers fuel self rnd = Some (Ok numbers)).
Proof.
  intros self He Hr.
  pose proof (state_inv_run_calls ms) as Hinv. fold self in Hinv.
  unfold generate_numbers. rewrite He. cbn [String.eqb Ascii.eqb Bool.eqb].
  destruct (@expert_loop_returns _ _ rnd fuel Hinv Hr 0%nat) as [Hsome Hgood].
  split.
  - intros outcome Ho.
    destruct (Hsome outcome Ho) as (j & Hj & Hout & Hs & Ht & Hbefore).
    exists j. split; [lia |]. split; [exact Hout |]. split; [exact Hs |].
    split; [exact Ht |]. intros j' Hj'. apply Hbefore. lia.
  - intros k Hk. apply Hgood. lia.
Qed.

Lemma generate_numbers_expert_witness :
  let rnd := {| randint := fun _ => 5; choice := 0 |} in
  let self := run_calls [SetDifficulty "expert"] in
  has_trivial_solution (draw rnd 0) = Ok false /\
  exists numbers,
    @generate_numbers newest_first_order 1 self rnd = Some (Ok numbers).
Proof.
  split; [reflexivity |].
  apply (proj2 (@generate_numbers_expert newest_first_order
                  [SetDifficulty "expert"]
                  {| randint := fun _ => 5; choice := 0 |} 1
                  eq_refl ltac:(intros k; cbn [randint]; lia)) 0%nat).
  - lia.
  - apply (@exact_solution_has_solution _ _ _ ["+"; "-"; "*"; "/"]
             0%nat Mul Sub Div 5 5 5 5).
    + exact (state_inv_run_calls [SetDifficulty "expert"]).
    + reflexivity.
    + cbn. intros x Hx. lia.
    + repeat split; try lia; try (cbn; tauto). apply Permutation_refl.
  - reflexivity.
Defined.

(** ** Showing a solution *)

(** [show_solution] raises nothing: it answers that no solution exists
    exactly when [has_solution] is false for the current numbers, and
    otherwise shows the display of a combination that the solver keeps. *)
Theorem show_solution_text (order : SetOrder) (ms : list method_call) :
  let self := run_calls ms in
  exists text answer,
    show_solution self = Ok text /\
    has_solution self (current_numbers self) = Ok answer /\
    (answer = false -> text = "No solution exists!") /\
    (answer = true ->
     exists operators c s,
       lookup (difficulty self) (available_operators self) = Some operators /\
       In c (combinations (current_numbers self) operators) /\
       try_combination self c = Ok (Some s) /\
       text = ("One solution: " ++ s)%string).
Proof.
  intros self.
  pose proof (state_inv_run_calls ms) as Hinv. fold self in Hinv.
  destruct (state_inv_lookup Hinv) as [operators Hops].
  unfold show_solution, has_solution.
  pose proof (@find_all_solutions_In _ self (current_numbers self) operators)
    as Hin.
  rewrite (find_all_solutions_discovered _ _ Hops) in Hin |- *. cbn [bind].
  destruct (set_list (discovered self (current_numbers self) operators))
    as [| s r].
  - exists "No solution exists!", false. repeat split; discriminate.
  - exists ("One solution: " ++ s)%string, true.
    split; [reflexivity |]. split; [reflexivity |].
    split; [discriminate |]. intros _.
    destruct (proj1 (Hin _ s Hops eq_refl)) as (c & Hc & Hk); [now left |].
    now exists operators, c, s.
Qed.

(** ** Counters and times of the game object *)

Lemma fold_run_call_counters ms :
  forall g,
    games_played (fold_left run_call ms g)
    = games_played g + Z.of_nat (List.length (filter starts ms)) /\
    games_solved (fold_left run_call ms g)
    = games_solved g + Z.of_nat (List.length (filter solves ms)).
Proof.
  induction ms as [| m ms IH]; intros g; cbn [fold_left filter].
  - cbn [List.length]. lia.
  - destruct (IH (run_call g m)) as [-> ->].
    destruct m as [level | numbers t0 | [|] t0];
      cbn [run_call starts solves List.length];
      unfold set_difficulty, solve_puzzle;
      try destruct (lookup (py_lower level) (available_operators g));
      cbn [fst start_new_game games_played games_solved]; lia.
Qed.

(** The counters of the game object count calls: [games_played] the
    calls of [start_new_game], [games_solved] the calls of [solve_puzzle]
    on a valid expression, whether or not a game was started in
    between; [set_difficulty] changes neither. *)
Theorem counters_count_calls (ms : list method_call) :
  games_played (run_calls ms) = Z.of_nat (List.length (filter starts ms)) /\
  games_solved (run_calls ms) = Z.of_nat (List.length (filter solves ms)) /\
  (forall numbers t0 t1 t2,
     let g := run_calls (ms ++ [StartNewGame numbers t0;
                                SolvePuzzle true t1;
                                SolvePuzzle true t2]) in
     games_played g = games_played (run_calls ms) + 1 /\
     games_solved g = games_solved (run_calls ms) + 2).
Proof.
  unfold run_calls.
  destruct (fold_run_call_counters ms init) as [Hp Hs].
  split; [exact Hp |]. split; [exact Hs |].
  intros numbers t0 t1 t2.
  rewrite fold_left_app. cbn [fold_left run_call solve_puzzle fst
    start_new_game games_played games_solved]. lia.
Qed.

Lemma SFcompare_refl x : x <> S754_nan -> SFcompare x x = Some Eq.
Proof.
  destruct x as [s | s | | s m e]; intros Hx; cbn [SFcompare].
  - reflexivity.
  - now destruct s.
  - now elim Hx.
  - rewrite Z.compare_refl, Pos.compare_cont_refl. now destruct s.
Qed.

Lemma is_nan_false x :
  Prim2SF x <> S754_nan -> PrimFloat.is_nan x = false.
Proof.
  intros Hx. unfold PrimFloat.is_nan.
  rewrite FloatAxioms.eqb_spec. unfold SFeqb.
  now rewrite (SFcompare_refl Hx).
Qed.

Lemma is_nan_false_inv x :
  PrimFloat.is_nan x = false -> Prim2SF x <> S754_nan.
Proof.
  unfold PrimFloat.is_nan. rewrite FloatAxioms.eqb_spec. unfold SFeqb.
  intros H Hx. rewrite Hx in H. discriminate H.
Qed.

Lemma ltb_not_nan x y :
  PrimFloat.ltb x y = true -> PrimFloat.is_nan x = false.
Proof.
  rewrite FloatAxioms.ltb_spec. unfold SFltb. intros H.
  apply is_nan_false. intros Hx. rewrite Hx in H. discriminate H.
Qed.

Lemma ltb_leb x y : PrimFloat.ltb x y = true -> PrimFloat.leb x y = true.
Proof.
  rewrite FloatAxioms.ltb_spec, FloatAxioms.leb_spec. unfold SFltb, SFleb.
  now destruct (SFcompare (Prim2SF x) (Prim2SF y)) as [[| |] |].
Qed.

Lemma leb_refl x : PrimFloat.is_nan x = false -> PrimFloat.leb x x = true.
Proof.
  intros H. apply is_nan_false_inv in H.
  rewrite FloatAxioms.leb_spec. unfold SFleb.
  now rewrite (SFcompare_refl H).
Qed.

Lemma best_time_run_call g m :
  PrimFloat.is_nan (best_time g) = false ->
  PrimFloat.is_nan (best_time (run_call g m)) = false /\
  PrimFloat.leb (best_time (run_call g m)) (best_time g) = true.
Proof.
  intros Hg.
  destruct m as [level | numbers t0 | [|] t0];
    cbn [run_call]; unfold set_difficulty, solve_puzzle;
    try destruct (lookup (py_lower level) (available_operators g));
    cbn [fst start_new_game best_time];
    try (split; [exact Hg | now apply leb_refl]).
  destruct (PrimFloat.ltb (PrimFloat.sub t0 (start_time g)) (best_time g))
    eqn:Hlt.
  - split; [exact (@ltb_not_nan _ _ Hlt) | exact (@ltb_leb _ _ Hlt)].
  - split; [exact Hg | now apply leb_refl].
Qed.

(** [best_time] is never a NaN, whatever the clock reads, and no call
    increases it. *)
Theorem best_time_never_increases (ms : list method_call) (m : method_call) :
  PrimFloat.is_nan (best_time (run_calls ms)) = false /\
  PrimFloat.leb (best_time (run_calls (ms ++ [m])))
                (best_time (run_calls ms)) = true.
Proof.
  assert (Hnan : forall l, PrimFloat.is_nan (best_time (run_calls l)) = false).
  { intros l. unfold run_calls. rewrite <- (rev_involutive l).
    induction (rev l) as [| x r IH]; [reflexivity |].
    cbn [rev]. rewrite fold_left_app. cbn [fold_left].
    now apply best_time_run_call. }
  split; [apply Hnan |].
  unfold run_calls at 1. rewrite fold_left_app. cbn [fold_left].
  apply best_time_run_call. apply Hnan.
Qed.

(** ** A new game *)

(** At difficulty normal or hard a new game always has a solution to
    show: the numbers that [generate_numbers] returns become the current
    numbers, the difficulty is kept, and [show_solution] shows the
    display of a combination that the solver keeps. *)
Theorem new_game_shows_solution (order : SetOrder)
    (ms : list method_call) (rnd : random) (fuel : nat) (clock : float) :
  let self := run_calls ms in
  difficulty self = "normal" \/ difficulty self = "hard" ->
  (forall k, 1 <= randint rnd k <= 9) ->
  exists numbers solution,
    generate_numbers fuel self rnd = Some (Ok numbers) /\
    let self' := start_new_game self numbers clock in
    current_numbers self' = numbers /\
    difficulty self' = difficulty self /\
    has_solution self' numbers = Ok true /\
    show_solution self' = Ok ("One solution: " ++ solution)%string.
Proof.
  intros self Hd Hr.
  pose proof (state_inv_run_calls ms) as Hinv. fold self in Hinv.
  destruct (state_inv_lookup Hinv) as [operators Hops].
  assert (Hne : difficulty self <> "easy")
    by (destruct Hd as [-> | ->]; discriminate).
  unfold generate_numbers.
  destruct (String.eqb_spec (difficulty self) "expert") as [He | _];
    [destruct Hd as [Hd | Hd]; rewrite Hd in He; discriminate He |].
  destruct (@attempts_loop_returns _ _ rnd 50 Hinv 0%nat)
    as (numbers & Hn & Hcase).
  assert (Hs : has_solution self numbers = Ok true).
  { destruct Hcase as [(j & _ & _ & Hs & _) | [_ Hin]]; [exact Hs |].
    now apply known_puzzles_solvable. }
  exists numbers.
  assert (Hsame : forall l,
            find_all_solutions (start_new_game self numbers clock) l
            = find_all_solutions self l).
  { intros l. unfold find_all_solutions.
    cbn [start_new_game difficulty available_operators].
    reflexivity. }
  unfold show_solution, has_solution in *.
  cbn [start_new_game current_numbers difficulty]. rewrite !Hsame.
  destruct (find_all_solutions self numbers) as [[| s r] | e];
    cbn [bind] in Hs |- *; try discriminate Hs.
  exists s. rewrite Hn. repeat split.
Qed.

Lemma new_game_shows_solution_witness :
  let rnd := {| randint := fun _ => 6; choice := 0 |} in
  exists numbers solution,
    @generate_numbers newest_first_order 0 init rnd = Some (Ok numbers) /\
    let self' := start_new_game init numbers 0%float in
    current_numbers self' = numbers /\
    difficulty self' = difficulty init /\
    @has_solution newest_first_order self' numbers = Ok true /\
    @show_solution newest_first_order self'
    = Ok ("One solution: " ++ solution)%string.
Proof.
  apply (@new_game_shows_solution newest_first_order []
           {| randint := fun _ => 6; choice := 0 |} 0 0%float).
  - now left.
  - intros k. cbn [randint]. lia.
Defined.

(** ** The order of the operands in [has_trivial_solution] *)

Lemma existsb_Permutation {A : Type} (f : A -> bool) l l' :
  Permutation l l' -> existsb f l = existsb f l'.
Proof.
  intros Hp. apply eq_true_iff_eq. rewrite !existsb_exists.
  split; intros (x & Hx & Hf); exists x; (split; [| exact Hf]).
  - exact (Permutation_in _ Hp Hx).
  - exact (Permutation_in _ (Permutation_sym Hp) Hx).
Qed.

Lemma existsb_pointwise {A : Type} (f g : A -> bool) l :
  (forall x, f x = g x) -> existsb f l = existsb g l.
Proof.
  intros H. induction l as [| x l IH]; [reflexivity |].
  cbn [existsb]. now rewrite H, IH.
Qed.

(** When no operand is zero, the answer of [has_trivial_solution] does
    not depend on the order of the operands. *)
Theorem has_trivial_solution_operand_order (numbers numbers' : list Z) :
  Permutation numbers numbers' ->
  Forall (fun x => x <> 0) numbers ->
  has_trivial_solution numbers' = has_trivial_solution numbers.
Proof.
  intros Hp Hnz.
  assert (Hnz' : Forall (fun x => x <> 0) numbers')
    by (exact (Permutation_Forall Hp Hnz)).
  rewrite (has_trivial_solution_nonzero Hnz),
          (has_trivial_solution_nonzero Hnz').
  rewrite (@sum_Permutation _ _ Hp).
  rewrite <- (existsb_Permutation (quotient_present numbers') Hp).
  do 2 f_equal. apply existsb_pointwise. intros x.
  unfold quotient_present, mem. f_equal.
  symmetry. now apply existsb_Permutation.
Qed.

Lemma has_trivial_solution_operand_order_witness :
  has_trivial_solution [5; 5; 8; 3] = has_trivial_solution [3; 8; 5; 5].
Proof.
  apply has_trivial_solution_operand_order.
  - exact (Permutation_rev [3; 8; 5; 5]).
  - repeat constructor; discriminate.
Defined.

(** ** Hints *)

Lemma insert_sorted_Permutation x l : Permutation (x :: l) (insert_sorted x l).
Proof.
  induction l as [| y l IH]; cbn [insert_sorted]; [apply Permutation_refl |].
  destruct (String.leb x y); [apply Permutation_refl |].
  apply (perm_trans (perm_swap y x l)). now apply perm_skip.
Qed.

Lemma py_sorted_Permutation l : Permutation l (py_sorted l).
Proof.
  induction l as [| x l IH]; cbn [py_sorted fold_right]; [constructor |].
  apply (perm_trans (perm_skip x IH)). apply insert_sorted_Permutation.
Qed.

Lemma insert_sorted_Sorted x l :
  Sorted leb_prop l -> Sorted leb_prop (insert_sorted x l).
Proof.
  induction l as [| y l IH]; cbn [insert_sorted]; intros Hs.
  - repeat constructor.
  - destruct (String.leb x y) eqn:Hxy.
    + constructor; [exact Hs |]. constructor. exact Hxy.
    + inversion Hs as [| ? ? Hl Hy]; subst.
      constructor; [now apply IH |].
      destruct l as [| z l]; cbn [insert_sorted].
      * constructor. destruct (String.leb_total x y) as [H | H];
          [congruence | exact H].
      * destruct (String.leb x z).
        -- constructor. destruct (String.leb_total x y) as [H | H];
             [congruence | exact H].
        -- constructor. now inversion Hy.
Qed.

Lemma py_sorted_Sorted l : Sorted leb_prop (py_sorted l).
Proof.
  induction l as [| x l IH]; cbn [py_sorted fold_right]; [constructor |].
  now apply insert_sorted_Sorted.
Qed.

Lemma py_sorted_In x l : In x (py_sorted l) <-> In x l.
Proof.
  split; apply Permutation_in;
    [apply Permutation_sym |]; apply py_sorted_Permutation.
Qed.

Lemma py_sorted_NoDup l : NoDup l -> NoDup (py_sorted l).
Proof. apply Permutation_NoDup, py_sorted_Permutation. Qed.

Lemma not_digit_eqb c x :
  is_digit c = false -> is_digit x = true -> (c =? x)%char = false.
Proof.
  intros Hc Hx. destruct (Ascii.eqb_spec c x) as [-> | _];
    [congruence | reflexivity].
Qed.

Lemma findall_class_digits t s :
  all_digits t = true ->
  findall_class hint_class O (t ++ s) = findall_class hint_class O s.
Proof.
  induction t as [| x t IH]; intros H; [reflexivity |].
  cbn [all_digits] in H. apply andb_prop in H. destruct H as [Hx Ht].
  cbn [append findall_class hint_class find starts_with].
  rewrite !(@not_digit_eqb _ x) by first [assumption | reflexivity].
  cbn [andb]. now apply IH.
Qed.

Lemma findall_class_py_str a s :
  0 <= a ->
  findall_class hint_class O (py_str a ++ s) = findall_class hint_class O s.
Proof. intros Ha. apply findall_class_digits. now apply py_str_digits. Qed.

Lemma findall_class_py_str_end a :
  0 <= a -> findall_class hint_class O (py_str a) = [].
Proof.
  intros Ha. rewrite <- (append_nil_r (py_str a)).
  now rewrite findall_class_py_str.
Qed.

Lemma findall_class_shown o s :
  findall_class hint_class O (shown o ++ s)
  = marks o ++ findall_class hint_class O s.
Proof. destruct o; reflexivity. Qed.

Lemma findall_class_lparen s :
  findall_class hint_class O (String "(" s) = findall_class hint_class O s.
Proof. reflexivity. Qed.

Lemma findall_class_rparen s :
  findall_class hint_class O (String ")" s) = findall_class hint_class O s.
Proof. reflexivity. Qed.

Lemma findall_class_space s :
  findall_class hint_class O (String " " s) = findall_class hint_class O s.
Proof. reflexivity. Qed.

Lemma findall_class_render i o0 o1 o2 a b c d :
  0 <= a -> 0 <= b -> 0 <= c -> 0 <= d ->
  findall_class hint_class O
    (render i (py_str a) (py_str b) (py_str c) (py_str d)
            (shown o0) (shown o1) (shown o2))
  = marks o0 ++ marks o1 ++ marks o2.
Proof.
  intros Ha Hb Hc Hd. unfold render.
  destruct i as [| [| [| [| [| i]]]]]; cbn [append];
    repeat first
      [ rewrite findall_class_lparen | rewrite findall_class_rparen
      | rewrite findall_class_space | rewrite findall_class_shown
      | rewrite findall_class_py_str by assumption
      | rewrite findall_class_py_str_end by assumption ];
    cbn [findall_class]; rewrite ?List.app_nil_r; reflexivity.
Qed.

Lemma py_in_char_append c s t :
  py_in (String c "") (s ++ t)
  = py_in (String c "") s || py_in (String c "") t.
Proof.
  induction s as [| x s IH]; cbn [append py_in starts_with].
  - now destruct t.
  - rewrite IH. now destruct (c =? x)%char.
Qed.

Lemma py_in_char_digits c s :
  is_digit c = false -> all_digits s = true -> py_in (String c "") s = false.
Proof.
  intros Hc. induction s as [| x s IH]; [reflexivity |].
  cbn [all_digits py_in starts_with]. intros Hs.
  apply andb_prop in Hs. destruct Hs as [Hx Hs].
  now rewrite (@not_digit_eqb _ _ Hc Hx), (IH Hs).
Qed.

Lemma py_in_paren_render i o0 o1 o2 a b c d :
  0 <= a -> 0 <= b -> 0 <= c -> 0 <= d ->
  py_in "("
    (render i (py_str a) (py_str b) (py_str c) (py_str d)
            (shown o0) (shown o1) (shown o2))
  = (i <? 5)%nat.
Proof.
  intros Ha Hb Hc Hd.
  assert (Hn : forall x, 0 <= x -> py_in "(" (py_str x) = false).
  { intros x Hx. apply py_in_char_digits; [reflexivity |].
    now apply py_str_digits. }
  assert (Ho : forall o, py_in "(" (shown o) = false)
    by (intros o; now destruct o).
  unfold render.
  destruct i as [| [| [| [| [| i]]]]];
    rewrite !py_in_char_append, !Hn, !Ho by assumption; reflexivity.
Qed.

Lemma display_render g i o0 o1 o2 a b c d :
  state_inv g ->
  0 <= a -> 0 <= b -> 0 <= c -> 0 <= d ->
  display g (expression i o0 o1 o2 a b c d)
  = render i (py_str a) (py_str b) (py_str c) (py_str d)
           (shown o0) (shown o1) (shown o2).
Proof.
  intros Hinv Ha Hb Hc Hd. rewrite (display_state _ Hinv).
  unfold expression, render.
  destruct i as [| [| [| [| [| i]]]]];
    rewrite !display_append, !display_py_str, !display_op by assumption;
    reflexivity.
Qed.

(** A solution of non-negative numbers is the display of one of the six
    patterns over a rearrangement of the numbers. *)
Lemma solution_shape `{SetOrder} g numbers operators solutions s :
  state_inv g ->
  lookup (difficulty g) (available_operators g) = Some operators ->
  (forall x, In x numbers -> 0 <= x) ->
  find_all_solutions g numbers = Ok solutions ->
  In s solutions ->
  exists i o0 o1 o2 a b c d,
    (i < 6)%nat /\ 0 <= a /\ 0 <= b /\ 0 <= c /\ 0 <= d /\
    s = display g (expression i o0 o1 o2 a b c d).
Proof.
  intros Hinv Hops Hrange Hsol Hs.
  destruct (proj1 (@find_all_solutions_In _ _ _ _ _ s Hops Hsol) Hs)
    as (c & Hc & Hk).
  destruct (@combination_operands _ _ _ _ Hinv Hops Hc)
    as [(i & o0 & o1 & o2 & a & b & c' & d
         & Hi & Hp & _ & _ & _ & ->) | Hlen].
  - exists i, o0, o1, o2, a, b, c', d.
    assert (Hnn : forall x, In x [a; b; c'; d] -> 0 <= x)
      by (intros x Hx; apply Hrange; exact (Permutation_in _ Hp Hx)).
    split; [exact Hi |].
    repeat (split; [apply Hnn; cbn [In]; tauto |]).
    pose proof Hinv as (_ & _ & _ & Ht).
    destruct (@try_combination_kept _ _ _ Ht Hk)
      as (expr & result & Hexpr & Heval & Hnear).
    rewrite (expression_of_combination o0 o1 o2 a b c' d Hi) in Hexpr.
    apply Ok_inj in Hexpr. subst expr.
    rewrite (@try_combination_near _ _ _ _ _ _ _ _ _ _ Hinv Hi Heval),
            Hnear in Hk.
    apply Ok_inj in Hk. now injection Hk as <-.
  - exfalso.
    assert (Hd : In s (discovered g numbers operators)).
    { unfold discovered. apply in_flat_map. exists c.
      split; [exact Hc |]. rewrite Hk. now left. }
    rewrite discovered_wrong_length in Hd; [exact Hd | exact Hlen |].
    exact Hrange.
Qed.

(** [get_hint] raises nothing when the current numbers are not
    negative.  Without a solution it says so.  Otherwise the hint is
    read off the first solution of the list: in easy mode it names [+]
    and [-]; in normal mode it tells whether that solution has
    parentheses, which is whether it comes from one of the first five
    patterns; in hard and expert mode it lists, sorted and without
    repetition, the characters of the class that the display of the three
    operators holds, never the minus sign. *)
Theorem get_hint_text (order : SetOrder) (ms : list method_call) :
  let self := run_calls ms in
  (forall x, In x (current_numbers self) -> 0 <= x) ->
  exists text solutions,
    get_hint self = Ok text /\
    find_all_solutions self (current_numbers self) = Ok solutions /\
    match solutions with
    | [] => text = "No solution exists for these numbers!"
    | solution :: _ =>
        exists i o0 o1 o2 a b c d listed,
          (i < 6)%nat /\
          solution = display self (expression i o0 o1 o2 a b c d) /\
          (difficulty self = "easy" ->
           text = "Try using these operators: +, -") /\
          (difficulty self = "normal" ->
           text = if (i <? 5)%nat
                  then "Try using parentheses to group operations."
                  else "Try operations from left to right without parentheses.")
          /\
          (difficulty self = "hard" \/ difficulty self = "expert" ->
           text = ("You'll need these operators: "
                   ++ py_join ", " listed)%string) /\
          Sorted leb_prop listed /\
          NoDup listed /\
          (forall x, In x listed <-> In x (marks o0 ++ marks o1 ++ marks o2)) /\
          ~ In "-" listed
    end.
Proof.
  intros self Hrange.
  pose proof (state_inv_run_calls ms) as Hinv. fold self in Hinv.
  destruct (state_inv_lookup Hinv) as [operators Hops].
  destruct (plus_minus_operators Hinv Hops) as (_ & _ & Heasy).
  pose proof (find_all_solutions_discovered self (current_numbers self) Hops)
    as Hsol.
  unfold get_hint. rewrite Hsol. cbn [bind].
  destruct (set_list (discovered self (current_numbers self) operators))
    as [| solution rest] eqn:Hlist.
  - do 2 eexists. split; [reflexivity |]. split; reflexivity.
  - destruct (@solution_shape _ _ _ _ _ solution Hinv Hops Hrange Hsol)
      as (i & o0 & o1 & o2 & a & b & c & d & Hi & Ha & Hb & Hc & Hd & Hs);
      [now left |].
    pose (listed := py_sorted (set_list (findall_class hint_class O solution))).
    assert (Hin : forall x,
              In x listed <-> In x (marks o0 ++ marks o1 ++ marks o2)).
    { intros x. unfold listed. rewrite py_sorted_In, set_list_In, Hs.
      rewrite (display_render i o0 o1 o2 Hinv Ha Hb Hc Hd).
      now rewrite findall_class_render. }
    assert (Hparen : py_in "(" solution = (i <? 5)%nat).
    { rewrite Hs, (display_render i o0 o1 o2 Hinv Ha Hb Hc Hd).
      now apply py_in_paren_render. }
    pose proof Hinv as (Hlevel & _).
    unfold levels in Hlevel. cbn [In] in Hlevel.
    assert (Hminus : ~ In "-" listed).
    { rewrite Hin. destruct o0, o1, o2; cbn [marks app In];
        intros H; repeat destruct H as [H | H]; try discriminate H;
        exact H. }
    assert (Hsorted : Sorted leb_prop listed) by apply py_sorted_Sorted.
    assert (Hnodup : NoDup listed)
      by (apply py_sorted_NoDup, set_list_NoDup).
    rewrite Hparen. fold listed.
    assert (Htext : exists text,
      (if (difficulty self =? "easy")%string
       then
         match lookup (difficulty self) (available_operators self) with
         | Some operators' =>
             Ok ("Try using these operators: "
                 ++ py_join ", " operators')%string
         | None => Raise KeyError
         end
       else if (difficulty self =? "normal")%string
       then if (i <? 5)%nat
            then Ok "Try using parentheses to group operations."
            else Ok "Try operations from left to right without parentheses."
       else Ok ("You'll need these operators: "
                ++ py_join ", " listed)%string) = Ok text /\
      (difficulty self = "easy" ->
       text = "Try using these operators: +, -") /\
      (difficulty self = "normal" ->
       text = if (i <? 5)%nat
              then "Try using parentheses to group operations."
              else "Try operations from left to right without parentheses.")
      /\
      (difficulty self = "hard" \/ difficulty self = "expert" ->
       text = ("You'll need these operators: "
               ++ py_join ", " listed)%string)).
    { destruct Hlevel as [He | [He | [He | [He | []]]]].
      - rewrite (Heasy (eq_sym He)) in Hops. rewrite Hops, <- He.
        eexists. split; [reflexivity |].
        split; [reflexivity |].
        split; [discriminate | intros [H | H]; discriminate H].
      - rewrite <- He. cbn [String.eqb Ascii.eqb Bool.eqb].
        destruct (i <? 5)%nat; eexists; (split; [reflexivity |]);
          (split; [discriminate |]); (split; [reflexivity |]);
          intros [H | H]; discriminate H.
      - rewrite <- He. eexists. split; [reflexivity |].
        split; [discriminate |]. split; [discriminate | reflexivity].
      - rewrite <- He. eexists. split; [reflexivity |].
        split; [discriminate |]. split; [discriminate | reflexivity]. }
    destruct Htext as (text & Htext & Hte & Htn & Hth).
    exists text, (solution :: rest). split; [exact Htext |].
    split; [reflexivity |].
    exists i, o0, o1, o2, a, b, c, d, listed.
    repeat (split; [assumption |]). exact Hminus.
Qed.

Lemma get_hint_text_witness :
  let self := run_calls [SetDifficulty "hard"; StartNewGame [1; 3; 4; 6] 0] in
  exists text solutions,
    @get_hint newest_first_order self = Ok text /\
    @find_all_solutions newest_first_order self (current_numbers self)
    = Ok solutions /\
    match solutions with
    | [] => text = "No solution exists for these numbers!"
    | solution :: _ =>
        exists i o0 o1 o2 a b c d listed,
          (i < 6)%nat /\
          solution = display self (expression i o0 o1 o2 a b c d) /\
          (difficulty self = "easy" ->
           text = "Try using these operators: +, -") /\
          (difficulty self = "normal" ->
           text = if (i <? 5)%nat
                  then "Try using parentheses to group operations."
                  else "Try operations from left to right without parentheses.")
          /\
          (difficulty self = "hard" \/ difficulty self = "expert" ->
           text = ("You'll need these operators: "
                   ++ py_join ", " listed)%string) /\
          Sorted leb_prop listed /\
          NoDup listed /\
          (forall x, In x listed <-> In x (marks o0 ++ marks o1 ++ marks o2)) /\
          ~ In "-" listed
    end.
Proof.
  apply (@get_hint_text newest_first_order
           [SetDifficulty "hard"; StartNewGame [1; 3; 4; 6] 0]).
  cbn. intros x Hx. lia.
Defined.
